(** * gardener-cluster-recorder: the persistence core [db/data_access.go]

    A shallow embedding of the [DataAccess] facade of package [db] and the
    properties of it that the specification states.

    Conventions of the embedding.
    - A Go function returning [(T, error)] is a Rocq function returning the
      pair [T * option error]; [None] is the [nil] error.
    - A Go map is a reference that may be [nil]: a value of type
      [map[string]V] is an [option (gmap string V)], a slice [[]T] is an
      [option (list T)], [None] being [nil].
    - Calls into [database/sql] thread the database explicitly; what the
      environment decides (a driver failure, the outcome of a scan) is an
      argument of the embedded function.
    - What the file imports but does not define (the [gcr] domain types'
      [GetHash] methods, the Kubernetes API types, the JSON library at those
      types) is a member of a type class the development is parameterised
      by; [strings.TrimSpace] and the JSON library at maps of strings are
      modelled. *)

From Stdlib Require Import ZArith Ascii String List Bool Lia Sorted.
From stdpp Require Import base option list sorting gmap strings.

Local Open Scope Z_scope.
Local Open Scope string_scope.

(** ** Go errors *)

(** The errors the file builds and inspects: the sentinel [sql.ErrNoRows],
    any other error a library reports, and [fmt.Errorf] with one [%w] verb,
    which wraps its cause.  The format string is kept as written in the
    source; its other operands only render text and are left out. *)
Inductive error : Type :=
| sql_ErrNoRows : error
| errors_New (msg : string) : error
| fmt_Errorf (format : string) (cause : error) : error.

#[global] Instance error_eq_dec : EqDecision error.
Proof. solve_decision. Defined.

(** [errors.Is]: the error or one of the causes it wraps is the target. *)
Fixpoint errors_Is (err target : error) : bool :=
  if decide (err = target) then true
  else match err with
       | fmt_Errorf _ cause => errors_Is cause target
       | _ => false
       end.

(** The spec's [NotFound]: a non-nil error that is [sql.ErrNoRows]. *)
Definition NotFound (err : option error) : Prop :=
  exists e, err = Some e /\ errors_Is e sql_ErrNoRows = true.

(** ** time.Time *)

Inductive Location : Type :=
| time_UTC : Location
| time_FixedZone (offsetSeconds : Z) : Location.

(** An instant ([sec] seconds and [nsec] nanoseconds since the epoch) shown
    in a location. *)
Record Time : Type := mkTime { sec : Z; nsec : Z; loc : Location }.

Definition Time_UTC (t : Time) : Time :=
  {| sec := sec t; nsec := nsec t; loc := time_UTC |}.

Definition Time_UnixMilli (t : Time) : Z :=
  sec t * 1000 + nsec t / 1000000.

(** ** Values bound to and stored by SQL statements *)

Inductive value : Type :=
| VNull : value
| VInt (z : Z) : value
| VText (s : string) : value
| VTime (t : Time) : value.

#[global] Instance Location_eq_dec : EqDecision Location.
Proof. solve_decision. Defined.
#[global] Instance Time_eq_dec : EqDecision Time.
Proof. solve_decision. Defined.
#[global] Instance value_eq_dec : EqDecision value.
Proof. solve_decision. Defined.

(** ** strings.TrimSpace *)

Definition utf8_RuneSelf : N := 128.

(** The table [asciiSpace] of package [strings]. *)
Definition asciiSpace (c : ascii) : bool :=
  match N_of_ascii c with
  | 9%N | 10%N | 11%N | 12%N | 13%N | 32%N => true
  | _ => false
  end.

Abbreviation GoMap V := (option (gmap string V)).
Abbreviation GoSlice T := (option (list T)).

Definition len_map {V} (m : GoMap V) : nat :=
  match m with None => 0%nat | Some g => size g end.

Definition len_slice {T} (s : GoSlice T) : nat :=
  match s with None => 0%nat | Some l => length l end.

(** ** unicode/utf8, unicode.IsSpace, strings.TrimFunc *)

Definition utf8_RuneError : N := 65533.

(** A second, third or fourth byte of an encoding, within its range. *)
Definition utf8_continues (lo hi : N) (c : ascii) : bool :=
  ((lo <=? N_of_ascii c) && (N_of_ascii c <=? hi))%N.

Definition utf8_bits (c : ascii) (mask : N) : N := N.land (N_of_ascii c) mask.

(** [utf8.DecodeRuneInString]: the first rune of [p] and its width in bytes;
    bytes that start no valid encoding give [RuneError] and width 1, the
    empty string [RuneError] and width 0. *)
Definition utf8_DecodeRune (p : list ascii) : N * nat :=
  match p with
  | [] => (utf8_RuneError, 0%nat)
  | c0 :: rest =>
      let p0 := N_of_ascii c0 in
      if (p0 <? utf8_RuneSelf)%N then (p0, 1%nat)
      else if ((p0 <? 194) || (244 <? p0))%N then (utf8_RuneError, 1%nat)
      else
        let lo := (if p0 =? 224 then 160 else if p0 =? 240 then 144 else 128)%N in
        let hi := (if p0 =? 237 then 159 else if p0 =? 244 then 143 else 191)%N in
        match rest with
        | [] => (utf8_RuneError, 1%nat)
        | c1 :: rest1 =>
            if negb (utf8_continues lo hi c1) then (utf8_RuneError, 1%nat)
            else if (p0 <? 224)%N
            then (N.lor (N.shiftl (utf8_bits c0 31) 6) (utf8_bits c1 63), 2%nat)
            else
              match rest1 with
              | [] => (utf8_RuneError, 1%nat)
              | c2 :: rest2 =>
                  if negb (utf8_continues 128 191 c2) then (utf8_RuneError, 1%nat)
                  else if (p0 <? 240)%N
                  then (N.lor (N.shiftl (utf8_bits c0 15) 12)
                          (N.lor (N.shiftl (utf8_bits c1 63) 6) (utf8_bits c2 63)), 3%nat)
                  else
                    match rest2 with
                    | [] => (utf8_RuneError, 1%nat)
                    | c3 :: _ =>
                        if negb (utf8_continues 128 191 c3) then (utf8_RuneError, 1%nat)
                        else (N.lor (N.shiftl (utf8_bits c0 7) 18)
                                (N.lor (N.shiftl (utf8_bits c1 63) 12)
                                   (N.lor (N.shiftl (utf8_bits c2 63) 6) (utf8_bits c3 63))),
                              4%nat)
                    end
              end
        end
  end.

(** [utf8.RuneStart]: the byte is not a continuation byte. *)
Definition utf8_RuneStart (c : ascii) : bool := negb (utf8_bits c 192 =? 128)%N.

(** [utf8.DecodeLastRuneInString]: the last rune of [p] and its width. *)
Definition utf8_DecodeLastRune (p : list ascii) : N * nat :=
  match rev p with
  | [] => (utf8_RuneError, 0%nat)
  | c :: before =>
      if (N_of_ascii c <? utf8_RuneSelf)%N then (N_of_ascii c, 1%nat)
      else
        let start :=
          match before with
          | [] => 0
          | b1 :: before1 =>
              if utf8_RuneStart b1 then length p - 2
              else match before1 with
                   | [] => 0
                   | b2 :: before2 =>
                       if utf8_RuneStart b2 then length p - 3
                       else match before2 with
                            | [] => 0
                            | b3 :: _ =>
                                if utf8_RuneStart b3 then length p - 4 else length p - 5
                            end
                   end
          end%nat in
        let '(r, size) := utf8_DecodeRune (drop start p) in
        if (start + size =? length p)%nat then (r, size) else (utf8_RuneError, 1%nat)
  end.

(** [utf8.EncodeRune] *)
Definition utf8_EncodeRune (r : N) : list ascii :=
  let byte (n : N) := ascii_of_N n in
  let cont (shift : N) := byte (N.lor 128 (N.land (N.shiftr r shift) 63)) in
  (if r <=? 127 then [byte r]
   else if r <=? 2047 then [byte (N.lor 192 (N.shiftr r 6)); cont 0]
   else if (1114111 <? r) || ((55296 <=? r) && (r <=? 57343))
   then [byte 239; byte 191; byte 189]
   else if r <=? 65535 then [byte (N.lor 224 (N.shiftr r 12)); cont 6; cont 0]
   else [byte (N.lor 240 (N.shiftr r 18)); cont 12; cont 6; cont 0])%N.

(** The runes of a string, as [for _, r := range s] sees them. *)
Fixpoint utf8_runes_from (fuel : nat) (s : list ascii) : list N :=
  match fuel, s with
  | S fuel, _ :: _ =>
      let '(r, size) := utf8_DecodeRune s in r :: utf8_runes_from fuel (drop size s)
  | _, _ => []
  end.

Definition utf8_runes (s : string) : list N :=
  utf8_runes_from (String.length s) (list_ascii_of_string s).

(** [unicode.IsSpace]: the Latin-1 spaces, and the other characters with the
    property White_Space. *)
Definition unicode_IsSpace (r : N) : bool :=
  match r with
  | 9%N | 10%N | 11%N | 12%N | 13%N | 32%N | 133%N | 160%N => true
  | 5760%N | 8232%N | 8233%N | 8239%N | 8287%N | 12288%N => true
  | _ => ((8192 <=? r) && (r <=? 8202))%N
  end.

(** [strings.TrimLeftFunc]: [s] from its first rune that [f] rejects. *)
Fixpoint TrimLeftFunc_from (fuel : nat) (f : N -> bool) (s : list ascii) : list ascii :=
  match fuel, s with
  | S fuel, _ :: _ =>
      let '(r, size) := utf8_DecodeRune s in
      if f r then TrimLeftFunc_from fuel f (drop size s) else s
  | _, _ => []
  end.

Definition strings_TrimLeftFunc (s : list ascii) (f : N -> bool) : list ascii :=
  TrimLeftFunc_from (length s) f s.

(** [lastIndexFunc(s, f, false)]: where the last rune that [f] rejects
    starts, scanning [s[0:i]] from its end. *)
Fixpoint lastIndexFunc_from (fuel : nat) (f : N -> bool) (s : list ascii) : option nat :=
  match fuel, s with
  | S fuel, _ :: _ =>
      let '(r, size) := utf8_DecodeLastRune s in
      let i := (length s - size)%nat in
      if f r then lastIndexFunc_from fuel f (take i s) else Some i
  | _, _ => None
  end.

(** [strings.TrimRightFunc] *)
Definition strings_TrimRightFunc (s : list ascii) (f : N -> bool) : list ascii :=
  match lastIndexFunc_from (length s) f s with
  | None => []
  | Some i =>
      match drop i s with
      | c :: _ =>
          if (utf8_RuneSelf <=? N_of_ascii c)%N
          then take (i + (utf8_DecodeRune (drop i s)).2) s
          else take (i + 1) s
      | [] => take (i + 1) s
      end
  end.

Definition strings_TrimFunc (s : list ascii) (f : N -> bool) : list ascii :=
  strings_TrimRightFunc (strings_TrimLeftFunc s f) f.

(** ** The JSON library at the type [map[string]string]

    [json.Marshal] and [json.Unmarshal] of [k8s.io/apimachinery/pkg/util/json]
    are those of [encoding/json] at this type: strings are written with the
    escapes of [appendString] (HTML characters escaped, bytes that are not
    UTF-8 replaced by [U+FFFD]), the keys of a map in the order of their
    bytes; a text is checked as a whole before the variable is touched, and
    a member that is not a string leaves the zero string under its key and
    the first such mismatch as the error. *)

Definition json_dquote : ascii := "034"%char.

Definition json_hex (n : N) : ascii :=
  nth (N.to_nat n) (list_ascii_of_string "0123456789abcdef") "0"%char.

(** The table [htmlSafeSet]: the ASCII bytes written as they are. *)
Definition json_htmlSafe (b : N) : bool :=
  ((32 <=? b) && (b <? 128) && negb (b =? 34) && negb (b =? 38) && negb (b =? 60)
   && negb (b =? 62) && negb (b =? 92))%N.

Definition json_escape (c : ascii) : list ascii :=
  let b := N_of_ascii c in
  (if (b =? 34) || (b =? 92) then ["\"%char; c]
   else if b =? 8 then ["\"%char; "b"%char]
   else if b =? 12 then ["\"%char; "f"%char]
   else if b =? 10 then ["\"%char; "n"%char]
   else if b =? 13 then ["\"%char; "r"%char]
   else if b =? 9 then ["\"%char; "t"%char]
   else ["\"%char; "u"%char; "0"%char; "0"%char;
         json_hex (N.shiftr b 4); json_hex (N.land b 15)])%N.

(** The loop of [appendString] with [escapeHTML] set. *)
Fixpoint json_appendString_from (fuel : nat) (src : list ascii) : list ascii :=
  match fuel, src with
  | S fuel, c :: rest =>
      if (N_of_ascii c <? utf8_RuneSelf)%N
      then (if json_htmlSafe (N_of_ascii c) then [c] else json_escape c)
             ++ json_appendString_from fuel rest
      else
        let '(r, size) := utf8_DecodeRune src in
        if ((r =? utf8_RuneError)%N && (size =? 1)%nat)
        then list_ascii_of_string "\ufffd" ++ json_appendString_from fuel (drop 1 src)
        else if ((r =? 8232) || (r =? 8233))%N
        then list_ascii_of_string "\u202" ++ json_hex (N.land r 15)
               :: json_appendString_from fuel (drop size src)
        else take size src ++ json_appendString_from fuel (drop size src)
  | _, _ => []
  end.

Definition json_appendString (s : string) : list ascii :=
  json_dquote :: json_appendString_from (String.length s) (list_ascii_of_string s)
    ++ [json_dquote].

Definition json_key_le (x y : string * string) : Prop := String.leb x.1 y.1 = true.

#[global] Instance json_key_le_dec : RelDecision json_key_le.
Proof. intros x y. unfold json_key_le. apply _. Defined.

Definition json_member (kv : string * string) : list ascii :=
  json_appendString kv.1 ++ ":"%char :: json_appendString kv.2.

Fixpoint json_join (items : list (list ascii)) : list ascii :=
  match items with
  | [] => []
  | [item] => item
  | item :: rest => item ++ ","%char :: json_join rest
  end.

(** [json.Marshal] of a [map[string]string]; it has no error at this type. *)
Definition json_Marshal_object (m : GoMap string) : string :=
  match m with
  | None => "null"
  | Some g =>
      string_of_list_ascii
        ("{"%char :: json_join (map json_member (merge_sort json_key_le (map_to_list g)))
           ++ ["}"%char])
  end.

(** What the decoder keeps of a JSON value: its kind, the text of a string,
    the members of an object. *)
#[warnings="-register-all"]
Inductive json_Value : Type :=
| JNull : json_Value
| JBool : json_Value
| JNumber : json_Value
| JString (s : string) : json_Value
| JArray : json_Value
| JObject (members : list (string * json_Value)) : json_Value.

Definition json_isSpace (c : ascii) : bool :=
  match N_of_ascii c with
  | 32%N | 9%N | 13%N | 10%N => true
  | _ => false
  end.

Fixpoint json_skip (s : list ascii) : list ascii :=
  match s with
  | c :: rest => if json_isSpace c then json_skip rest else s
  | [] => []
  end.

Definition json_digit (c : ascii) : bool :=
  ((48 <=? N_of_ascii c) && (N_of_ascii c <=? 57))%N.

Fixpoint json_digits (s : list ascii) : list ascii :=
  match s with
  | c :: rest => if json_digit c then json_digits rest else s
  | [] => []
  end.

Definition json_hexval (c : ascii) : option N :=
  let b := N_of_ascii c in
  (if (48 <=? b) && (b <=? 57) then Some (b - 48)
   else if (97 <=? b) && (b <=? 102) then Some (b - 87)
   else if (65 <=? b) && (b <=? 70) then Some (b - 55)
   else None)%N.

(** [getu4] after the two bytes of the escape: four hexadecimal digits. *)
Definition json_getu4 (s : list ascii) : option (N * list ascii) :=
  match s with
  | a :: b :: c :: d :: rest =>
      match json_hexval a, json_hexval b, json_hexval c, json_hexval d with
      | Some x, Some y, Some z, Some w => Some (((x * 16 + y) * 16 + z) * 16 + w, rest)%N
      | _, _, _, _ => None
      end
  | _ => None
  end.

Definition json_simple_escape (c : ascii) : option ascii :=
  match N_of_ascii c with
  | 34%N | 92%N | 47%N => Some c
  | 98%N => Some (ascii_of_N 8)
  | 102%N => Some (ascii_of_N 12)
  | 110%N => Some (ascii_of_N 10)
  | 114%N => Some (ascii_of_N 13)
  | 116%N => Some (ascii_of_N 9)
  | _ => None
  end.

(** [utf16.DecodeRune] of a pair of surrogates, [RuneError] for any other
    pair. *)
Definition utf16_DecodeRune (r1 r2 : N) : N :=
  (if (55296 <=? r1) && (r1 <? 56320) && (56320 <=? r2) && (r2 <? 57344)
   then N.lor (N.shiftl (r1 - 55296) 10) (r2 - 56320) + 65536
   else utf8_RuneError)%N.

(** A string literal after its opening quote: the bytes it stands for (what
    [unquote] gives) and the text after the closing quote. *)
Fixpoint json_string (fuel : nat) (s : list ascii) : option (list ascii * list ascii) :=
  match fuel, s with
  | S fuel, c :: rest =>
      let b := N_of_ascii c in
      let followed_by (bytes : list ascii) (rest : list ascii) :=
        match json_string fuel rest with
        | Some (str, rest') => Some ((bytes ++ str)%list, rest')
        | None => None
        end in
      if (b =? 34)%N then Some ([], rest)
      else if (b <? 32)%N then None
      else if (b =? 92)%N then
        match rest with
        | e :: rest1 =>
            match json_simple_escape e with
            | Some ch => followed_by [ch] rest1
            | None =>
                if (N_of_ascii e =? 117)%N then
                  match json_getu4 rest1 with
                  | Some (rr, rest2) =>
                      if ((55296 <=? rr) && (rr <? 57344))%N then
                        match rest2 with
                        | e1 :: e2 :: rest3 =>
                            match json_getu4 rest3 with
                            | Some (rr1, rest4) =>
                                if ((N_of_ascii e1 =? 92) && (N_of_ascii e2 =? 117)
                                    && negb (utf16_DecodeRune rr rr1 =? utf8_RuneError))%N
                                then followed_by (utf8_EncodeRune (utf16_DecodeRune rr rr1))
                                       rest4
                                else followed_by (utf8_EncodeRune utf8_RuneError) rest2
                            | None => followed_by (utf8_EncodeRune utf8_RuneError) rest2
                            end
                        | _ => followed_by (utf8_EncodeRune utf8_RuneError) rest2
                        end
                      else followed_by (utf8_EncodeRune rr) rest2
                  | None => None
                  end
                else None
            end
        | [] => None
        end
      else if (b <? utf8_RuneSelf)%N then followed_by [c] rest
      else
        let '(r, size) := utf8_DecodeRune s in
        followed_by (utf8_EncodeRune r) (drop size s)
  | _, _ => None
  end.

(** A number, from its first byte: the text after it. *)
Definition json_number (s : list ascii) : option (list ascii) :=
  let unsigned := match s with
                  | c :: rest => if (N_of_ascii c =? 45)%N then rest else s
                  | [] => s
                  end in
  let integer := match unsigned with
                 | c :: rest =>
                     if (N_of_ascii c =? 48)%N then Some rest
                     else if json_digit c then Some (json_digits rest) else None
                 | [] => None
                 end in
  let fraction (s : list ascii) :=
    match s with
    | c :: rest =>
        if (N_of_ascii c =? 46)%N
        then match rest with
             | d :: rest' => if json_digit d then Some (json_digits rest') else None
             | [] => None
             end
        else Some s
    | [] => Some s
    end in
  let exponent (s : list ascii) :=
    match s with
    | c :: rest =>
        if ((N_of_ascii c =? 101) || (N_of_ascii c =? 69))%N
        then let digits := match rest with
                           | sign :: rest' =>
                               if ((N_of_ascii sign =? 43) || (N_of_ascii sign =? 45))%N
                               then rest' else rest
                           | [] => rest
                           end in
             match digits with
             | d :: rest' => if json_digit d then Some (json_digits rest') else None
             | [] => None
             end
        else Some s
    | [] => Some s
    end in
  match integer with
  | Some rest => match fraction rest with
                 | Some rest' => exponent rest'
                 | None => None
                 end
  | None => None
  end.

Definition json_literal (word : string) (s : list ascii) : option (list ascii) :=
  let w := list_ascii_of_string word in
  if decide (take (length w) s = w) then Some (drop (length w) s) else None.

(** A value, the members of an object after its brace, the elements of an
    array after its bracket; each with the text that follows. *)
Fixpoint json_value (fuel : nat) (s : list ascii) : option (json_Value * list ascii) :=
  match fuel with
  | O => None
  | S fuel =>
      match json_skip s with
      | [] => None
      | c :: rest =>
          if decide (c = "{"%char) then
            match json_skip rest with
            | c' :: rest' =>
                if decide (c' = "}"%char) then Some (JObject [], rest')
                else match json_members fuel rest with
                     | Some (members, rest'') => Some (JObject members, rest'')
                     | None => None
                     end
            | [] => None
            end
          else if decide (c = "["%char) then
            match json_skip rest with
            | c' :: rest' =>
                if decide (c' = "]"%char) then Some (JArray, rest')
                else match json_elements fuel rest with
                     | Some rest'' => Some (JArray, rest'')
                     | None => None
                     end
            | [] => None
            end
          else if decide (c = json_dquote) then
            match json_string (length rest) rest with
            | Some (str, rest') => Some (JString (string_of_list_ascii str), rest')
            | None => None
            end
          else if decide (c = "t"%char) then
            option_map (pair JBool) (json_literal "true" (c :: rest))
          else if decide (c = "f"%char) then
            option_map (pair JBool) (json_literal "false" (c :: rest))
          else if decide (c = "n"%char) then
            option_map (pair JNull) (json_literal "null" (c :: rest))
          else option_map (pair JNumber) (json_number (c :: rest))
      end
  end
with json_members (fuel : nat) (s : list ascii)
  : option (list (string * json_Value) * list ascii) :=
  match fuel with
  | O => None
  | S fuel =>
      match json_skip s with
      | c :: rest =>
          if decide (c = json_dquote) then
            match json_string (length rest) rest with
            | Some (key, rest1) =>
                match json_skip rest1 with
                | colon :: rest2 =>
                    if decide (colon = ":"%char) then
                      match json_value fuel rest2 with
                      | Some (v, rest3) =>
                          match json_skip rest3 with
                          | sep :: rest4 =>
                              if decide (sep = ","%char) then
                                match json_members fuel rest4 with
                                | Some (members, rest5) =>
                                    Some ((string_of_list_ascii key, v) :: members, rest5)
                                | None => None
                                end
                              else if decide (sep = "}"%char)
                              then Some ([(string_of_list_ascii key, v)], rest4)
                              else None
                          | [] => None
                          end
                      | None => None
                      end
                    else None
                | [] => None
                end
            | None => None
            end
          else None
      | [] => None
      end
  end
with json_elements (fuel : nat) (s : list ascii) : option (list ascii) :=
  match fuel with
  | O => None
  | S fuel =>
      match json_value fuel s with
      | Some (_, rest) =>
          match json_skip rest with
          | sep :: rest' =>
              if decide (sep = ","%char) then json_elements fuel rest'
              else if decide (sep = "]"%char) then Some rest'
              else None
          | [] => None
          end
      | None => None
      end
  end.

(** [checkValid]: the text is one JSON value between white space. *)
Definition json_parse (data : string) : option json_Value :=
  let s := list_ascii_of_string data in
  match json_value (2 * length s + 2) s with
  | Some (v, rest) => match json_skip rest with [] => Some v | _ :: _ => None end
  | None => None
  end.

Definition json_store (acc : gmap string string * option error) (kv : string * json_Value)
  : gmap string string * option error :=
  match kv.2 with
  | JString s => (<[kv.1 := s]> acc.1, acc.2)
  | JNull => (<[kv.1 := ""]> acc.1, acc.2)
  | _ =>
      (<[kv.1 := ""]> acc.1,
       match acc.2 with
       | Some err => Some err
       | None => Some (errors_New "json: cannot unmarshal value into Go value of type string")
       end)
  end.

(** [json.Unmarshal] into a [map[string]string] that starts as [nil]. *)
Definition json_Unmarshal_object (data : string) : GoMap string * option error :=
  match json_parse data with
  | None => (None, Some (errors_New "invalid character"))
  | Some JNull => (None, None)
  | Some (JObject members) =>
      let '(g, err) := fold_left json_store members (∅, None) in (Some g, err)
  | Some _ =>
      (None,
       Some (errors_New "json: cannot unmarshal value into Go value of type map[string]string"))
  end.

(** ** What the file imports *)

Class External : Type := {
  (** k8s.io/api/core/v1, k8s.io/apimachinery *)
  Quantity : Type;
  Taint : Type;
  Toleration : Type;
  TopologySpreadConstraint : Type;
  PodSpec : Type;
  IntOrString : Type;
  IntOrString_String : IntOrString -> string;
  (** k8s.io/apimachinery/pkg/util/json, at each type the file uses it.
      [Unmarshal] fills the variable it is given, which starts as the zero
      value, and returns an error. *)
  Marshal_labels : GoMap string -> string + error;
  Unmarshal_labels : string -> GoMap string * option error;
  Marshal_resources : GoMap Quantity -> string + error;
  Unmarshal_resources : string -> GoMap Quantity * option error;
  Marshal_taints : GoSlice Taint -> string + error;
  Unmarshal_taints : string -> GoSlice Taint * option error;
  Marshal_tolerations : GoSlice Toleration -> string + error;
  Unmarshal_tolerations : string -> GoSlice Toleration * option error;
  Marshal_tsc : GoSlice TopologySpreadConstraint -> string + error;
  Unmarshal_tsc : string -> GoSlice TopologySpreadConstraint * option error;
  Marshal_podSpec : PodSpec -> string + error
}.

Section Codec.
Context `{E : External}.

(** The second loop of [strings.TrimSpace], on the bytes of [s[start:stop]]
    in reverse order; a byte outside ASCII hands over to
    [strings.TrimRightFunc] with [unicode.IsSpace]. *)
Fixpoint TrimSpace_stop (rev_s : list ascii) : string :=
  match rev_s with
  | [] => ""
  | c :: rest =>
      if (utf8_RuneSelf <=? N_of_ascii c)%N
      then string_of_list_ascii (strings_TrimRightFunc (rev rev_s) unicode_IsSpace)
      else if asciiSpace c then TrimSpace_stop rest
      else string_of_list_ascii (rev rev_s)
  end.

(** The first loop, where a byte outside ASCII hands over to
    [strings.TrimFunc] with [unicode.IsSpace], then the second on what is
    left. *)
Fixpoint strings_TrimSpace (s : string) : string :=
  match s with
  | EmptyString => TrimSpace_stop []
  | String c s' =>
      if (utf8_RuneSelf <=? N_of_ascii c)%N
      then string_of_list_ascii (strings_TrimFunc (list_ascii_of_string s) unicode_IsSpace)
      else if asciiSpace c then strings_TrimSpace s'
      else TrimSpace_stop (rev (list_ascii_of_string s))
  end.

(** *** Encoders *)

Definition labelsToText (valMap : GoMap string) : string * option error :=
  if (len_map valMap =? 0)%nat then ("", None)
  else match Marshal_labels valMap with
       | inr err => ("", Some (fmt_Errorf "cannot serialize labels %q due to: %w" err))
       | inl bytes => (bytes, None)
       end.

Definition resourcesToText (resources : GoMap Quantity) : string * option error :=
  if (len_map resources =? 0)%nat then ("", None)
  else match Marshal_resources resources with
       | inr err => ("", Some (fmt_Errorf "cannot serialize resources %v due to: %w" err))
       | inl bytes => (bytes, None)
       end.

Definition tolerationsToText (tolerations : GoSlice Toleration) : string * option error :=
  if (len_slice tolerations =? 0)%nat then ("", None)
  else match Marshal_tolerations tolerations with
       | inr err => ("", Some (fmt_Errorf "cannot serialize tolerations %v due to: %w" err))
       | inl bytes => (bytes, None)
       end.

Definition tscToText (tsc : GoSlice TopologySpreadConstraint) : string * option error :=
  if (len_slice tsc =? 0)%nat then ("", None)
  else match Marshal_tsc tsc with
       | inr err =>
           ("", Some (fmt_Errorf "cannot serialize TopologySpreadConstraints %v due to: %w" err))
       | inl bytes => (bytes, None)
       end.

Definition taintsToText (taints : GoSlice Taint) : string * option error :=
  if (len_slice taints =? 0)%nat then ("", None)
  else match Marshal_taints taints with
       | inr err => ("", Some (fmt_Errorf "cannot serialize taints %q due to: %w" err))
       | inl bytes => (bytes, None)
       end.

Definition specToJson (podSpec : PodSpec) : string * option error :=
  match Marshal_podSpec podSpec with
  | inr err => ("", Some (fmt_Errorf "cannot serialize podSpec %q due to: %w" err))
  | inl bytes => (bytes, None)
  end.

(** *** Decoders *)

Definition labelsFromText (textValue : string) : GoMap string * option error :=
  if decide (strings_TrimSpace textValue = "") then (None, None)
  else match Unmarshal_labels textValue with
       | (labels, Some err) =>
           (labels, Some (fmt_Errorf "cannot de-serialize labels %q due to: %w" err))
       | (labels, None) => (labels, None)
       end.

Definition tolerationsFromText (textValue : string) : GoSlice Toleration * option error :=
  if decide (strings_TrimSpace textValue = "") then (None, None)
  else match Unmarshal_tolerations textValue with
       | (tolerations, Some err) =>
           (tolerations, Some (fmt_Errorf "cannot de-serialize tolerations %q due to: %w" err))
       | (tolerations, None) => (tolerations, None)
       end.

Definition tscFromText (textValue : string)
  : GoSlice TopologySpreadConstraint * option error :=
  if decide (strings_TrimSpace textValue = "") then (None, None)
  else match Unmarshal_tsc textValue with
       | (tsc, Some err) =>
           (tsc, Some (fmt_Errorf
                         "cannot de-serialize TopologySpreadConstraints %q due to: %w" err))
       | (tsc, None) => (tsc, None)
       end.

Definition taintsFromText (textValue : string) : GoSlice Taint * option error :=
  if decide (strings_TrimSpace textValue = "") then (None, None)
  else match Unmarshal_taints textValue with
       | (taints, Some err) =>
           (taints, Some (fmt_Errorf "cannot de-serialize taints %q due to: %w" err))
       | (taints, None) => (taints, None)
       end.

Definition resourcesFromText (textValue : string) : GoMap Quantity * option error :=
  if decide (strings_TrimSpace textValue = "") then (None, None)
  else match Unmarshal_resources textValue with
       | (resources, Some err) =>
           (resources, Some (fmt_Errorf "cannot de-serialize resources %q due to: %w" err))
       | (resources, None) => (resources, None)
       end.

End Codec.

(** ** The storage engine

    A table is the list of its rows in insertion order; a row has the
    engine-generated [RowID] and its named cells; a column that a row does
    not give is [NULL]. *)

Record Row : Type := mkRow { RowID : Z; cells : list (string * value) }.

#[global] Instance Row_eq_dec : EqDecision Row.
Proof. solve_decision. Defined.

Fixpoint assoc (column : string) (cs : list (string * value)) : value :=
  match cs with
  | [] => VNull
  | (c, v) :: rest => if decide (c = column) then v else assoc column rest
  end.

Definition cell (r : Row) (column : string) : value := assoc column (cells r).

Fixpoint set_assoc (column : string) (v : value) (cs : list (string * value))
  : list (string * value) :=
  match cs with
  | [] => [(column, v)]
  | (c, w) :: rest =>
      if decide (c = column) then (c, v) :: rest else (c, w) :: set_assoc column v rest
  end.

Definition set_cell (column : string) (v : value) (r : Row) : Row :=
  {| RowID := RowID r; cells := set_assoc column v (cells r) |}.

Definition table (db : gmap string (list Row)) (name : string) : list Row :=
  default [] (db !! name).

(** The integer primary key of the next row: one more than the largest in
    the table, 1 in an empty table. *)
Definition next_RowID (t : list Row) : Z :=
  1 + fold_right Z.max 0 (map RowID t).

(** Modelled from the spec: the SQL texts [InsertMCDInfo],
    [SelectLatestMCDInfo], ... are constants of package [db] declared outside
    [data_access.go].  Each is modelled by its shape, with the tables and
    columns of the logical schema (spec section 6) and the operations of the
    snapshot store (spec section 4.4): [Store] appends a row,
    [UpdateDeletionTimestamp] sets DeletionTimestamp on the matching row(s)
    for a key, [LoadLatest] yields the most recently inserted row for a key,
    [CountWithKeyAndHash] counts the rows with a key and a hash. *)
Module SQL.

Inductive Stmt : Type :=
| Insert (table : string) (columns : list string)
| UpdateSet (table column key : string)
| SelectLatestBy (table key : string)
| SelectLatest (table : string)
| SelectBy (table key : string)
| SelectCount (table key1 key2 : string).

Definition InsertWorkerPoolInfo : Stmt :=
  Insert "worker_pool_info"
    ["CreationTimestamp"; "SnapshotTimestamp"; "Name"; "Namespace"; "MachineType";
     "Architecture"; "Minimum"; "Maximum"; "MaxSurge"; "MaxUnavailable"; "Zones"; "Hash"].

Definition InsertMCDInfo : Stmt :=
  Insert "mcd_info"
    ["CreationTimestamp"; "SnapshotTimestamp"; "Name"; "Namespace"; "Replicas";
     "PoolName"; "Zone"; "MaxSurge"; "MaxUnavailable"; "MachineClassName"; "Hash"].

Definition InsertNodeInfo : Stmt :=
  Insert "node_info"
    ["CreationTimestamp"; "SnapshotTimestamp"; "Name"; "Namespace"; "ProviderID";
     "AllocatableVolumes"; "Labels"; "Taints"; "Allocatable"; "Capacity"; "Hash"].

Definition InsertPodInfo : Stmt :=
  Insert "pod_info"
    ["CreationTimestamp"; "SnapshotTimestamp"; "Name"; "Namespace"; "UID"; "NodeName";
     "NominatedNodeName"; "Labels"; "Requests"; "Spec"; "ScheduleStatus"; "Hash"].

Definition InsertCADeployment : Stmt :=
  Insert "ca_settings_info" ["Expander"; "MaxNodesTotal"; "Priorities"; "Hash"].

Definition UpdateNodeInfoDeletionTimestamp : Stmt :=
  UpdateSet "node_info" "DeletionTimestamp" "Name".

Definition UpdateMCDInfoDeletionTimestamp : Stmt :=
  UpdateSet "mcd_info" "DeletionTimestamp" "Name".

Definition UpdatePodDeletionTimestamp : Stmt :=
  UpdateSet "pod_info" "DeletionTimestamp" "UID".

Definition SelectLatestMCDInfo : Stmt := SelectLatestBy "mcd_info" "Name".

Definition SelectLatestCADeployment : Stmt := SelectLatest "ca_settings_info".

Definition SelectCADeploymentByHash : Stmt := SelectBy "ca_settings_info" "Hash".

Definition SelectPodCountWithUIDAndHash : Stmt := SelectCount "pod_info" "UID" "Hash".

Definition SelectNodeCountWithNameAndHash : Stmt := SelectCount "node_info" "Name" "Hash".

(** The number of [?] placeholders of a statement. *)
Definition NumInput (s : Stmt) : nat :=
  match s with
  | Insert _ columns => length columns
  | UpdateSet _ _ _ => 2
  | SelectLatestBy _ _ => 1
  | SelectLatest _ => 0
  | SelectBy _ _ => 1
  | SelectCount _ _ _ => 2
  end.

End SQL.

(** The statements of the facade, as [prepareStatements] fills its fields. *)
Module d.
Definition insertWorkerPoolInfo := SQL.InsertWorkerPoolInfo.
Definition insertMCDInfo := SQL.InsertMCDInfo.
Definition insertNodeInfo := SQL.InsertNodeInfo.
Definition insertPodInfo := SQL.InsertPodInfo.
Definition insertCADeployment := SQL.InsertCADeployment.
Definition updateNodeInfoDeletionTimeStamp := SQL.UpdateNodeInfoDeletionTimestamp.
Definition updateMCDInfoDeletionTimeStamp := SQL.UpdateMCDInfoDeletionTimestamp.
Definition updatePodDeletionTimeStamp := SQL.UpdatePodDeletionTimestamp.
Definition selectLatestMCDInfo := SQL.SelectLatestMCDInfo.
Definition selectLatestCADeployment := SQL.SelectLatestCADeployment.
Definition selectCADeploymentByHash := SQL.SelectCADeploymentByHash.
Definition selectPodCountWithUIDAndHash := SQL.SelectPodCountWithUIDAndHash.
Definition selectNodeCountWithNameAndHash := SQL.SelectNodeCountWithNameAndHash.
End d.

(** What the environment decides in one call into [database/sql]: whether
    the statement, or reading its result, fails, and whether the driver
    reports the number of placeholders ([driver.Stmt.NumInput] is not -1), in
    which case [database/sql] refuses a call with another number of
    arguments.  A driver that does not report it ignores surplus arguments. *)
Record Env : Type := mkEnv {
  execErr : option error;
  lastInsertIdErr : option error;
  rowsAffectedErr : option error;
  queryErr : option error;
  closeErr : option error;
  checkNumInput : bool
}.

(** No failure, with a driver that does not report placeholders. *)
Definition ok : Env :=
  {| execErr := None; lastInsertIdErr := None; rowsAffectedErr := None;
     queryErr := None; closeErr := None; checkNumInput := false |}.

(** [sql.Result] *)
Record Result : Type := mkResult {
  LastInsertId : Z * option error;
  RowsAffected : Z * option error
}.

Definition argsErr (s : SQL.Stmt) (args : list value) (env : Env) : option error :=
  if (length args <? SQL.NumInput s)%nat then Some (errors_New "missing argument")
  else if checkNumInput env && negb (length args =? SQL.NumInput s)%nat
       then Some (errors_New "sql: expected a different number of arguments")
       else None.

Definition arg (args : list value) (i : nat) : value := nth i args VNull.

Definition result_of (env : Env) (id affected : Z) : Result :=
  {| LastInsertId := match lastInsertIdErr env with
                     | Some e => (0, Some e)
                     | None => (id, None)
                     end;
     RowsAffected := match rowsAffectedErr env with
                     | Some e => (0, Some e)
                     | None => (affected, None)
                     end |}.

(** [sql.Stmt.Exec]: one atomic statement; a failed one leaves the
    database as it was. *)
Definition Stmt_Exec (s : SQL.Stmt) (args : list value) (env : Env)
    (db : gmap string (list Row)) : gmap string (list Row) * (Result + error) :=
  match argsErr s args env with
  | Some e => (db, inr e)
  | None =>
      match execErr env with
      | Some e => (db, inr e)
      | None =>
          match s with
          | SQL.Insert t columns =>
              let id := next_RowID (table db t) in
              let r := {| RowID := id; cells := zip columns args |} in
              (<[t := (table db t ++ [r])%list]> db, inl (result_of env id 1))
          | SQL.UpdateSet t column key =>
              let hit (r : Row) := bool_decide (cell r key = arg args 1) in
              let upd (r : Row) := if hit r then set_cell column (arg args 0) r else r in
              (<[t := map upd (table db t)]> db,
               inl (result_of env 0 (Z.of_nat (length (filter (fun r => hit r = true) (table db t))))))
          | _ => (db, inl (result_of env 0 0))
          end
      end
  end.

(** [sql.Stmt.Query]: the rows of the answer. *)
Definition Stmt_Query (s : SQL.Stmt) (args : list value) (env : Env)
    (db : gmap string (list Row)) : list Row + error :=
  match argsErr s args env with
  | Some e => inr e
  | None =>
      match queryErr env with
      | Some e => inr e
      | None =>
          match s with
          | SQL.SelectLatestBy t key =>
              inl (take 1 (rev (filter (fun r => cell r key = arg args 0) (table db t))))
          | SQL.SelectLatest t => inl (take 1 (rev (table db t)))
          | SQL.SelectBy t key =>
              inl (filter (fun r => cell r key = arg args 0) (table db t))
          | SQL.SelectCount t key1 key2 =>
              let n := length (filter (fun r => cell r key1 = arg args 0 /\
                                                cell r key2 = arg args 1) (table db t)) in
              inl [ {| RowID := 0; cells := [("Count", VInt (Z.of_nat n))] |} ]
          | _ => inl []
          end
      end
  end.

(** [sql.NullInt32] *)
Record NullInt32 : Type := mkNullInt32 { Int32 : Z; Valid : bool }.

(** [(stmt.QueryRow(args...)).Scan(&count)] with [count] a [sql.NullInt32]:
    what is left in [count], and the error. *)
Definition QueryRow_Scan (s : SQL.Stmt) (env : Env) (db : gmap string (list Row))
    (args : list value) : NullInt32 * option error :=
  match Stmt_Query s args env db with
  | inr e => ({| Int32 := 0; Valid := false |}, Some e)
  | inl [] => ({| Int32 := 0; Valid := false |}, Some sql_ErrNoRows)
  | inl (r :: _) =>
      match cells r with
      | [(_, VInt n)] => ({| Int32 := n; Valid := true |}, None)
      | [(_, VNull)] => ({| Int32 := 0; Valid := false |}, None)
      | _ => ({| Int32 := 0; Valid := false |}, Some (errors_New "sql: Scan error"))
      end
  end.

(** ** The domain objects of package [gcr]

    The fields are those [data_access.go] reads. *)

Module MachineDeployment.
Section Info.
Context `{E : External}.
Record Info : Type := mk {
  CreationTimestamp : Time;
  SnapshotTimestamp : Time;
  Name : string;
  Namespace : string;
  Replicas : Z;
  PoolName : string;
  Zone : string;
  MaxSurge : IntOrString;
  MaxUnavailable : IntOrString;
  MachineClassName : string;
  Hash : string
}.
Definition with_Hash (h : string) (m : Info) : Info :=
  mk (CreationTimestamp m) (SnapshotTimestamp m) (Name m) (Namespace m) (Replicas m)
     (PoolName m) (Zone m) (MaxSurge m) (MaxUnavailable m) (MachineClassName m) h.
End Info.
End MachineDeployment.

Module WorkerPool.
Section Info.
Context `{E : External}.
Record Info : Type := mk {
  CreationTimestamp : Time;
  SnapshotTimestamp : Time;
  Name : string;
  Namespace : string;
  MachineType : string;
  Architecture : string;
  Minimum : Z;
  Maximum : Z;
  MaxSurge : IntOrString;
  MaxUnavailable : IntOrString;
  Zones : list string;
  Hash : string
}.
Definition with_Hash (h : string) (w : Info) : Info :=
  mk (CreationTimestamp w) (SnapshotTimestamp w) (Name w) (Namespace w) (MachineType w)
     (Architecture w) (Minimum w) (Maximum w) (MaxSurge w) (MaxUnavailable w) (Zones w) h.
End Info.
End WorkerPool.

Module Pod.
Section Info.
Context `{E : External}.
Record Info : Type := mk {
  CreationTimestamp : Time;
  SnapshotTimestamp : Time;
  Name : string;
  Namespace : string;
  UID : string;
  NodeName : string;
  NominatedNodeName : string;
  Labels : GoMap string;
  Requests : GoMap Quantity;
  Spec : PodSpec;
  PodScheduleStatus : Z;
  Hash : string
}.
Definition with_Hash (h : string) (p : Info) : Info :=
  mk (CreationTimestamp p) (SnapshotTimestamp p) (Name p) (Namespace p) (UID p)
     (NodeName p) (NominatedNodeName p) (Labels p) (Requests p) (Spec p)
     (PodScheduleStatus p) h.
End Info.
End Pod.

(** The label map of a [NodeInfo] is shared with the caller: the field holds
    a reference into a store of maps ([None] is the [nil] map). *)
Module Node.
Section Info.
Context `{E : External}.
Record Info : Type := mk {
  CreationTimestamp : Time;
  SnapshotTimestamp : Time;
  Name : string;
  Namespace : string;
  ProviderID : string;
  AllocatableVolumes : Z;
  Labels : option nat;
  Taints : GoSlice Taint;
  Allocatable : GoMap Quantity;
  Capacity : GoMap Quantity;
  Hash : string
}.
Definition with_Hash (h : string) (n : Info) : Info :=
  mk (CreationTimestamp n) (SnapshotTimestamp n) (Name n) (Namespace n) (ProviderID n)
     (AllocatableVolumes n) (Labels n) (Taints n) (Allocatable n) (Capacity n) h.
End Info.
End Node.

Module CASettings.
Record Info : Type := mk {
  Expander : string;
  MaxNodesTotal : Z;
  Priorities : string;
  Hash : string
}.
End CASettings.

Abbreviation MachineDeploymentInfo := MachineDeployment.Info.
Abbreviation WorkerPoolInfo := WorkerPool.Info.
Abbreviation PodInfo := Pod.Info.
Abbreviation NodeInfo := Node.Info.
Abbreviation CASettingsInfo := CASettings.Info.

(** The maps that references point to. *)
Definition deref (heap : gmap nat (gmap string string)) (ref : option nat) : GoMap string :=
  match ref with
  | None => None
  | Some l => heap !! l
  end.

(** The built-in [delete(m, key)]; nothing happens on the [nil] map. *)
Definition delete_key (ref : option nat) (key : string)
    (heap : gmap nat (gmap string string)) : gmap nat (gmap string string) :=
  match ref with
  | None => heap
  | Some l => alter (delete key) l heap
  end.

(** The zero value of a type. *)
Class Zero (A : Type) : Type := zero : A.

(** The constraint [row[I]] of the generic queries: a row type [T] with the
    method [AsInfo() (I, error)]. *)
Class row (I T : Type) : Type := AsInfo : T -> I * option error.

(** How package [scan] fills a struct [T] from the columns of a row. *)
Class Scan (T : Type) : Type := scan_struct : Row -> T + error.

(** What package [gcr] and the rest of package [db] provide. *)
Class Gcr `{E : External} : Type := {
  MachineDeploymentInfo_GetHash : MachineDeploymentInfo -> string;
  WorkerPoolInfo_GetHash : WorkerPoolInfo -> string;
  PodInfo_GetHash : PodInfo -> string;
  (** the hash of a node reads its label map, given here as it is when
      [GetHash] is called *)
  NodeInfo_GetHash : NodeInfo -> GoMap string -> string;
  mcdRow : Type;
  mcdRow_row :: row MachineDeploymentInfo mcdRow;
  mcdRow_Scan :: Scan mcdRow;
  MachineDeploymentInfo_Zero :: Zero MachineDeploymentInfo
}.

#[global] Instance CASettingsInfo_Scan : Scan CASettingsInfo :=
  fun r =>
    match cell r "Expander", cell r "MaxNodesTotal", cell r "Priorities", cell r "Hash" with
    | VText e, VInt n, VText p, VText h =>
        inl {| CASettings.Expander := e; CASettings.MaxNodesTotal := n;
               CASettings.Priorities := p; CASettings.Hash := h |}
    | _, _, _, _ => inr (errors_New "scan: column does not fit its field")
    end.

(** ** The facade *)

Record DataAccess : Type := mkDataAccess {
  dataDBPath : string;
  dataDB : option nat
}.

Definition NewDataAccess (dataDBPath : string) : DataAccess :=
  {| dataDBPath := dataDBPath; dataDB := None |}.

(** [sql.DB.Close] on the handle [h]; [open] is the set of handles whose
    connections are held.  The pool is marked closed before its connections
    are closed, and closing a closed pool does nothing. *)
Definition sql_DB_Close (h : nat) (env : Env) (open : gset nat) : gset nat * option error :=
  if decide (h ∈ open) then (open ∖ {[h]}, closeErr env) else (open, None).

Definition Close (da : DataAccess) (env : Env) (open : gset nat)
  : DataAccess * gset nat * option error :=
  match dataDB da with
  | None => (da, open, None)
  | Some h =>
      match sql_DB_Close h env open with
      | (open', Some err) => (da, open', Some err)
      | (open', None) => ({| dataDBPath := dataDBPath da; dataDB := None |}, open', None)
      end
  end.

(** The count functions take what [QueryRow(...).Scan(&count)] does on the
    bound arguments; [QueryRow_Scan d.selectPodCountWithUIDAndHash env db] is
    the prepared statement on a database. *)
Definition CountPodInfoWithSpecHash (selectPodCountWithUIDAndHash_QueryRow_Scan :
      list value -> NullInt32 * option error) (uid hash : string) : Z * option error :=
  let '(count, err) := selectPodCountWithUIDAndHash_QueryRow_Scan [VText uid; VText hash] in
  if Valid count then (Int32 count, None)
  else match err with
       | Some e => if errors_Is e sql_ErrNoRows then (-1, None) else (-1, err)
       | None => (-1, err)
       end.

Definition CountNodeInfoWithHash (selectNodeCountWithNameAndHash_QueryRow_Scan :
      list value -> NullInt32 * option error) (name hash : string) : Z * option error :=
  let '(count, err) := selectNodeCountWithNameAndHash_QueryRow_Scan [VText name; VText hash] in
  if Valid count then (Int32 count, None)
  else match err with
       | Some e => if errors_Is e sql_ErrNoRows then (-1, None) else (-1, err)
       | None => (-1, err)
       end.

Definition UpdatePodDeletionTimestamp (podUID : string) (deletionTimestamp : Time)
    (env : Env) (db : gmap string (list Row))
  : gmap string (list Row) * (Z * option error) :=
  match Stmt_Exec d.updatePodDeletionTimeStamp
          [VInt (Time_UnixMilli (Time_UTC deletionTimestamp)); VText podUID] env db with
  | (db', inr err) => (db', (-1, Some err))
  | (db', inl result) =>
      match RowsAffected result with
      | (_, Some err) => (db', (-1, Some err))
      | (updated, None) => (db', (updated, None))
      end
  end.

Definition UpdateNodeInfoDeletionTimestamp (name : string) (deletionTimestamp : Time)
    (env : Env) (db : gmap string (list Row))
  : gmap string (list Row) * (Z * option error) :=
  match Stmt_Exec d.updateNodeInfoDeletionTimeStamp
          [VTime deletionTimestamp; VText name] env db with
  | (db', inr err) => (db', (-1, Some err))
  | (db', inl result) =>
      match RowsAffected result with
      | (_, Some err) => (db', (-1, Some err))
      | (updated, None) => (db', (updated, None))
      end
  end.

Definition UpdateMCDInfoDeletionTimestamp (name : string) (deletionTimestamp : Time)
    (env : Env) (db : gmap string (list Row))
  : gmap string (list Row) * (Z * option error) :=
  match Stmt_Exec d.updateMCDInfoDeletionTimeStamp
          [VTime deletionTimestamp; VText name] env db with
  | (db', inr err) => (db', (-1, Some err))
  | (db', inl result) =>
      match RowsAffected result with
      | (_, Some err) => (db', (-1, Some err))
      | (updated, None) => (db', (updated, None))
      end
  end.

Definition adjustParam (p : value) : value :=
  match p with
  | VTime t => VInt (Time_UnixMilli (Time_UTC t))
  | _ => p
  end.

(** [scan.Rows] fills a slice with one struct per row; [scan.Row] scans the
    rows the same way, keeps the first struct and reports [sql.ErrNoRows]
    when there is none. *)
Fixpoint scan_Rows {T} {scanT : Scan T} (rows : list Row) : list T + error :=
  match rows with
  | [] => inl []
  | r :: rest =>
      match scan_struct r with
      | inr err => inr err
      | inl x => match scan_Rows rest with
                 | inr err => inr err
                 | inl xs => inl (x :: xs)
                 end
      end
  end.

Definition scan_Row {T} {scanT : Scan T} (rows : list Row) : T + error :=
  match scan_Rows rows with
  | inr err => inr err
  | inl [] => inr sql_ErrNoRows
  | inl (x :: _) => inl x
  end.

Definition append {A} (s : GoSlice A) (x : A) : GoSlice A :=
  Some (default [] s ++ [x])%list.

(** The loop of [queryAndMapToInfos] over the scanned rows. *)
Fixpoint mapToInfos {I T} {rowT : row I T} (rowObjs : list T) (infoObjs : GoSlice I)
  : GoSlice I * option error :=
  match rowObjs with
  | [] => (infoObjs, None)
  | r :: rest =>
      match AsInfo r with
      | (_, Some err) => (None, Some err)
      | (infoObj, None) => mapToInfos rest (append infoObjs infoObj)
      end
  end.

Definition queryAndMapToInfos {I T} {rowT : row I T} {scanT : Scan T} (stmt : SQL.Stmt)
    (params : list value) (env : Env) (db : gmap string (list Row))
  : GoSlice I * option error :=
  let adjustedParams := map adjustParam params in
  match Stmt_Query stmt adjustedParams env db with
  | inr err => (None, Some err)
  | inl rows =>
      match scan_Rows (T := T) rows with
      | inr err => (None, Some err)
      | inl rowObjs =>
          if (length rowObjs =? 0)%nat then (None, Some sql_ErrNoRows)
          else mapToInfos rowObjs None
      end
  end.

Definition queryAndMapToInfo {I T} {rowT : row I T} {scanT : Scan T} {zeroI : Zero I}
    (stmt : SQL.Stmt)
    (param : list value) (env : Env) (db : gmap string (list Row))
  : I * option error :=
  match Stmt_Query stmt param env db with
  | inr err => (zero, Some err)
  | inl rows =>
      match scan_Row (T := T) rows with
      | inr err => (zero, Some (fmt_Errorf "could not find rows for statement: %w" err))
      | inl rowObj =>
          match AsInfo rowObj with
          | (infoObj, Some err) => (infoObj, Some err)
          | (infoObj, None) => (infoObj, None)
          end
      end
  end.

(** [GetLatestCADeployment] and [GetCADeploymentWithHash]: the result is a
    pointer, [None] being [nil]. *)
Definition GetLatestCADeployment (env : Env) (db : gmap string (list Row))
  : option CASettingsInfo * option error :=
  match Stmt_Query d.selectLatestCADeployment [] env db with
  | inr err => (None, Some err)
  | inl rows =>
      match scan_Rows (T := CASettingsInfo) rows with
      | inr err => (None, Some err)
      | inl caDeployments =>
          match caDeployments with
          | [] => (None, None)
          | caDeployment :: _ => (Some caDeployment, None)
          end
      end
  end.

Definition GetCADeploymentWithHash (Hash : string) (env : Env)
    (db : gmap string (list Row)) : option CASettingsInfo * option error :=
  match Stmt_Query d.selectLatestCADeployment [VText Hash] env db with
  | inr err => (None, Some err)
  | inl rows =>
      match scan_Rows (T := CASettingsInfo) rows with
      | inr err => (None, Some err)
      | inl caDeployments =>
          match caDeployments with
          | [] => (None, None)
          | caDeployment :: _ => (Some caDeployment, None)
          end
      end
  end.

Definition StoreCADeployment (caSettings : CASettingsInfo) (env : Env)
    (db : gmap string (list Row)) : gmap string (list Row) * (Z * option error) :=
  match Stmt_Exec d.insertCADeployment
          [VText (CASettings.Expander caSettings); VInt (CASettings.MaxNodesTotal caSettings);
           VText (CASettings.Priorities caSettings); VText (CASettings.Hash caSettings)]
          env db with
  | (db', inr err) => (db', (-1, Some err))
  | (db', inl result) => (db', LastInsertId result)
  end.

Section Store.
Context `{G : Gcr}.

Definition StoreMachineDeploymentInfo (m : MachineDeploymentInfo) (env : Env)
    (db : gmap string (list Row)) : gmap string (list Row) * (Z * option error) :=
  let m := if decide (MachineDeployment.Hash m = "")
           then MachineDeployment.with_Hash (MachineDeploymentInfo_GetHash m) m else m in
  match Stmt_Exec d.insertMCDInfo
          [VInt (Time_UnixMilli (Time_UTC (MachineDeployment.CreationTimestamp m)));
           VInt (Time_UnixMilli (Time_UTC (MachineDeployment.SnapshotTimestamp m)));
           VText (MachineDeployment.Name m);
           VText (MachineDeployment.Namespace m);
           VInt (MachineDeployment.Replicas m);
           VText (MachineDeployment.PoolName m);
           VText (MachineDeployment.Zone m);
           VText (IntOrString_String (MachineDeployment.MaxSurge m));
           VText (IntOrString_String (MachineDeployment.MaxUnavailable m));
           VText (MachineDeployment.MachineClassName m);
           VText (MachineDeployment.Hash m)] env db with
  | (db', inr err) => (db', (0, Some err))
  | (db', inl result) =>
      match LastInsertId result with
      | (rowID, Some err) => (db', (rowID, Some err))
      | (rowID, None) => (db', (rowID, None))
      end
  end.

Definition StoreWorkerPoolInfo (w : WorkerPoolInfo) (env : Env)
    (db : gmap string (list Row)) : gmap string (list Row) * (Z * option error) :=
  let w := if decide (WorkerPool.Hash w = "")
           then WorkerPool.with_Hash (WorkerPoolInfo_GetHash w) w else w in
  match Stmt_Exec d.insertWorkerPoolInfo
          [VInt (Time_UnixMilli (Time_UTC (WorkerPool.CreationTimestamp w)));
           VInt (Time_UnixMilli (Time_UTC (WorkerPool.SnapshotTimestamp w)));
           VText (WorkerPool.Name w);
           VText (WorkerPool.Namespace w);
           VText (WorkerPool.MachineType w);
           VText (WorkerPool.Architecture w);
           VInt (WorkerPool.Minimum w);
           VInt (WorkerPool.Maximum w);
           VText (IntOrString_String (WorkerPool.MaxSurge w));
           VText (IntOrString_String (WorkerPool.MaxUnavailable w));
           VText (String.concat " " (WorkerPool.Zones w));
           VText (WorkerPool.Hash w)] env db with
  | (db', inr err) => (db', (0, Some err))
  | (db', inl result) =>
      match LastInsertId result with
      | (rowID, Some err) => (db', (rowID, Some err))
      | (rowID, None) => (db', (rowID, None))
      end
  end.

Definition StorePodInfo (podInfo : PodInfo) (env : Env)
    (db : gmap string (list Row)) : gmap string (list Row) * (Z * option error) :=
  let podInfo := if decide (Pod.Hash podInfo = "")
                 then Pod.with_Hash (PodInfo_GetHash podInfo) podInfo else podInfo in
  match labelsToText (Pod.Labels podInfo) with
  | (_, Some err) => (db, (-1, Some err))
  | (labels, None) =>
  match resourcesToText (Pod.Requests podInfo) with
  | (_, Some err) => (db, (-1, Some err))
  | (requests, None) =>
  match specToJson (Pod.Spec podInfo) with
  | (_, Some err) => (db, (-1, Some err))
  | (podSpec, None) =>
  match Stmt_Exec d.insertPodInfo
          [VInt (Time_UnixMilli (Time_UTC (Pod.CreationTimestamp podInfo)));
           VInt (Time_UnixMilli (Time_UTC (Pod.SnapshotTimestamp podInfo)));
           VText (Pod.Name podInfo);
           VText (Pod.Namespace podInfo);
           VText (Pod.UID podInfo);
           VText (Pod.NodeName podInfo);
           VText (Pod.NominatedNodeName podInfo);
           VText labels;
           VText requests;
           VText podSpec;
           VInt (Pod.PodScheduleStatus podInfo);
           VText (Pod.Hash podInfo)] env db with
  | (db', inr err) => (db', (-1, Some (fmt_Errorf "could not persist podinfo %s: %w" err)))
  | (db', inl result) => (db', LastInsertId result)
  end end end end.

Definition last_applied : string :=
  "node.machine.sapcloud.io/last-applied-anno-labels-taints".

(** [heap] holds the label maps; the caller's map is the one [Node.Labels n]
    refers to, before and after the call. *)
Definition StoreNodeInfo (n : NodeInfo) (env : Env)
    (heap : gmap nat (gmap string string)) (db : gmap string (list Row))
  : gmap nat (gmap string string) * gmap string (list Row) * (Z * option error) :=
  let n := if decide (Node.Hash n = "")
           then Node.with_Hash (NodeInfo_GetHash n (deref heap (Node.Labels n))) n else n in
  let heap := delete_key (Node.Labels n) last_applied heap in
  match labelsToText (deref heap (Node.Labels n)) with
  | (_, Some err) => (heap, db, (0, Some err))
  | (labelsText, None) =>
  match taintsToText (Node.Taints n) with
  | (_, Some err) => (heap, db, (0, Some err))
  | (taintsText, None) =>
  match resourcesToText (Node.Allocatable n) with
  | (_, Some err) => (heap, db, (0, Some err))
  | (allocatableText, None) =>
  match resourcesToText (Node.Capacity n) with
  | (_, Some err) => (heap, db, (0, Some err))
  | (capacityText, None) =>
  match Stmt_Exec d.insertNodeInfo
          [VInt (Time_UnixMilli (Time_UTC (Node.CreationTimestamp n)));
           VInt (Time_UnixMilli (Time_UTC (Node.SnapshotTimestamp n)));
           VText (Node.Name n);
           VText (Node.Namespace n);
           VText (Node.ProviderID n);
           VInt (Node.AllocatableVolumes n);
           VText labelsText;
           VText taintsText;
           VText allocatableText;
           VText capacityText;
           VText (Node.Hash n)] env db with
  | (db', inr err) => (heap, db', (0, Some err))
  | (db', inl _) => (heap, db', (0, None))
  end end end end end.

Definition LoadLatestMachineDeploymentInfo (name : string) (env : Env)
    (db : gmap string (list Row)) : MachineDeploymentInfo * option error :=
  queryAndMapToInfo (I := MachineDeploymentInfo) (T := mcdRow)
    d.selectLatestMCDInfo [VText name] env db.

End Store.

(** ** A sample environment

    One instance of the imported interfaces, to run the facade on concrete
    values: the Kubernetes types are strings; maps of strings are written
    and read as JSON does, arrays for strings that need no escaping. *)
Module Sample.

Definition dquote : string := String "034"%char "".

Definition quote (s : string) : string := dquote +:+ s +:+ dquote.

(** Maps of strings are written and read as the JSON library does. *)
Definition write_object (m : GoMap string) : string := json_Marshal_object m.

Definition write_array (l : GoSlice string) : string :=
  match l with
  | None => "null"
  | Some xs => "[" +:+ String.concat "," (map quote xs) +:+ "]"
  end.

(** The text up to the closing quote, and what follows it. *)
Fixpoint read_string (s : string) : option (string * string) :=
  match s with
  | EmptyString => None
  | String c rest =>
      if decide (c = "034"%char) then Some ("", rest)
      else match read_string rest with
           | Some (x, rest') => Some (String c x, rest')
           | None => None
           end
  end.

Definition read_quoted (s : string) : option (string * string) :=
  match s with
  | String c rest => if decide (c = "034"%char) then read_string rest else None
  | EmptyString => None
  end.

Fixpoint read_elements (fuel : nat) (s : string) : option (list string) :=
  match fuel with
  | O => None
  | S fuel =>
      match read_quoted s with
      | Some (x, "]") => Some [x]
      | Some (x, String "," rest) =>
          match read_elements fuel rest with
          | Some xs => Some (x :: xs)
          | None => None
          end
      | _ => None
      end
  end.

Definition read_object (s : string) : GoMap string * option error :=
  json_Unmarshal_object s.

Definition read_array (s : string) : GoSlice string * option error :=
  match s with
  | "null" => (None, None)
  | "[]" => (Some [], None)
  | String "[" rest =>
      match read_elements (String.length s) rest with
      | Some xs => (Some xs, None)
      | None => (None, Some (errors_New "invalid character"))
      end
  | _ => (None, Some (errors_New "invalid character"))
  end.

Definition external : External :=
  {| Quantity := string; Taint := string; Toleration := string;
     TopologySpreadConstraint := string; PodSpec := string; IntOrString := string;
     IntOrString_String := fun s => s;
     Marshal_labels := fun m => inl (write_object m);
     Unmarshal_labels := read_object;
     Marshal_resources := fun m => inl (write_object m);
     Unmarshal_resources := read_object;
     Marshal_taints := fun l => inl (write_array l);
     Unmarshal_taints := read_array;
     Marshal_tolerations := fun l => inl (write_array l);
     Unmarshal_tolerations := read_array;
     Marshal_tsc := fun l => inl (write_array l);
     Unmarshal_tsc := read_array;
     Marshal_podSpec := fun s => if decide (s = "")
                                 then inr (errors_New "json: error calling MarshalJSON")
                                 else inl (quote s) |}.

Definition text_of (v : value) : string :=
  match v with VText s => s | _ => "" end.

Definition int_of (v : value) : Z :=
  match v with VInt z => z | _ => 0 end.

Definition time_of (v : value) : Time :=
  match v with
  | VInt ms => {| sec := ms / 1000; nsec := (ms mod 1000) * 1000000; loc := time_UTC |}
  | _ => {| sec := 0; nsec := 0; loc := time_UTC |}
  end.

(** A row of [mcd_info] as a struct is the row itself; [AsInfo] reads the
    cells. *)
Definition mcd_AsInfo (r : Row) : @MachineDeploymentInfo external * option error :=
  (@MachineDeployment.mk external
     (time_of (cell r "CreationTimestamp")) (time_of (cell r "SnapshotTimestamp"))
     (text_of (cell r "Name")) (text_of (cell r "Namespace")) (int_of (cell r "Replicas"))
     (text_of (cell r "PoolName")) (text_of (cell r "Zone")) (text_of (cell r "MaxSurge"))
     (text_of (cell r "MaxUnavailable")) (text_of (cell r "MachineClassName"))
     (text_of (cell r "Hash")), None).

Definition epoch : Time := {| sec := 0; nsec := 0; loc := time_UTC |}.

Definition gcr : @Gcr external :=
  {| MachineDeploymentInfo_GetHash :=
       fun m => "mcd:" +:+ @MachineDeployment.Name external m;
     WorkerPoolInfo_GetHash := fun w => "pool:" +:+ @WorkerPool.Name external w;
     PodInfo_GetHash := fun p => "pod:" +:+ @Pod.Name external p;
     NodeInfo_GetHash :=
       fun n labels => "node:" +:+ @Node.Name external n +:+ write_object labels;
     mcdRow := Row;
     mcdRow_row := mcd_AsInfo;
     mcdRow_Scan := fun r => inl r;
     MachineDeploymentInfo_Zero :=
       @MachineDeployment.mk external epoch epoch "" "" 0 "" "" "" "" "" "" |}.

Definition T0 : Time := {| sec := 1700000000; nsec := 123456789; loc := time_FixedZone 3600 |}.

Definition n1 : @NodeInfo external :=
  @Node.mk external T0 T0 "n1" "default" "aws:///i-1" 3 (Some 7%nat) None None None "".

Definition heap1 : gmap nat (gmap string string) :=
  {[ 7%nat := {[ "a" := "b";
                 "node.machine.sapcloud.io/last-applied-anno-labels-taints" := "x" ]} ]}.

Definition pod1 : @PodInfo external :=
  @Pod.mk external T0 T0 "p1" "default" "uid-1" "n1" "" (Some {[ "app" := "web" ]})
    None "spec" 1 "".

Definition mcd1 : @MachineDeploymentInfo external :=
  @MachineDeployment.mk external T0 T0 "mcd-a" "shoot" 2 "pool-a" "eu-1a" "1" "0"
    "class-a" "".

Definition pool1 : @WorkerPoolInfo external :=
  @WorkerPool.mk external T0 T0 "pool-a" "shoot" "m5.large" "amd64" 1 3 "1" "0"
    ["eu-1a"; "eu-1b"] "h-set".

Definition ca1 : CASettingsInfo :=
  {| CASettings.Expander := "least-waste"; CASettings.MaxNodesTotal := 10;
     CASettings.Priorities := ""; CASettings.Hash := "h1" |}.

End Sample.

(** ** The rest of the facade *)

(** [sql.NullString] *)
Module NullString.
Record t : Type := mk { String : string; Valid : bool }.
End NullString.

(** [getHash] takes what [selectHashStmt.QueryRow(name).Scan(&hash)] does on
    the bound arguments. *)
Definition getHash (selectHashStmt_QueryRow_Scan : list value -> NullString.t * option error)
    (name : string) : string * option error :=
  let '(hash, err) := selectHashStmt_QueryRow_Scan [VText name] in
  if NullString.Valid hash then (NullString.String hash, None)
  else match err with
       | Some e => if errors_Is e sql_ErrNoRows then ("", None) else ("", Some e)
       | None => ("", None)
       end.

Definition GetMachineDeploymentInfoHash
    (selectMCDInfoHash_QueryRow_Scan : list value -> NullString.t * option error)
    (name : string) : string * option error :=
  getHash selectMCDInfoHash_QueryRow_Scan name.

(** What [prepareStatements], [createSchema] and [Init] meet: whether
    [sql.Open] fails, whether creating a table fails (by the name of the
    table), whether preparing a statement fails (by the name of the field of
    the facade it is for). *)
Record InitEnv : Type := mkInitEnv {
  openErr : option error;
  schemaErr : string -> option error;
  prepareErr : string -> option error
}.

(** [d.field, err = db.Prepare(...)] followed by the check of [err]: the set
    is the fields of the facade that hold a statement; a failed [Prepare]
    leaves [nil] in the field. *)
Definition prepare (env : InitEnv) (field : string) (wrap : error -> error)
    (k : gset string -> gset string * option error) (fields : gset string)
  : gset string * option error :=
  match prepareErr env field with
  | Some err => (fields ∖ {[field]}, Some (wrap err))
  | None => k ({[field]} ∪ fields)
  end.

(** [pdbInsertStmt, err := db.Prepare(...)], the check, and then
    [d.insertPDB = pdbInsertStmt]: the field is only assigned on success. *)
Definition prepare_local (env : InitEnv) (field : string) (wrap : error -> error)
    (k : gset string -> gset string * option error) (fields : gset string)
  : gset string * option error :=
  match prepareErr env field with
  | Some err => (fields, Some (wrap err))
  | None => k ({[field]} ∪ fields)
  end.

(** [d.selectEventWithUID, err = db.Prepare(...)] with no check of [err]. *)
Definition prepare_unchecked (env : InitEnv) (field : string)
    (k : gset string -> gset string * option error) (fields : gset string)
  : gset string * option error :=
  match prepareErr env field with
  | Some err => k (fields ∖ {[field]})
  | None => k ({[field]} ∪ fields)
  end.

Definition prepareStatements (env : InitEnv) (fields : gset string)
  : gset string * option error :=
  (prepare env "insertWorkerPoolInfo"
     (fmt_Errorf "cannot prepare insertWorkerPoolInfo statement: %w") $
   prepare env "selectWorkerPoolInfosBefore"
     (fmt_Errorf "cannot prepare selectWorkerPoolInfosBefore statement: %w") $
   prepare env "insertNodeInfo"
     (fmt_Errorf "cannot prepare insertNodeInfo statement: %w") $
   prepare env "updateNodeInfoDeletionTimeStamp"
     (fmt_Errorf "cannot prepare updateNodeInfoDeletionTimeStamp: %w") $
   prepare env "selectNodeInfosBefore"
     (fmt_Errorf "cannot prepare selectNodeInfosBefore statement: %w") $
   prepare_local env "insertPDB"
     (fmt_Errorf "cannot prepare pdb insert statement : %w") $
   prepare env "updatePdbDeletionTimeStamp"
     (fmt_Errorf "cannot prepare updatePdbDeletionTimeStamp: %w") $
   prepare env "updateMCDInfoDeletionTimeStamp"
     (fmt_Errorf "cannot prepare updateMCDInfoDeletionTimeStamp: %w") $
   prepare env "selectMCDInfoBefore"
     (fmt_Errorf "cannot prepare selectNodeGroupsBefore statement: %w") $
   prepare env "selectAllActiveNodeGroupsDesc"
     (fmt_Errorf "cannot prepare get active node groups  statement: %w") $
   prepare env "selectMCDInfoHash"
     (fmt_Errorf "cannot prepare selectMCDInfoHash: %w") $
   prepare env "selectLatestMCDInfo"
     (fmt_Errorf "cannot prepare selectLatestMCDInfo: %w") $
   prepare env "selectLatestPodInfoWithName"
     (fmt_Errorf "cannot prepare selectLatestPodInfoWithName: %w") $
   prepare env "insertEvent"
     (fmt_Errorf "cannot prepare events insert statement: %w") $
   prepare env "insertPodInfo"
     (fmt_Errorf "cannot prepare pod insert statement: %w") $
   prepare env "selectPodCountWithUIDAndHash"
     (fmt_Errorf "cannot prepare selectPodCountWithUIDAndHash: %w") $
   prepare env "updatePodDeletionTimeStamp"
     (fmt_Errorf "cannot prepare updatePodDeletionTimeStamp: %w") $
   prepare env "insertMCDInfo"
     (fmt_Errorf "cannot prepare insertMCDInfo: %w") $
   prepare_unchecked env "selectEventWithUID" $
   prepare env "selectAllEvents"
     (fmt_Errorf "cannot prepare selectAllEvents statement: %w") $
   prepare env "selectUnscheduledPodsBeforeTimestamp"
     (fmt_Errorf "cannot prepare selectUnscheduledPodsBeforeTimestamp statement: %w") $
   prepare env "selectScheduledPodsBeforeSnapshotTimestamp"
     (fmt_Errorf "cannot prepare selectScheduledPodsBeforeSnapshotTimestamp statement: %w") $
   prepare env "selectLatestPodInfosBeforeSnapshotTimestamp"
     (fmt_Errorf "cannot prepare selectLatestPodInfosBeforeSnapshotTimestamp statement: %w") $
   prepare env "selectNodeCountWithNameAndHash"
     (fmt_Errorf "cannot prepare selectNodeCountWithNameAndHash: %w") $
   prepare env "selectCADeploymentByHash"
     (fmt_Errorf "cannot prepare selectCADeploymentByHash: %w") $
   prepare env "selectLatestCADeployment"
     (fun _ => errors_New "cannot prepare selectLatestCADeployment") $
   prepare env "insertCADeployment"
     (fun _ => errors_New "cannot prepare insertCADeployment statement") $
   prepare env "selectLatestNodesBeforeAndNotDeleted"
     (fun _ => errors_New "cannot prepare ") $
   fun fields => (fields, None)) fields.

(** Modelled from the spec: the texts [CreateWorkerPoolInfo],
    [CreateMCDInfoTable], ... are constants of package [db] declared outside
    [data_access.go]; the schema is created if absent (spec section 4.5), as
    by the one statement [createSchema] writes out, [CREATE TABLE IF NOT
    EXISTS pdb_info]: a table that is there is left as it is. *)
Definition create_table (t : string) (db : gmap string (list Row))
  : gmap string (list Row) :=
  match db !! t with
  | Some _ => db
  | None => <[t := []]> db
  end.

(** [result, err = db.Exec(Create...)] followed by the check of [err]. *)
Definition create (env : InitEnv) (t : string) (wrap : error -> error)
    (k : gmap string (list Row) -> gmap string (list Row) * option error)
    (db : gmap string (list Row)) : gmap string (list Row) * option error :=
  match schemaErr env t with
  | Some err => (db, Some (wrap err))
  | None => k (create_table t db)
  end.

Definition createSchema (env : InitEnv) (db : gmap string (list Row))
  : gmap string (list Row) * option error :=
  (create env "worker_pool_info"
     (fmt_Errorf "cannot create worker_pool_info table: %w") $
   create env "mcd_info" (fmt_Errorf "cannot create mcd_info table: %w") $
   create env "event_info" (fmt_Errorf "cannot create event_info table: %w") $
   create env "node_info" (fmt_Errorf "cannot create node_info table : %w") $
   create env "pod_info" (fmt_Errorf "cannot create pod_info table: %w") $
   create env "pdb_info" (fmt_Errorf "cannot create pdb_info table: %w") $
   create env "ca_settings_info"
     (fmt_Errorf "cannot create ca_settings_info table: %w") $
   fun db => (db, None)) db.

(** The state [Init] works on: the handles whose connections are held, the
    database behind the path, and the fields of the facade that hold a
    prepared statement. *)
Record World : Type := mkWorld {
  handles : gset nat;
  tables : gmap string (list Row);
  statements : gset string
}.

(** [sql.Open] gives a handle that is not one of those held. *)
Definition sql_Open (open : gset nat) : nat := fresh open.

Definition Init (da : DataAccess) (env : InitEnv) (w : World)
  : DataAccess * World * option error :=
  match openErr env with
  | Some err => (da, w, Some (fmt_Errorf "cannot open db: %w" err))
  | None =>
      let db := sql_Open (handles w) in
      let da := {| dataDBPath := dataDBPath da; dataDB := Some db |} in
      let open := {[db]} ∪ handles w in
      match createSchema env (tables w) with
      | (tables', Some err) =>
          (da, {| handles := open; tables := tables'; statements := statements w |},
           Some (fmt_Errorf "error creating db schema: %w" err))
      | (tables', None) =>
          match prepareStatements env (statements w) with
          | (statements', Some err) =>
              (da, {| handles := open; tables := tables'; statements := statements' |},
               Some (fmt_Errorf "error preparing statements: %w" err))
          | (statements', None) =>
              (da, {| handles := open; tables := tables'; statements := statements' |}, None)
          end
      end
  end.

(** The fields whose [Prepare] is followed by a check of the error, in the
    order of [prepareStatements]. *)
Definition checked_fields : list string :=
  ["insertWorkerPoolInfo"; "selectWorkerPoolInfosBefore"; "insertNodeInfo";
   "updateNodeInfoDeletionTimeStamp"; "selectNodeInfosBefore"; "insertPDB";
   "updatePdbDeletionTimeStamp"; "updateMCDInfoDeletionTimeStamp"; "selectMCDInfoBefore";
   "selectAllActiveNodeGroupsDesc"; "selectMCDInfoHash"; "selectLatestMCDInfo";
   "selectLatestPodInfoWithName"; "insertEvent"; "insertPodInfo";
   "selectPodCountWithUIDAndHash"; "updatePodDeletionTimeStamp"; "insertMCDInfo";
   "selectAllEvents"; "selectUnscheduledPodsBeforeTimestamp";
   "selectScheduledPodsBeforeSnapshotTimestamp";
   "selectLatestPodInfosBeforeSnapshotTimestamp"; "selectNodeCountWithNameAndHash";
   "selectCADeploymentByHash"; "selectLatestCADeployment"; "insertCADeployment";
   "selectLatestNodesBeforeAndNotDeleted"].

(** All the fields of [prepareStatements], in its order. *)
Definition statement_fields : list string :=
  ["insertWorkerPoolInfo"; "selectWorkerPoolInfosBefore"; "insertNodeInfo";
   "updateNodeInfoDeletionTimeStamp"; "selectNodeInfosBefore"; "insertPDB";
   "updatePdbDeletionTimeStamp"; "updateMCDInfoDeletionTimeStamp"; "selectMCDInfoBefore";
   "selectAllActiveNodeGroupsDesc"; "selectMCDInfoHash"; "selectLatestMCDInfo";
   "selectLatestPodInfoWithName"; "insertEvent"; "insertPodInfo";
   "selectPodCountWithUIDAndHash"; "updatePodDeletionTimeStamp"; "insertMCDInfo";
   "selectEventWithUID";
   "selectAllEvents"; "selectUnscheduledPodsBeforeTimestamp";
   "selectScheduledPodsBeforeSnapshotTimestamp";
   "selectLatestPodInfosBeforeSnapshotTimestamp"; "selectNodeCountWithNameAndHash";
   "selectCADeploymentByHash"; "selectLatestCADeployment"; "insertCADeployment";
   "selectLatestNodesBeforeAndNotDeleted"].

(** The three of them whose error message is built without the cause. *)
Definition unwrapped_fields : list string :=
  ["selectLatestCADeployment"; "insertCADeployment";
   "selectLatestNodesBeforeAndNotDeleted"].

(** The tables of [createSchema], in its order. *)
Definition schema_tables : list string :=
  ["worker_pool_info"; "mcd_info"; "event_info"; "node_info"; "pod_info"; "pdb_info";
   "ca_settings_info"].

(** ** The list readers, the pod spec decoder, the events *)

(** The other row types of package [db], with the decoding of a pod spec and
    the zero [PodInfo]. *)
Class GcrRows `{E : External} : Type := {
  workerPoolRow : Type;
  workerPoolRow_row :: row WorkerPoolInfo workerPoolRow;
  workerPoolRow_Scan :: Scan workerPoolRow;
  nodeRow : Type;
  nodeRow_row :: row NodeInfo nodeRow;
  nodeRow_Scan :: Scan nodeRow;
  podRow : Type;
  podRow_row :: row PodInfo podRow;
  podRow_Scan :: Scan podRow;
  PodInfo_Zero :: Zero PodInfo;
  (** [json.Unmarshal] into a [corev1.PodSpec] that starts as the zero value *)
  Unmarshal_podSpec : string -> PodSpec * option error;
  PodSpec_Zero :: Zero PodSpec
}.

Section Readers.
Context `{G : Gcr} `{R : !GcrRows}.

Definition speccFromJson (jsonVal : string) : PodSpec * option error :=
  if decide (strings_TrimSpace jsonVal = "") then (zero, None)
  else match Unmarshal_podSpec jsonVal with
       | (podSpec, Some err) =>
           (podSpec, Some (fmt_Errorf "cannot de-serialize podSpec %q due to: %w" err))
       | (podSpec, None) => (podSpec, None)
       end.

(** The list readers take the prepared statement they run, a field of the
    facade whose text is outside [data_access.go]. *)
Definition LoadWorkerPoolInfosBefore (selectWorkerPoolInfosBefore : SQL.Stmt)
    (snapshotTimestamp : Time) (env : Env) (db : gmap string (list Row))
  : GoSlice WorkerPoolInfo * option error :=
  match queryAndMapToInfos (I := WorkerPoolInfo) (T := workerPoolRow)
          selectWorkerPoolInfosBefore [VTime snapshotTimestamp] env db with
  | (_, Some err) =>
      (None, Some (fmt_Errorf "LoadWorkerPoolInfosBefore could not scan rows: %w" err))
  | (workerPoolInfos, None) => (workerPoolInfos, None)
  end.

Definition LoadMachineDeploymentInfosBefore (selectMCDInfoBefore : SQL.Stmt)
    (snapshotTimestamp : Time) (env : Env) (db : gmap string (list Row))
  : GoSlice MachineDeploymentInfo * option error :=
  match queryAndMapToInfos (I := MachineDeploymentInfo) (T := mcdRow)
          selectMCDInfoBefore [VTime snapshotTimestamp] env db with
  | (_, Some err) =>
      (None, Some (fmt_Errorf "LoadMachineDeploymentInfosBefore could not scan rows: %w" err))
  | (mcdInfos, None) => (mcdInfos, None)
  end.

Definition LoadNodeInfosBefore (selectNodeInfosBefore : SQL.Stmt)
    (creationTimestamp : Time) (env : Env) (db : gmap string (list Row))
  : GoSlice NodeInfo * option error :=
  match queryAndMapToInfos (I := NodeInfo) (T := nodeRow)
          selectNodeInfosBefore [VTime creationTimestamp] env db with
  | (_, Some err) =>
      (None, Some (fmt_Errorf "LoadNodeInfosBefore could not scan rows: %w" err))
  | (nodeInfos, None) => (nodeInfos, None)
  end.

Definition GetLatestNodesBeforeAndNotDeleted (selectLatestNodesBeforeAndNotDeleted : SQL.Stmt)
    (timestamp : Time) (env : Env) (db : gmap string (list Row))
  : GoSlice NodeInfo * option error :=
  match queryAndMapToInfos (I := NodeInfo) (T := nodeRow)
          selectLatestNodesBeforeAndNotDeleted [VTime timestamp] env db with
  | (_, Some err) =>
      (None,
       Some (fmt_Errorf "GetLatestNodesBeforeAndNotDeleted could not scan rows: %w" err))
  | (nodeInfos, None) => (nodeInfos, None)
  end.

Definition LoadLatestPodInfoWithName (selectLatestPodInfoWithName : SQL.Stmt)
    (podName : string) (env : Env) (db : gmap string (list Row))
  : PodInfo * option error :=
  queryAndMapToInfo (I := PodInfo) (T := podRow)
    selectLatestPodInfoWithName [VText podName] env db.

Definition GetLatestUnscheduledPodsBeforeTimestamp
    (selectUnscheduledPodsBeforeTimestamp : SQL.Stmt)
    (timeStamp : Time) (env : Env) (db : gmap string (list Row))
  : GoSlice PodInfo * option error :=
  queryAndMapToInfos (I := PodInfo) (T := podRow)
    selectUnscheduledPodsBeforeTimestamp [VTime timeStamp] env db.

Definition GetLatestPodInfosBeforeSnapshotTime
    (selectLatestPodInfosBeforeSnapshotTimestamp : SQL.Stmt)
    (snapshotTime : Time) (env : Env) (db : gmap string (list Row))
  : GoSlice PodInfo * option error :=
  queryAndMapToInfos (I := PodInfo) (T := podRow)
    selectLatestPodInfosBeforeSnapshotTimestamp [VTime snapshotTime] env db.

Definition GetLatestScheduledPodsBeforeTimestamp
    (selectScheduledPodsBeforeSnapshotTimestamp : SQL.Stmt)
    (timestamp : Time) (env : Env) (db : gmap string (list Row))
  : GoSlice PodInfo * option error :=
  queryAndMapToInfos (I := PodInfo) (T := podRow)
    selectScheduledPodsBeforeSnapshotTimestamp [VTime timestamp; VTime timestamp] env db.

End Readers.

(** [gcr.EventInfo], with the fields [StoreEventInfo] binds. *)
Module Event.
Record Info : Type := mk {
  UID : string;
  EventTime : Time;
  ReportingController : string;
  Reason : string;
  Message : string;
  InvolvedObjectKind : string;
  InvolvedObjectName : string;
  InvolvedObjectNamespace : string;
  InvolvedObjectUID : string
}.
End Event.

Abbreviation EventInfo := Event.Info.

(** The zero [time.Time]: January 1 of the year 1, UTC. *)
Definition Time_zero : Time := {| sec := -62135596800; nsec := 0; loc := time_UTC |}.

#[global] Instance EventInfo_Zero : Zero EventInfo :=
  Event.mk "" Time_zero "" "" "" "" "" "" "".

(** The statement of [StoreEventInfo], whose text stands in a comment of that
    function, and the one of [LoadEventInfoWithUID], written out in
    [prepareStatements]. *)
Definition InsertEvent : SQL.Stmt :=
  SQL.Insert "event_info"
    ["UID"; "EventTime"; "ReportingController"; "Reason"; "Message";
     "InvolvedObjectKind"; "InvolvedObjectName"; "InvolvedObjectNamespace";
     "InvolvedObjectUID"].

Definition selectEventWithUID : SQL.Stmt := SQL.SelectBy "event_info" "UID".

Definition StoreEventInfo (event : EventInfo) (env : Env) (db : gmap string (list Row))
  : gmap string (list Row) * option error :=
  match Stmt_Exec InsertEvent
          [VText (Event.UID event);
           VTime (Event.EventTime event);
           VText (Event.ReportingController event);
           VText (Event.Reason event);
           VText (Event.Message event);
           VText (Event.InvolvedObjectKind event);
           VText (Event.InvolvedObjectName event);
           VText (Event.InvolvedObjectNamespace event);
           VText (Event.InvolvedObjectUID event)] env db with
  | (db', inr err) => (db', Some err)
  | (db', inl _) => (db', None)
  end.

Definition LoadEventInfoWithUID {scanT : Scan EventInfo} (eventUID : string) (env : Env)
    (db : gmap string (list Row)) : EventInfo * option error :=
  match Stmt_Query selectEventWithUID [VText eventUID] env db with
  | inr err => (zero, Some err)
  | inl rows =>
      match scan_Row (T := EventInfo) rows with
      | inr err => (zero, Some err)
      | inl eventInfo => (eventInfo, None)
      end
  end.

(** [scan.Rows] into a slice the caller holds: the structs scanned before a
    row fails stay in the slice. *)
Fixpoint scan_Rows_into {T} {scanT : Scan T} (rows : list Row) (v : GoSlice T)
  : GoSlice T * option error :=
  match rows with
  | [] => (v, None)
  | r :: rest =>
      match scan_struct r with
      | inr err => (v, Some err)
      | inl x => scan_Rows_into rest (append v x)
      end
  end.

(** [LoadAllEvents] takes the prepared statement it runs; the order of the
    text in [prepareStatements] ([ORDER BY EventTime]) is the order of the
    answer of the statement given. *)
Definition LoadAllEvents {scanT : Scan EventInfo} (selectAllEvents : SQL.Stmt) (env : Env)
    (db : gmap string (list Row)) : GoSlice EventInfo * option error :=
  match Stmt_Query selectAllEvents [] env db with
  | inr err => (None, Some err)
  | inl rows => scan_Rows_into (T := EventInfo) rows None
  end.

(** Sample row types: a row as a struct is the row itself. *)
Module SampleRows.

Definition pool_AsInfo (r : Row) : @WorkerPoolInfo Sample.external * option error :=
  (@WorkerPool.mk Sample.external
     (Sample.time_of (cell r "CreationTimestamp")) (Sample.time_of (cell r "SnapshotTimestamp"))
     (Sample.text_of (cell r "Name")) (Sample.text_of (cell r "Namespace"))
     (Sample.text_of (cell r "MachineType")) (Sample.text_of (cell r "Architecture"))
     (Sample.int_of (cell r "Minimum")) (Sample.int_of (cell r "Maximum"))
     (Sample.text_of (cell r "MaxSurge")) (Sample.text_of (cell r "MaxUnavailable"))
     [Sample.text_of (cell r "Zones")] (Sample.text_of (cell r "Hash")), None).

Definition node_AsInfo (r : Row) : @NodeInfo Sample.external * option error :=
  (@Node.mk Sample.external
     (Sample.time_of (cell r "CreationTimestamp")) (Sample.time_of (cell r "SnapshotTimestamp"))
     (Sample.text_of (cell r "Name")) (Sample.text_of (cell r "Namespace"))
     (Sample.text_of (cell r "ProviderID")) (Sample.int_of (cell r "AllocatableVolumes"))
     None None None None (Sample.text_of (cell r "Hash")), None).

Definition pod_AsInfo (r : Row) : @PodInfo Sample.external * option error :=
  match @labelsFromText Sample.external (Sample.text_of (cell r "Labels")) with
  | (labels, err) =>
      (@Pod.mk Sample.external
         (Sample.time_of (cell r "CreationTimestamp"))
         (Sample.time_of (cell r "SnapshotTimestamp"))
         (Sample.text_of (cell r "Name")) (Sample.text_of (cell r "Namespace"))
         (Sample.text_of (cell r "UID")) (Sample.text_of (cell r "NodeName"))
         (Sample.text_of (cell r "NominatedNodeName")) labels None
         (Sample.text_of (cell r "Spec")) (Sample.int_of (cell r "ScheduleStatus"))
         (Sample.text_of (cell r "Hash")), err)
  end.

(** The sample pod spec is a string, written between quotes. *)
Definition read_spec (s : string) : string * option error :=
  match Sample.read_quoted s with
  | Some (spec, "") => (spec, None)
  | _ => ("", Some (errors_New "invalid character"))
  end.

Definition rows : @GcrRows Sample.external :=
  {| workerPoolRow := Row; workerPoolRow_row := pool_AsInfo;
     workerPoolRow_Scan := fun r => inl r;
     nodeRow := Row; nodeRow_row := node_AsInfo; nodeRow_Scan := fun r => inl r;
     podRow := Row; podRow_row := pod_AsInfo; podRow_Scan := fun r => inl r;
     PodInfo_Zero := @Pod.mk Sample.external Time_zero Time_zero "" "" "" "" "" None None
                       "" 0 "";
     Unmarshal_podSpec := read_spec;
     PodSpec_Zero := "" |}.

Definition event_Scan : Scan EventInfo :=
  fun r =>
    match cell r "EventTime" with
    | VTime t =>
        inl (Event.mk (Sample.text_of (cell r "UID")) t
               (Sample.text_of (cell r "ReportingController"))
               (Sample.text_of (cell r "Reason")) (Sample.text_of (cell r "Message"))
               (Sample.text_of (cell r "InvolvedObjectKind"))
               (Sample.text_of (cell r "InvolvedObjectName"))
               (Sample.text_of (cell r "InvolvedObjectNamespace"))
               (Sample.text_of (cell r "InvolvedObjectUID")))
    | _ => inr (errors_New "scan: column does not fit its field")
    end.

Definition event1 : EventInfo :=
  Event.mk "ev-1" Sample.T0 "kube-scheduler" "FailedScheduling" "0/3 nodes are available"
    "Pod" "p1" "default" "uid-1".

End SampleRows.

(** ** Notions the statements use *)

(** A JSON text that is an object or an array: it opens with a brace or a
    bracket and closes with the matching one. *)
Definition json_compound (s : string) : bool :=
  match list_ascii_of_string s, rev (list_ascii_of_string s) with
  | o :: _, c :: _ =>
      (bool_decide (o = "{"%char) && bool_decide (c = "}"%char))
      || (bool_decide (o = "["%char) && bool_decide (c = "]"%char))
  | _, _ => false
  end.

(** What the JSON library does at the value [v]: it writes [v] as an object
    or an array, and reads that text back as [v]. *)
Definition json_roundtrips {A} (Marshal : A -> string + error)
    (Unmarshal : string -> A * option error) (v : A) : Prop :=
  exists text, Marshal v = inl text /\ json_compound text = true /\
               Unmarshal text = (v, None).

(** A string of ASCII white space only (the empty string is one). *)
Definition blank (s : string) : bool := forallb asciiSpace (list_ascii_of_string s).

(** [Close] called once for each element of [envs]. *)
Fixpoint Close_all (envs : list Env) (da : DataAccess) (open : gset nat)
  : DataAccess * gset nat * list (option error) :=
  match envs with
  | [] => (da, open, [])
  | env :: rest =>
      let '(da', open', err) := Close da env open in
      let '(da'', open'', errs) := Close_all rest da' open' in
      (da'', open'', err :: errs)
  end.

(** The outcome of a scan is "no rows". *)
Definition no_rows (err : option error) : bool :=
  match err with
  | Some e => errors_Is e sql_ErrNoRows
  | None => false
  end.

(** The returned error is not [nil] and whatever [errors.Is] finds in
    [cause] it finds in the returned error. *)
Definition wraps (err : option error) (cause : error) : Prop :=
  exists e, err = Some e /\
            forall target, errors_Is cause target = true -> errors_Is e target = true.

(** From [db] to [db'] at most one row was appended to the table [T], with
    the next identifier of that table, and nothing else changed: the rows
    there were are still there, as they were, in every table. *)
Definition appends_to (T : string) (db db' : gmap string (list Row)) : Prop :=
  forall t, exists new,
    table db' t = (table db t ++ new)%list /\ (length new <= 1)%nat /\
    (t <> T -> new = []) /\
    Forall (fun r => RowID r = next_RowID (table db T)) new.

(** From [db] to [db'] the rows of the table [T] whose column [key] holds
    [k] got [v] in the column DeletionTimestamp, and nothing else changed: no
    row was added or removed, no other cell and no other table touched. *)
Definition marks_deleted (T key : string) (k v : value)
    (db db' : gmap string (list Row)) : Prop :=
  map RowID (table db' T) = map RowID (table db T) /\
  (forall column, column <> "DeletionTimestamp" ->
     map (fun r => cell r column) (table db' T) = map (fun r => cell r column) (table db T)) /\
  map (fun r => cell r "DeletionTimestamp") (table db' T)
  = map (fun r => if bool_decide (cell r key = k) then v else cell r "DeletionTimestamp")
        (table db T) /\
  (forall t, t <> T -> table db' t = table db t).

(** The number of rows of the table [T] whose column [key] holds [k]. *)
Definition rows_of_key (T key : string) (k : value) (db : gmap string (list Row)) : Z :=
  Z.of_nat (length (filter (fun r => cell r key = k) (table db T))).

(** In every table the identifiers are positive and grow with the order of
    insertion. *)
Definition RowIDs_increasing (db : gmap string (list Row)) : Prop :=
  forall t, StronglySorted Z.lt (0 :: map RowID (table db t)).

(** The error [e] reports the first element of [L] that failed: the elements
    before it succeeded, and either [errors.Is] finds its cause in [e], or it
    is one of [unwrapped] and [e] is a bare message. *)
Definition first_failure (failed : string -> option error) (unwrapped L : list string)
    (e : error) : Prop :=
  exists before field after cause,
    L = (before ++ (field :: after))%list /\
    (forall g, g ∈ before -> failed g = None) /\
    failed field = Some cause /\
    (((field ∉ unwrapped) /\ wraps (Some e) cause) \/
     (field ∈ unwrapped /\ (exists msg, e = errors_New msg))).

(** A string of white space only: every rune of it is a space for
    [unicode.IsSpace]. *)
Definition white_space (s : string) : bool := forallb unicode_IsSpace (utf8_runes s).

(** A string of ASCII bytes, and a label map of such strings. *)
Definition json_ascii (s : string) : bool :=
  forallb (fun c => (N_of_ascii c <? utf8_RuneSelf)%N) (list_ascii_of_string s).

Definition ascii_labels (g : gmap string string) : Prop :=
  forall k v, g !! k = Some v -> json_ascii k = true /\ json_ascii v = true.

(** What [appendString] writes for one ASCII byte, and what the decoder keeps
    of a member whose value is a string. *)
Definition json_enc (c : ascii) : list ascii :=
  if json_htmlSafe (N_of_ascii c) then [c] else json_escape c.

Definition json_read (kv : string * string) : string * json_Value := (kv.1, JString kv.2).

(** The JSON library of the environment is, at the type of the labels, the
    one modelled above. *)
Definition encoding_json `{E : External} : Prop :=
  (forall m, Marshal_labels m = inl (json_Marshal_object m)) /\
  (forall text, Unmarshal_labels text = json_Unmarshal_object text).

(** The driver [data_access.go] imports, [github.com/glebarez/go-sqlite]:
    the result of a statement it has executed answers [LastInsertId] with
    the identifier and no error. *)
Definition go_sqlite (env : Env) : Prop := lastInsertIdErr env = None.

(** A reader's answer that holds no object and reports NotFound. *)
Definition nothing_found {A} (out : GoSlice A * option error) : Prop :=
  out.1 = None /\ NotFound out.2.

(** What a wrapper makes of the outcome [prim] of the call it wraps: the same
    objects, no error where there was none, and an error that wraps the
    cause where there was one. *)
Definition passes_on {A} (out prim : A * option error) : Prop :=
  out.1 = prim.1 /\
  (prim.2 = None -> out.2 = None) /\
  (forall cause, prim.2 = Some cause -> wraps out.2 cause).

(** The row [StoreEventInfo] inserts. *)
Definition event_row (id : Z) (event : EventInfo) : Row :=
  {| RowID := id;
     cells := [("UID", VText (Event.UID event));
               ("EventTime", VTime (Event.EventTime event));
               ("ReportingController", VText (Event.ReportingController event));
               ("Reason", VText (Event.Reason event));
               ("Message", VText (Event.Message event));
               ("InvolvedObjectKind", VText (Event.InvolvedObjectKind event));
               ("InvolvedObjectName", VText (Event.InvolvedObjectName event));
               ("InvolvedObjectNamespace", VText (Event.InvolvedObjectNamespace event));
               ("InvolvedObjectUID", VText (Event.InvolvedObjectUID event))] |}.

(** * Properties *)

(** ** The JSON library on maps of ASCII strings *)

Lemma length_list_ascii_of_string s : length (list_ascii_of_string s) = String.length s.
Proof. induction s; cbn; congruence. Qed.

Lemma appendString_from_ascii l :
  forall fuel, (length l <= fuel)%nat ->
  forallb (fun c => (N_of_ascii c <? utf8_RuneSelf)%N) l = true ->
  json_appendString_from fuel l = flat_map json_enc l.
Proof.
  induction l as [|c l IH]; intros fuel Hfuel Hl.
  - destruct fuel; reflexivity.
  - destruct fuel as [|fuel]; [cbn in Hfuel; lia|].
    cbn [forallb] in Hl. apply andb_true_iff in Hl as [Hc Hl].
    cbn [json_appendString_from flat_map]. rewrite Hc.
    unfold json_enc at 1. f_equal. apply IH; [cbn in Hfuel; lia | exact Hl].
Qed.

Lemma appendString_ascii s :
  json_ascii s = true ->
  json_appendString s
  = json_dquote :: (flat_map json_enc (list_ascii_of_string s) ++ [json_dquote])%list.
Proof.
  intros H. unfold json_appendString.
  rewrite appendString_from_ascii; [reflexivity | | exact H].
  rewrite length_list_ascii_of_string. lia.
Qed.

(** One step of the reader on what the writer wrote for one ASCII byte. *)
Lemma json_string_enc c fuel tail :
  (N_of_ascii c <? utf8_RuneSelf)%N = true ->
  json_string (S fuel) (json_enc c ++ tail)
  = match json_string fuel tail with
    | Some (str, rest) => Some (c :: str, rest)
    | None => None
    end.
Proof.
  destruct c as [[] [] [] [] [] [] [] []]; intros H; try discriminate H; reflexivity.
Qed.

Lemma json_enc_length l : (length l <= length (flat_map json_enc l))%nat.
Proof.
  induction l as [|c l IH]; [reflexivity|].
  cbn [flat_map]. rewrite length_app.
  assert (1 <= length (json_enc c))%nat; [|cbn [length]; lia].
  unfold json_enc, json_escape.
  repeat match goal with |- context [if ?b then _ else _] => destruct b end; cbn; lia.
Qed.

Lemma json_string_ascii l rest :
  forall fuel, (length l < fuel)%nat ->
  forallb (fun c => (N_of_ascii c <? utf8_RuneSelf)%N) l = true ->
  json_string fuel (flat_map json_enc l ++ json_dquote :: rest) = Some (l, rest).
Proof.
  induction l as [|c l IH]; intros fuel Hfuel Hl.
  - destruct fuel as [|fuel]; [lia|]. reflexivity.
  - destruct fuel as [|fuel]; [lia|].
    cbn [forallb] in Hl. apply andb_true_iff in Hl as [Hc Hl].
    cbn [flat_map]. rewrite <- app_assoc, (json_string_enc c fuel _ Hc).
    rewrite IH; [reflexivity | cbn in Hfuel; lia | exact Hl].
Qed.

Lemma json_value_ascii s rest fuel :
  (0 < fuel)%nat -> json_ascii s = true ->
  json_value fuel
    (json_dquote :: flat_map json_enc (list_ascii_of_string s) ++ json_dquote :: rest)
  = Some (JString s, rest).
Proof.
  intros Hfuel Hs. destruct fuel as [|fuel]; [lia|].
  cbn [json_value]. change (json_skip (json_dquote :: ?l)) with (json_dquote :: l).
  destruct (decide (json_dquote = "{"%char)) as [?|_]; [discriminate|].
  destruct (decide (json_dquote = "["%char)) as [?|_]; [discriminate|].
  destruct (decide (json_dquote = json_dquote)) as [_|?]; [|contradiction].
  rewrite json_string_ascii; [| | exact Hs].
  - now rewrite string_of_list_ascii_of_string.
  - pose proof (json_enc_length (list_ascii_of_string s)).
    rewrite length_app. cbn [length]. lia.
Qed.

Lemma json_member_ascii kv :
  json_ascii kv.1 = true -> json_ascii kv.2 = true ->
  forall tail,
    (json_member kv ++ tail)%list
    = json_dquote :: (flat_map json_enc (list_ascii_of_string kv.1) ++ json_dquote ::
        ":"%char :: json_dquote ::
        (flat_map json_enc (list_ascii_of_string kv.2) ++ json_dquote :: tail))%list.
Proof.
  intros Hk Hv tail. unfold json_member.
  rewrite (appendString_ascii _ Hk), (appendString_ascii _ Hv).
  cbn [app]. rewrite <- !app_assoc. cbn [app]. rewrite <- !app_assoc. reflexivity.
Qed.

Lemma json_members_ascii l :
  forall rest fuel, l <> [] -> (length l < fuel)%nat ->
  Forall (fun kv => json_ascii kv.1 = true /\ json_ascii kv.2 = true) l ->
  json_members fuel (json_join (map json_member l) ++ "}"%char :: rest)
  = Some (map json_read l, rest).
Proof.
  induction l as [|kv l IH]; intros rest fuel Hne Hfuel Hl; [contradiction|].
  inversion Hl as [|? ? [Hk Hv] Hl']; subst.
  destruct fuel as [|fuel]; [lia|].
  assert (Hstep : forall tail after,
            json_skip tail = tail ->
            (match tail with
             | sep :: rest4 =>
                 if decide (sep = ","%char) then
                   match json_members fuel rest4 with
                   | Some (members, rest5) => Some ((kv.1, JString kv.2) :: members, rest5)
                   | None => None
                   end
                 else if decide (sep = "}"%char) then Some ([(kv.1, JString kv.2)], rest4)
                 else None
             | [] => None
             end) = after ->
            json_members (S fuel) (json_member kv ++ tail) = after).
  { intros tail after Hskip <-. rewrite (json_member_ascii kv Hk Hv).
    cbn [json_members]. change (json_skip (json_dquote :: ?x)) with (json_dquote :: x).
    destruct (decide (json_dquote = json_dquote)) as [_|?]; [|contradiction].
    rewrite json_string_ascii; [| | exact Hk].
    - change (json_skip (":"%char :: ?x)) with (":"%char :: x).
      destruct (decide (":"%char = ":"%char)) as [_|?]; [|contradiction].
      rewrite json_value_ascii; [|cbn in Hfuel; lia | exact Hv].
      rewrite Hskip, string_of_list_ascii_of_string. reflexivity.
    - pose proof (json_enc_length (list_ascii_of_string kv.1)).
      rewrite length_app. cbn [length]. lia. }
  destruct l as [|kv' l].
  - cbn [map json_join]. apply Hstep; reflexivity.
  - change (json_join (map json_member (kv :: kv' :: l)))
      with (json_member kv ++ ","%char :: json_join (map json_member (kv' :: l)))%list.
    rewrite <- app_assoc. cbn [app]. apply Hstep; [reflexivity|].
    destruct (decide (","%char = ","%char)) as [_|?]; [|contradiction].
    rewrite IH; [reflexivity | discriminate | cbn in Hfuel |- *; lia | exact Hl'].
Qed.

Lemma json_join_length l : (length l <= length (json_join (map json_member l)))%nat.
Proof.
  induction l as [|kv [|kv' l] IH]; [cbn; lia | |].
  - cbn. unfold json_member, json_appendString. cbn. lia.
  - change (json_join (map json_member (kv :: kv' :: l)))
      with (json_member kv ++ ","%char :: json_join (map json_member (kv' :: l)))%list.
    rewrite length_app. cbn [length] in IH |- *. lia.
Qed.

Lemma json_parse_ascii l :
  Forall (fun kv => json_ascii kv.1 = true /\ json_ascii kv.2 = true) l ->
  json_parse (string_of_list_ascii
                ("{"%char :: json_join (map json_member l) ++ ["}"%char]))
  = Some (JObject (map json_read l)).
Proof.
  intros Hl. unfold json_parse. rewrite list_ascii_of_string_of_list_ascii.
  set (body := json_join (map json_member l)).
  replace (2 * length ("{"%char :: body ++ ["}"%char]) + 2)%nat
    with (S (S (2 * length (body ++ ["}"%char]) + 2))) by (cbn [length]; lia).
  cbn [json_value]. change (json_skip ("{"%char :: ?x)) with ("{"%char :: x).
  destruct (decide ("{"%char = "{"%char)) as [_|?]; [|contradiction].
  destruct l as [|kv l].
  - reflexivity.
  - assert (Hm := json_members_ascii (kv :: l) []
                    (S (2 * length (body ++ ["}"%char]) + 2))).
    fold body in Hm.
    assert (Hskip : json_skip (body ++ ["}"%char])
                    = json_dquote :: tl (body ++ ["}"%char])).
    { subst body. destruct l; cbn [map json_join]; unfold json_member at 1;
        unfold json_appendString at 1; reflexivity. }
    rewrite Hskip.
    destruct (decide (json_dquote = "}"%char)) as [?|_]; [discriminate|].
    rewrite Hm; [reflexivity | discriminate | | exact Hl].
    pose proof (json_join_length (kv :: l)) as Hlen. fold body in Hlen.
    rewrite length_app. cbn [length] in Hlen |- *. lia.
Qed.

Lemma json_store_strings l :
  forall acc,
    fold_left json_store (map json_read l) (acc, None)
    = (fold_left (fun m (kv : string * string) => <[kv.1 := kv.2]> m) l acc, None).
Proof.
  induction l as [|kv l IH]; intros acc; [reflexivity|].
  cbn [map fold_left]. unfold json_store at 2. cbn [json_read fst snd]. apply IH.
Qed.

Lemma fold_left_insert (l : list (string * string)) :
  NoDup l.*1 ->
  fold_left (fun m (kv : string * string) => <[kv.1 := kv.2]> m) l ∅
  = (list_to_map l : gmap string string).
Proof.
  intros Hnd. rewrite <- fold_left_rev_right.
  transitivity (list_to_map (rev l) : gmap string string).
  - generalize (rev l). intros l'. induction l' as [|kv l' IH]; [reflexivity|].
    cbn [fold_right]. rewrite IH. destruct kv. reflexivity.
  - assert (Hp : rev l ≡ₚ l) by (symmetry; apply Permutation_rev).
    apply list_to_map_proper; [|exact Hp]. rewrite Hp. exact Hnd.
Qed.

(** [json.Unmarshal] reads back the text [json.Marshal] writes for a map of
    ASCII strings. *)
Lemma json_object_round_trip (g : gmap string string) :
  ascii_labels g ->
  json_Unmarshal_object (json_Marshal_object (Some g)) = (Some g, None).
Proof.
  intros Hg. unfold json_Unmarshal_object, json_Marshal_object.
  set (l := merge_sort json_key_le (map_to_list g)).
  assert (Hperm : l ≡ₚ map_to_list g) by apply merge_sort_Permutation.
  assert (Hl : Forall (fun kv => json_ascii kv.1 = true /\ json_ascii kv.2 = true) l).
  { apply Forall_forall. intros [k v] Hin. apply (Hg k v).
    apply elem_of_map_to_list. rewrite <- Hperm. exact Hin. }
  rewrite (json_parse_ascii l Hl), json_store_strings, fold_left_insert.
  - f_equal. f_equal. rewrite <- (list_to_map_to_list g).
    apply list_to_map_proper; [|exact Hperm].
    rewrite Hperm. apply NoDup_fst_map_to_list.
  - rewrite Hperm. apply NoDup_fst_map_to_list.
Qed.

Lemma json_object_compound (g : gmap string string) :
  json_compound (json_Marshal_object (Some g)) = true.
Proof.
  unfold json_compound, json_Marshal_object.
  rewrite list_ascii_of_string_of_list_ascii.
  cbn [rev]. rewrite rev_app_distr. reflexivity.
Qed.

(** ** White space *)

Lemma IsSpace_ascii c :
  (N_of_ascii c <? utf8_RuneSelf)%N = true -> unicode_IsSpace (N_of_ascii c) = asciiSpace c.
Proof.
  destruct c as [[] [] [] [] [] [] [] []]; vm_compute; congruence.
Qed.

Lemma DecodeRune_ascii c l :
  (N_of_ascii c <? utf8_RuneSelf)%N = true -> utf8_DecodeRune (c :: l) = (N_of_ascii c, 1%nat).
Proof. intros H. unfold utf8_DecodeRune. now rewrite H. Qed.

Lemma TrimLeftFunc_all fuel f s :
  forallb f (utf8_runes_from fuel s) = true -> TrimLeftFunc_from fuel f s = [].
Proof.
  revert s. induction fuel as [|fuel IH]; intros s; [reflexivity|].
  destruct s as [|c l]; [reflexivity|].
  cbn [utf8_runes_from TrimLeftFunc_from].
  destruct (utf8_DecodeRune (c :: l)) as [r size]. cbn [forallb].
  intros [Hr Hrest]%andb_true_iff. rewrite Hr. now apply IH.
Qed.

Lemma TrimSpace_white_space s : white_space s = true -> strings_TrimSpace s = "".
Proof.
  unfold white_space, utf8_runes.
  induction s as [|c s IH]; [reflexivity|].
  cbn [strings_TrimSpace].
  destruct (utf8_RuneSelf <=? N_of_ascii c)%N eqn:Hc.
  - intros H. unfold strings_TrimFunc, strings_TrimLeftFunc.
    rewrite length_list_ascii_of_string, (TrimLeftFunc_all _ _ _ H). reflexivity.
  - assert (Hlt : (N_of_ascii c <? utf8_RuneSelf)%N = true).
    { apply N.ltb_lt. apply N.leb_gt in Hc. exact Hc. }
    cbn [String.length list_ascii_of_string utf8_runes_from].
    rewrite (DecodeRune_ascii c _ Hlt). cbn [forallb drop].
    rewrite (IsSpace_ascii c Hlt).
    intros [Hsp Hrest]%andb_true_iff. rewrite Hsp. now apply IH.
Qed.

Section CodecFacts.
Context `{E : External}.

Lemma asciiSpace_ascii c : asciiSpace c = true -> (utf8_RuneSelf <=? N_of_ascii c)%N = false.
Proof.
  destruct c as [[] [] [] [] [] [] [] []]; vm_compute; congruence.
Qed.

Lemma TrimSpace_blank s : blank s = true -> strings_TrimSpace s = "".
Proof.
  unfold blank. induction s as [|c s IH]; simpl; [reflexivity|].
  intros [Hc Hs]%andb_true_iff.
  rewrite (asciiSpace_ascii c Hc), Hc. auto.
Qed.

Lemma TrimSpace_compound s : json_compound s = true -> strings_TrimSpace s = s.
Proof.
  unfold json_compound. destruct s as [|o s]; [discriminate|].
  cbn [list_ascii_of_string].
  destruct (rev (o :: list_ascii_of_string s)) as [|c rest] eqn:Hrev; [discriminate|].
  intros H.
  assert (Ho : (utf8_RuneSelf <=? N_of_ascii o)%N = false /\ asciiSpace o = false).
  { apply orb_true_iff in H as [[H _]%andb_true_iff|[H _]%andb_true_iff];
      apply bool_decide_eq_true in H; subst o; split; reflexivity. }
  assert (Hc : (utf8_RuneSelf <=? N_of_ascii c)%N = false /\ asciiSpace c = false).
  { apply orb_true_iff in H as [[_ H]%andb_true_iff|[_ H]%andb_true_iff];
      apply bool_decide_eq_true in H; subst c; split; reflexivity. }
  destruct Ho as [Ho1 Ho2], Hc as [Hc1 Hc2].
  cbn [strings_TrimSpace]. rewrite Ho1, Ho2.
  cbn [list_ascii_of_string]. rewrite Hrev.
  cbn [TrimSpace_stop]. rewrite Hc1, Hc2.
  rewrite <- Hrev, rev_involutive.
  change (o :: list_ascii_of_string s) with (list_ascii_of_string (String o s)).
  apply string_of_list_ascii_of_string.
Qed.

Lemma json_compound_not_blank s :
  json_compound s = true -> strings_TrimSpace s <> "".
Proof.
  intros H. rewrite (TrimSpace_compound s H).
  destruct s; [discriminate H | discriminate].
Qed.

Lemma len_map_nonzero {V} (m : GoMap V) : len_map m <> 0%nat -> (len_map m =? 0)%nat = false.
Proof. intros H. now apply Nat.eqb_neq. Qed.

Lemma len_slice_nonzero {T} (s : GoSlice T) :
  len_slice s <> 0%nat -> (len_slice s =? 0)%nat = false.
Proof. intros H. now apply Nat.eqb_neq. Qed.

(** The shape shared by the five pairs: a guarded encoder followed by a
    guarded decoder is the library's round trip. *)
Ltac round_trip Hlen Hjson :=
  destruct Hjson as (text & Hm & Hc & Hu);
  rewrite Hlen, Hm; cbn [fst snd];
  destruct (decide (strings_TrimSpace text = "")) as [Hb|_];
  [ exfalso; exact (json_compound_not_blank text Hc Hb) | rewrite Hu; split; reflexivity ].

Lemma labels_round_trip v :
  len_map v <> 0%nat -> json_roundtrips Marshal_labels Unmarshal_labels v ->
  labelsFromText (labelsToText v).1 = (v, None) /\ (labelsToText v).2 = None.
Proof.
  intros Hlen%len_map_nonzero Hjson. unfold labelsToText, labelsFromText.
  round_trip Hlen Hjson.
Qed.

Lemma resources_round_trip v :
  len_map v <> 0%nat -> json_roundtrips Marshal_resources Unmarshal_resources v ->
  resourcesFromText (resourcesToText v).1 = (v, None) /\ (resourcesToText v).2 = None.
Proof.
  intros Hlen%len_map_nonzero Hjson. unfold resourcesToText, resourcesFromText.
  round_trip Hlen Hjson.
Qed.

Lemma taints_round_trip v :
  len_slice v <> 0%nat -> json_roundtrips Marshal_taints Unmarshal_taints v ->
  taintsFromText (taintsToText v).1 = (v, None) /\ (taintsToText v).2 = None.
Proof.
  intros Hlen%len_slice_nonzero Hjson. unfold taintsToText, taintsFromText.
  round_trip Hlen Hjson.
Qed.

Lemma tolerations_round_trip v :
  len_slice v <> 0%nat -> json_roundtrips Marshal_tolerations Unmarshal_tolerations v ->
  tolerationsFromText (tolerationsToText v).1 = (v, None) /\ (tolerationsToText v).2 = None.
Proof.
  intros Hlen%len_slice_nonzero Hjson. unfold tolerationsToText, tolerationsFromText.
  round_trip Hlen Hjson.
Qed.

Lemma tsc_round_trip v :
  len_slice v <> 0%nat -> json_roundtrips Marshal_tsc Unmarshal_tsc v ->
  tscFromText (tscToText v).1 = (v, None) /\ (tscToText v).2 = None.
Proof.
  intros Hlen%len_slice_nonzero Hjson. unfold tscToText, tscFromText.
  round_trip Hlen Hjson.
Qed.

(** Encoding a [nil] or empty value gives the empty string. *)
Lemma encode_empty :
  (forall v, len_map v = 0%nat -> labelsToText v = ("", None)) /\
  (forall v, len_map v = 0%nat -> resourcesToText v = ("", None)) /\
  (forall v, len_slice v = 0%nat -> taintsToText v = ("", None)) /\
  (forall v, len_slice v = 0%nat -> tolerationsToText v = ("", None)) /\
  (forall v, len_slice v = 0%nat -> tscToText v = ("", None)).
Proof.
  repeat split; intros v Hv;
    unfold labelsToText, resourcesToText, taintsToText, tolerationsToText, tscToText;
    rewrite Hv; reflexivity.
Qed.

(** Decoding a string that [strings.TrimSpace] empties gives [nil], no error. *)
Lemma decode_trimmed text :
  strings_TrimSpace text = "" ->
  labelsFromText text = (None, None) /\ resourcesFromText text = (None, None) /\
  taintsFromText text = (None, None) /\ tolerationsFromText text = (None, None) /\
  tscFromText text = (None, None).
Proof.
  intros Ht.
  unfold labelsFromText, resourcesFromText, taintsFromText, tolerationsFromText, tscFromText.
  destruct (decide (strings_TrimSpace text = "")); [|contradiction].
  repeat split.
Qed.

(** C3 (amended). For each of the five nested attribute types (label map,
    resource list, taint list, toleration list, topology-spread-constraint
    list): decoding the encoding of a non-empty value returns the value
    whenever the JSON library reads the value back from the object or array
    it wrote for it; with the JSON library as it is for maps of strings,
    that is so for every non-empty label map of ASCII strings.  A [nil] or
    empty value is encoded as the empty string; the empty string and every
    string of white space only, Unicode white space included, is decoded as
    the zero value ([nil]) with no error. *)
Theorem codec_round_trip :
  ((forall v, len_map v <> 0%nat -> json_roundtrips Marshal_labels Unmarshal_labels v ->
      labelsFromText (labelsToText v).1 = (v, None)) /\
   (forall v, len_map v <> 0%nat -> json_roundtrips Marshal_resources Unmarshal_resources v ->
      resourcesFromText (resourcesToText v).1 = (v, None)) /\
   (forall v, len_slice v <> 0%nat -> json_roundtrips Marshal_taints Unmarshal_taints v ->
      taintsFromText (taintsToText v).1 = (v, None)) /\
   (forall v, len_slice v <> 0%nat ->
      json_roundtrips Marshal_tolerations Unmarshal_tolerations v ->
      tolerationsFromText (tolerationsToText v).1 = (v, None)) /\
   (forall v, len_slice v <> 0%nat -> json_roundtrips Marshal_tsc Unmarshal_tsc v ->
      tscFromText (tscToText v).1 = (v, None))) /\
  (encoding_json ->
   forall g, len_map (Some g) <> 0%nat -> ascii_labels g ->
     labelsFromText (labelsToText (Some g)).1 = (Some g, None)) /\
  ((forall v, len_map v = 0%nat -> labelsToText v = ("", None)) /\
   (forall v, len_map v = 0%nat -> resourcesToText v = ("", None)) /\
   (forall v, len_slice v = 0%nat -> taintsToText v = ("", None)) /\
   (forall v, len_slice v = 0%nat -> tolerationsToText v = ("", None)) /\
   (forall v, len_slice v = 0%nat -> tscToText v = ("", None))) /\
  (forall text, white_space text = true ->
     labelsFromText text = (None, None) /\ resourcesFromText text = (None, None) /\
     taintsFromText text = (None, None) /\ tolerationsFromText text = (None, None) /\
     tscFromText text = (None, None)).
Proof.
  split; [|split; [|split]].
  - repeat apply conj; intros v Hlen Hjson.
    + apply (labels_round_trip _ Hlen Hjson).
    + apply (resources_round_trip _ Hlen Hjson).
    + apply (taints_round_trip _ Hlen Hjson).
    + apply (tolerations_round_trip _ Hlen Hjson).
    + apply (tsc_round_trip _ Hlen Hjson).
  - intros [Hm Hu] g Hlen Hg. apply (labels_round_trip _ Hlen).
    exists (json_Marshal_object (Some g)). split; [apply Hm|].
    split; [apply json_object_compound|].
    rewrite Hu. apply (json_object_round_trip g Hg).
  - exact encode_empty.
  - intros text Hw. apply decode_trimmed, TrimSpace_white_space, Hw.
Qed.

End CodecFacts.

Lemma codec_round_trip_witness :
  let labels : GoMap string := Some {[ "a" := "b"; "zone" := "eu-1a" ]} in
  let quoted : GoMap string := Some {[ "note" := "a<b & c" ]} in
  let resources : GoMap string := Some {[ "cpu" := "2" ]} in
  let taints : GoSlice string := Some ["NoSchedule"] in
  let spaces := String (ascii_of_N 194) (String (ascii_of_N 160)
                  (String (ascii_of_N 227) (String (ascii_of_N 128)
                     (String (ascii_of_N 128) " ")))) in
  @labelsFromText Sample.external (@labelsToText Sample.external labels).1 = (labels, None) /\
  @labelsFromText Sample.external (@labelsToText Sample.external quoted).1 = (quoted, None) /\
  @resourcesFromText Sample.external (@resourcesToText Sample.external resources).1
    = (resources, None) /\
  @taintsFromText Sample.external (@taintsToText Sample.external taints).1 = (taints, None) /\
  @labelsToText Sample.external (Some ∅) = ("", None) /\
  @labelsFromText Sample.external spaces = (None, None).
Proof.
  intros labels quoted resources taints spaces.
  destruct (@codec_round_trip Sample.external) as ((_ & H2 & H3 & _) & H1 & (H4 & _) & H5).
  assert (Hjson : @encoding_json Sample.external) by (split; reflexivity).
  split; [|split; [|split; [|split; [|split]]]].
  - apply (H1 Hjson); [vm_compute; lia|].
    intros k v [[<- <-]|[_ [<- <-]%lookup_singleton_Some]]%lookup_insert_Some;
      split; reflexivity.
  - apply (H1 Hjson); [vm_compute; lia|].
    intros k v [<- <-]%lookup_singleton_Some. split; reflexivity.
  - apply H2; [vm_compute; lia|].
    eexists; split; [reflexivity | split; vm_compute; reflexivity].
  - apply H3; [vm_compute; lia|].
    eexists; split; [reflexivity | split; vm_compute; reflexivity].
  - apply H4. reflexivity.
  - apply (H5 spaces). reflexivity.
Defined.

(** C3 as stated fails: a label whose value is not UTF-8 is written with the
    replacement character in place of the offending byte, and decoding the
    encoding returns a map with that other value. *)
Lemma codec_round_trip_not_UTF8 :
  let v : GoMap string := Some {[ "k" := String (ascii_of_N 255) "" ]} in
  let replaced := String (ascii_of_N 239) (String (ascii_of_N 191)
                    (String (ascii_of_N 189) "")) in
  len_map v <> 0%nat /\
  @labelsFromText Sample.external (@labelsToText Sample.external v).1
    = (Some {[ "k" := replaced ]}, None) /\
  @labelsFromText Sample.external (@labelsToText Sample.external v).1 <> (v, None).
Proof.
  intros v replaced.
  assert (H : @labelsFromText Sample.external (@labelsToText Sample.external v).1
              = (Some {[ "k" := replaced ]}, None)) by (vm_compute; reflexivity).
  split; [vm_compute; lia|]. split; [exact H|].
  rewrite H. intros Heq.
  apply (f_equal (fun r : GoMap string * option error => r.1 ≫= (.!! "k"))) in Heq.
  vm_compute in Heq. discriminate Heq.
Qed.

Section FacadeFacts.

Lemma Close_closed da env open : dataDB da = None -> Close da env open = (da, open, None).
Proof. intros H. unfold Close. now rewrite H. Qed.

Lemma Close_all_closed envs da open :
  dataDB da = None -> Close_all envs da open = (da, open, repeat None (length envs)).
Proof.
  intros H. induction envs as [|env envs IH]; [reflexivity|].
  cbn [Close_all]. rewrite (Close_closed da env open H), IH. reflexivity.
Qed.

(** C7. A [Close] that succeeds leaves the facade without a database handle
    and the connection released; every [Close] after it, whatever the
    environment would answer, returns [nil] and changes nothing; [Close] on
    a facade that was never initialised returns [nil]. *)
Theorem Close_idempotent (da da' : DataAccess) (env : Env) (open open' : gset nat)
    (path : string) :
  Close da env open = (da', open', None) ->
  dataDB da' = None /\
  (forall h, dataDB da = Some h -> h ∉ open') /\
  (forall envs, Close_all envs da' open' = (da', open', repeat None (length envs))) /\
  (forall env0 open0,
     Close (NewDataAccess path) env0 open0 = (NewDataAccess path, open0, None)).
Proof.
  intros HClose.
  assert (Hnil : dataDB da' = None /\ forall h, dataDB da = Some h -> h ∉ open').
  { unfold Close in HClose. destruct (dataDB da) as [h|] eqn:Hdb.
    - unfold sql_DB_Close in HClose.
      destruct (decide (h ∈ open)) as [Hin|Hout].
      + destruct (closeErr env); inversion HClose; subst.
        split; [reflexivity|]. intros h' Hh. inversion Hh; subst h'.
        rewrite elem_of_difference, elem_of_singleton. tauto.
      + inversion HClose; subst. split; [reflexivity|].
        intros h' Hh. inversion Hh; subst h'. assumption.
    - inversion HClose; subst. split; [assumption|]. intros h' [=]. }
  destruct Hnil as [Hnil Hrel].
  repeat split; try assumption.
  intros envs. now apply Close_all_closed.
Qed.

Lemma QueryRow_Scan_count (t key1 key2 : string) (a b : value) (env : Env)
    (db : gmap string (list Row)) :
  QueryRow_Scan (SQL.SelectCount t key1 key2) env db [a; b]
  = match queryErr env with
    | Some e => ({| Int32 := 0; Valid := false |}, Some e)
    | None =>
        ({| Int32 := Z.of_nat (length (filter (fun r => cell r key1 = a /\ cell r key2 = b)
                                              (table db t)));
            Valid := true |}, None)
    end.
Proof.
  unfold QueryRow_Scan, Stmt_Query, argsErr. cbn. rewrite andb_false_r.
  destruct (queryErr env); reflexivity.
Qed.

(** The branches of the two count functions on what the count statement
    gives for a key and a hash. *)
Lemma Count_on_statement (t key1 key2 : string) (key hash : string) (env : Env)
    (db : gmap string (list Row)) :
  let scan := QueryRow_Scan (SQL.SelectCount t key1 key2) env db in
  let count := (scan [VText key; VText hash]).1 in
  let err := (scan [VText key; VText hash]).2 in
  forall Count : (list value -> NullInt32 * option error) -> string -> string ->
                 Z * option error,
    (Count = CountPodInfoWithSpecHash \/ Count = CountNodeInfoWithHash) ->
    (Count scan key hash = (-1, None) <-> no_rows err = true) /\
    (forall e, err = Some e -> no_rows err = false -> Count scan key hash = (-1, Some e)) /\
    (err = None -> Valid count = true /\ Count scan key hash = (Int32 count, None)).
Proof.
  intros scan count err Count HCount.
  assert (HC : Count scan key hash
               = if Valid count then (Int32 count, None)
                 else match err with
                      | Some e => if errors_Is e sql_ErrNoRows then (-1, None) else (-1, err)
                      | None => (-1, err)
                      end).
  { subst count err. destruct HCount as [-> | ->];
      unfold CountPodInfoWithSpecHash, CountNodeInfoWithHash;
      destruct (scan [VText key; VText hash]); reflexivity. }
  rewrite HC. subst count err scan. rewrite QueryRow_Scan_count.
  destruct (queryErr env) as [e|]; cbn [fst snd Valid Int32 no_rows].
  - destruct (errors_Is e sql_ErrNoRows) eqn:He.
    + split; [split; reflexivity|]. split; [intros e' _; discriminate | discriminate].
    + split; [split; discriminate|]. split; [|discriminate].
      intros e' [= <-] _. reflexivity.
  - split; [split; [intros [= H]; lia | discriminate]|].
    split; [discriminate|]. intros _. split; reflexivity.
Qed.

(** C4. With the prepared count statements on a database, for every key and
    hash: [CountPodInfoWithSpecHash] and [CountNodeInfoWithHash] return [-1]
    with a [nil] error exactly when the query yields no rows
    ([sql.ErrNoRows]); for any other error of the query or the scan they
    return [-1] with that error; and when there is no error a count row was
    obtained, and they return that count with a [nil] error. *)
Theorem Count_sentinel (key hash : string) (env : Env) (db : gmap string (list Row)) :
  let pods := QueryRow_Scan d.selectPodCountWithUIDAndHash env db in
  let nodes := QueryRow_Scan d.selectNodeCountWithNameAndHash env db in
  let args := [VText key; VText hash] in
  ((CountPodInfoWithSpecHash pods key hash = (-1, None) <-> no_rows (pods args).2 = true) /\
   (forall e, (pods args).2 = Some e -> no_rows (pods args).2 = false ->
      CountPodInfoWithSpecHash pods key hash = (-1, Some e)) /\
   ((pods args).2 = None ->
      Valid (pods args).1 = true /\
      CountPodInfoWithSpecHash pods key hash = (Int32 (pods args).1, None))) /\
  ((CountNodeInfoWithHash nodes key hash = (-1, None) <-> no_rows (nodes args).2 = true) /\
   (forall e, (nodes args).2 = Some e -> no_rows (nodes args).2 = false ->
      CountNodeInfoWithHash nodes key hash = (-1, Some e)) /\
   ((nodes args).2 = None ->
      Valid (nodes args).1 = true /\
      CountNodeInfoWithHash nodes key hash = (Int32 (nodes args).1, None))).
Proof.
  intros pods nodes args. split.
  - exact (Count_on_statement "pod_info" "UID" "Hash" key hash env db
             CountPodInfoWithSpecHash (or_introl eq_refl)).
  - exact (Count_on_statement "node_info" "Name" "Hash" key hash env db
             CountNodeInfoWithHash (or_intror eq_refl)).
Qed.

End FacadeFacts.

Lemma Close_idempotent_witness :
  let da := {| dataDBPath := "data.db"; dataDB := Some 1%nat |} in
  let da' := {| dataDBPath := "data.db"; dataDB := None |} in
  Close da ok {[ 1%nat ]} = (da', ∅, None) /\
  Close_all [ok; ok] da' ∅ = (da', ∅, [None; None]).
Proof.
  intros da da'.
  assert (H : Close da ok {[ 1%nat ]} = (da', ∅, None)) by reflexivity.
  split; [exact H|].
  exact (proj1 (proj2 (proj2 (Close_idempotent da da' ok {[ 1%nat ]} ∅ "data.db" H)))
           [ok; ok]).
Defined.

Lemma Count_sentinel_witness :
  let none := {| execErr := None; lastInsertIdErr := None; rowsAffectedErr := None;
                 queryErr := Some sql_ErrNoRows; closeErr := None; checkNumInput := false |} in
  let locked := {| execErr := None; lastInsertIdErr := None; rowsAffectedErr := None;
                   queryErr := Some (errors_New "database is locked"); closeErr := None;
                   checkNumInput := false |} in
  let db := (@StorePodInfo Sample.external Sample.gcr Sample.pod1 ok ∅).1 in
  CountPodInfoWithSpecHash (QueryRow_Scan d.selectPodCountWithUIDAndHash none db)
    "uid-1" "pod:p1" = (-1, None) /\
  CountNodeInfoWithHash (QueryRow_Scan d.selectNodeCountWithNameAndHash locked db)
    "n1" "h1" = (-1, Some (errors_New "database is locked")) /\
  CountPodInfoWithSpecHash (QueryRow_Scan d.selectPodCountWithUIDAndHash ok db)
    "uid-1" (@PodInfo_GetHash Sample.external Sample.gcr Sample.pod1) = (1, None).
Proof.
  intros none locked db. split; [|split].
  - apply (Count_sentinel "uid-1" "pod:p1" none db). reflexivity.
  - apply (Count_sentinel "n1" "h1" locked db); reflexivity.
  - apply (Count_sentinel "uid-1" (@PodInfo_GetHash Sample.external Sample.gcr Sample.pod1) ok db).
    reflexivity.
Defined.

Section QueryPrimitives.
Context {I T : Type} `{!row I T} `{!Scan T} `{!Zero I}.

Lemma errors_Is_wrapped format e target :
  errors_Is e target = true -> errors_Is (fmt_Errorf format e) target = true.
Proof.
  intros H. cbn [errors_Is]. destruct (decide (fmt_Errorf format e = target)); auto.
Qed.

Lemma filter_none (P : Row -> Prop) `{!forall r, Decision (P r)} (l : list Row) :
  (forall r, r ∈ l -> ~ P r) -> filter P l = [].
Proof.
  induction l as [|r l IH]; intros Hl; [reflexivity|].
  rewrite filter_cons. destruct (decide (P r)) as [HP|_].
  - exfalso. apply (Hl r); [left | exact HP].
  - apply IH. intros r' Hr'. apply Hl. now right.
Qed.

Lemma queryAndMapToInfos_zero_rows stmt params env db :
  Stmt_Query stmt (map adjustParam params) env db = inl [] ->
  queryAndMapToInfos (I := I) (T := T) stmt params env db = (None, Some sql_ErrNoRows).
Proof. intros Hz. unfold queryAndMapToInfos. now rewrite Hz. Qed.

Lemma queryAndMapToInfo_zero_rows stmt params env db :
  Stmt_Query stmt params env db = inl [] ->
  queryAndMapToInfo (I := I) (T := T) stmt params env db
  = (zero, Some (fmt_Errorf "could not find rows for statement: %w" sql_ErrNoRows)).
Proof. intros Hz. unfold queryAndMapToInfo. now rewrite Hz. Qed.

End QueryPrimitives.

Section QueryFacts.
Context `{G : Gcr}.
Context {I T : Type} `{!row I T} `{!Scan T} `{!Zero I}.

Lemma selectLatestMCDInfo_never_stored name env db :
  (forall r, r ∈ table db "mcd_info" -> cell r "Name" <> VText name) ->
  queryErr env = None ->
  Stmt_Query d.selectLatestMCDInfo [VText name] env db = inl [].
Proof.
  intros Hnever Hq. unfold Stmt_Query, argsErr. cbn.
  rewrite andb_false_r, Hq.
  rewrite (filter_none _ _ Hnever). reflexivity.
Qed.

(** C5. Both generic query primitives report a result of zero rows as the
    error [sql.ErrNoRows] (NotFound), with no rows or object returned:
    [queryAndMapToInfos] (queryMany) and [queryAndMapToInfo] (queryOne).  In
    particular [LoadLatestMachineDeploymentInfo] for a name that no row of
    [mcd_info] carries never returns a [nil] error, and returns NotFound
    whenever the query itself is executed. *)
Theorem zero_rows_NotFound (stmt : SQL.Stmt) (params : list value) (env : Env)
    (db : gmap string (list Row)) (name : string) :
  (Stmt_Query stmt (map adjustParam params) env db = inl [] ->
     (queryAndMapToInfos (I := I) (T := T) stmt params env db).1 = None /\
     NotFound (queryAndMapToInfos (I := I) (T := T) stmt params env db).2) /\
  (Stmt_Query stmt params env db = inl [] ->
     NotFound (queryAndMapToInfo (I := I) (T := T) stmt params env db).2) /\
  ((forall r, r ∈ table db "mcd_info" -> cell r "Name" <> VText name) ->
     (LoadLatestMachineDeploymentInfo name env db).2 <> None /\
     (queryErr env = None -> NotFound (LoadLatestMachineDeploymentInfo name env db).2)).
Proof.
  split; [|split].
  - intros Hz. rewrite (queryAndMapToInfos_zero_rows _ _ _ _ Hz).
    split; [reflexivity|]. exists sql_ErrNoRows. split; reflexivity.
  - intros Hz. rewrite (queryAndMapToInfo_zero_rows _ _ _ _ Hz). cbn [snd].
    eexists. split; [reflexivity|]. reflexivity.
  - intros Hnever. unfold LoadLatestMachineDeploymentInfo. split.
    + destruct (queryErr env) as [e|] eqn:Hq.
      * unfold queryAndMapToInfo, Stmt_Query, argsErr. cbn.
        rewrite andb_false_r, Hq. discriminate.
      * rewrite (queryAndMapToInfo_zero_rows _ _ _ _
                   (selectLatestMCDInfo_never_stored name env db Hnever Hq)).
        discriminate.
    + intros Hq.
      rewrite (queryAndMapToInfo_zero_rows _ _ _ _
                 (selectLatestMCDInfo_never_stored name env db Hnever Hq)).
      eexists. split; reflexivity.
Qed.

End QueryFacts.

Lemma zero_rows_NotFound_witness :
  let db := (@StoreMachineDeploymentInfo Sample.external Sample.gcr Sample.mcd1 ok ∅).1 in
  NotFound (@LoadLatestMachineDeploymentInfo Sample.external Sample.gcr "mcd-b" ok db).2 /\
  NotFound (queryAndMapToInfos (I := CASettingsInfo) (T := CASettingsInfo)
              (rowT := fun c => (c, None))
              d.selectCADeploymentByHash [VText "h1"] ok db).2.
Proof.
  intros db.
  pose proof (@zero_rows_NotFound Sample.external Sample.gcr CASettingsInfo CASettingsInfo
                (fun c => (c, None)) _ Sample.ca1
                d.selectCADeploymentByHash [VText "h1"] ok db "mcd-b") as (H1 & _ & H3).
  split.
  - apply H3; [|reflexivity].
    intros r Hr. vm_compute in Hr.
    apply list_elem_of_singleton in Hr. subst r. vm_compute. discriminate.
  - apply H1. reflexivity.
Defined.

Section EngineFacts.

Lemma table_insert_eq (db : gmap string (list Row)) t l : table (<[t := l]> db) t = l.
Proof. unfold table. now rewrite lookup_insert_eq. Qed.

Lemma table_insert_ne (db : gmap string (list Row)) t t' l :
  t <> t' -> table (<[t := l]> db) t' = table db t'.
Proof. intros Hne. unfold table. now rewrite lookup_insert_ne. Qed.

Lemma next_RowID_pos t : 0 < next_RowID t.
Proof.
  unfold next_RowID.
  assert (0 <= fold_right Z.max 0 (map RowID t)); [|lia].
  induction t as [|r t IH]; cbn [map fold_right]; lia.
Qed.

(** A generated identifier is new to the table. *)
Lemma next_RowID_fresh t r : r ∈ t -> RowID r < next_RowID t.
Proof.
  unfold next_RowID. induction t as [|r' t IH]; intros Hr.
  - inversion Hr.
  - cbn [map fold_right]. apply elem_of_cons in Hr as [->|Hr]; [lia|].
    specialize (IH Hr). lia.
Qed.

Lemma Exec_Insert t columns args env db :
  length args = length columns ->
  Stmt_Exec (SQL.Insert t columns) args env db =
  match execErr env with
  | Some e => (db, inr e)
  | None =>
      (<[t := (table db t ++ [mkRow (next_RowID (table db t)) (zip columns args)])%list]> db,
       inl (result_of env (next_RowID (table db t)) 1))
  end.
Proof.
  intros Hlen. unfold Stmt_Exec, argsErr. cbn [SQL.NumInput].
  rewrite Hlen, Nat.ltb_irrefl, Nat.eqb_refl, andb_false_r. reflexivity.
Qed.

(** An insert that fails leaves the database as it was; one that is executed
    appends exactly one row, with a positive identifier. *)
Lemma Exec_Insert_atomic t columns args env db db' e :
  Stmt_Exec (SQL.Insert t columns) args env db = (db', inr e) -> db' = db.
Proof.
  unfold Stmt_Exec. destruct (argsErr _ args env); [now intros [= <- _]|].
  destruct (execErr env); [now intros [= <- _]|]. intros [=].
Qed.

End EngineFacts.

Section StoreFacts.
Context `{G : Gcr}.

(** What a call of each [Store] operation does, by what the environment
    decides. *)
Lemma StoreMachineDeploymentInfo_spec m env db :
  exists row,
    RowID row = next_RowID (table db "mcd_info") /\
    cell row "Name" = VText (MachineDeployment.Name m) /\
    cell row "Hash" = VText (if decide (MachineDeployment.Hash m = "")
                             then MachineDeploymentInfo_GetHash m
                             else MachineDeployment.Hash m) /\
    StoreMachineDeploymentInfo m env db =
    match execErr env with
    | Some e => (db, (0, Some e))
    | None =>
        (<["mcd_info" := (table db "mcd_info" ++ [row])%list]> db,
         match lastInsertIdErr env with
         | Some e => (0, Some e)
         | None => (RowID row, None)
         end)
    end.
Proof.
  unfold StoreMachineDeploymentInfo, d.insertMCDInfo, SQL.InsertMCDInfo.
  rewrite Exec_Insert by reflexivity.
  eexists. split; [|split; [|split]]; cycle 3.
  - destruct (execErr env); [reflexivity|].
    cbn [result_of LastInsertId]. destruct (lastInsertIdErr env); reflexivity.
  - reflexivity.
  - destruct (decide (MachineDeployment.Hash m = "")); reflexivity.
  - destruct (decide (MachineDeployment.Hash m = "")); reflexivity.
Qed.

Lemma StoreWorkerPoolInfo_spec w env db :
  exists row,
    RowID row = next_RowID (table db "worker_pool_info") /\
    cell row "Hash" = VText (if decide (WorkerPool.Hash w = "")
                             then WorkerPoolInfo_GetHash w
                             else WorkerPool.Hash w) /\
    StoreWorkerPoolInfo w env db =
    match execErr env with
    | Some e => (db, (0, Some e))
    | None =>
        (<["worker_pool_info" := (table db "worker_pool_info" ++ [row])%list]> db,
         match lastInsertIdErr env with
         | Some e => (0, Some e)
         | None => (RowID row, None)
         end)
    end.
Proof.
  unfold StoreWorkerPoolInfo, d.insertWorkerPoolInfo, SQL.InsertWorkerPoolInfo.
  rewrite Exec_Insert by reflexivity.
  eexists. split; [|split]; cycle 2.
  - destruct (execErr env); [reflexivity|].
    cbn [result_of LastInsertId]. destruct (lastInsertIdErr env); reflexivity.
  - reflexivity.
  - destruct (decide (WorkerPool.Hash w = "")); reflexivity.
Qed.

Lemma StoreCADeployment_spec ca env db :
  exists row,
    RowID row = next_RowID (table db "ca_settings_info") /\
    cell row "Hash" = VText (CASettings.Hash ca) /\
    StoreCADeployment ca env db =
    match execErr env with
    | Some e => (db, (-1, Some e))
    | None =>
        (<["ca_settings_info" := (table db "ca_settings_info" ++ [row])%list]> db,
         match lastInsertIdErr env with
         | Some e => (0, Some e)
         | None => (RowID row, None)
         end)
    end.
Proof.
  unfold StoreCADeployment, d.insertCADeployment, SQL.InsertCADeployment.
  rewrite Exec_Insert by reflexivity.
  eexists. split; [|split]; cycle 2.
  - destruct (execErr env); [reflexivity|].
    cbn [result_of LastInsertId]. destruct (lastInsertIdErr env); reflexivity.
  - reflexivity.
  - reflexivity.
Qed.

Lemma StorePodInfo_spec p env db :
  exists row,
    RowID row = next_RowID (table db "pod_info") /\
    cell row "Hash" = VText (if decide (Pod.Hash p = "") then PodInfo_GetHash p
                             else Pod.Hash p) /\
    cell row "Labels" = VText (labelsToText (Pod.Labels p)).1 /\
    StorePodInfo p env db =
    match (labelsToText (Pod.Labels p)).2 with
    | Some err => (db, (-1, Some err))
    | None =>
    match (resourcesToText (Pod.Requests p)).2 with
    | Some err => (db, (-1, Some err))
    | None =>
    match (specToJson (Pod.Spec p)).2 with
    | Some err => (db, (-1, Some err))
    | None =>
    match execErr env with
    | Some e => (db, (-1, Some (fmt_Errorf "could not persist podinfo %s: %w" e)))
    | None =>
        (<["pod_info" := (table db "pod_info" ++ [row])%list]> db,
         match lastInsertIdErr env with
         | Some e => (0, Some e)
         | None => (RowID row, None)
         end)
    end end end end.
Proof.
  unfold StorePodInfo, d.insertPodInfo, SQL.InsertPodInfo.
  set (p' := if decide (Pod.Hash p = "") then _ else p).
  assert (Hl : Pod.Labels p' = Pod.Labels p) by (subst p'; now destruct (decide _)).
  assert (Hr : Pod.Requests p' = Pod.Requests p) by (subst p'; now destruct (decide _)).
  assert (Hs : Pod.Spec p' = Pod.Spec p) by (subst p'; now destruct (decide _)).
  assert (Hh : Pod.Hash p' = if decide (Pod.Hash p = "") then PodInfo_GetHash p
                             else Pod.Hash p) by (subst p'; now destruct (decide _)).
  rewrite Hl, Hr, Hs.
  destruct (labelsToText (Pod.Labels p)) as [labels [e1|]];
  destruct (resourcesToText (Pod.Requests p)) as [requests [e2|]];
  destruct (specToJson (Pod.Spec p)) as [podSpec [e3|]]; cbn [fst snd];
    try (exists (mkRow (next_RowID (table db "pod_info"))
                   [("Hash", VText (Pod.Hash p')); ("Labels", VText labels)]);
         rewrite Hh; repeat split; reflexivity).
  rewrite Exec_Insert by reflexivity.
  eexists. split; [|split; [|split]]; cycle 3.
  - destruct (execErr env); [reflexivity|].
    cbn [result_of LastInsertId]. destruct (lastInsertIdErr env); reflexivity.
  - reflexivity.
  - rewrite <- Hh. reflexivity.
  - reflexivity.
Qed.

End StoreFacts.

Section NodeFacts.
Context `{G : Gcr}.

Lemma deref_delete_key heap ref key :
  deref (delete_key ref key heap) ref = delete key <$> deref heap ref.
Proof. destruct ref as [l|]; [apply lookup_alter_eq | reflexivity]. Qed.

Lemma StoreNodeInfo_spec n env heap db :
  let heap' := delete_key (Node.Labels n) last_applied heap in
  exists row,
    RowID row = next_RowID (table db "node_info") /\
    cell row "Hash" = VText (if decide (Node.Hash n = "")
                             then NodeInfo_GetHash n (deref heap (Node.Labels n))
                             else Node.Hash n) /\
    cell row "Labels" = VText (labelsToText (deref heap' (Node.Labels n))).1 /\
    StoreNodeInfo n env heap db =
    match (labelsToText (deref heap' (Node.Labels n))).2 with
    | Some err => (heap', db, (0, Some err))
    | None =>
    match (taintsToText (Node.Taints n)).2 with
    | Some err => (heap', db, (0, Some err))
    | None =>
    match (resourcesToText (Node.Allocatable n)).2 with
    | Some err => (heap', db, (0, Some err))
    | None =>
    match (resourcesToText (Node.Capacity n)).2 with
    | Some err => (heap', db, (0, Some err))
    | None =>
    match execErr env with
    | Some e => (heap', db, (0, Some e))
    | None => (heap', <["node_info" := (table db "node_info" ++ [row])%list]> db, (0, None))
    end end end end end.
Proof.
  intros heap'. unfold StoreNodeInfo, d.insertNodeInfo, SQL.InsertNodeInfo.
  set (n' := if decide (Node.Hash n = "") then _ else n).
  assert (Hl : Node.Labels n' = Node.Labels n) by (subst n'; now destruct (decide _)).
  assert (Ht : Node.Taints n' = Node.Taints n) by (subst n'; now destruct (decide _)).
  assert (Ha : Node.Allocatable n' = Node.Allocatable n)
    by (subst n'; now destruct (decide _)).
  assert (Hc : Node.Capacity n' = Node.Capacity n) by (subst n'; now destruct (decide _)).
  assert (Hh : Node.Hash n' = if decide (Node.Hash n = "")
                              then NodeInfo_GetHash n (deref heap (Node.Labels n))
                              else Node.Hash n) by (subst n'; now destruct (decide _)).
  rewrite Hl, Ht, Ha, Hc. fold heap'.
  destruct (labelsToText (deref heap' (Node.Labels n))) as [labelsText [e1|]];
  destruct (taintsToText (Node.Taints n)) as [taintsText [e2|]];
  destruct (resourcesToText (Node.Allocatable n)) as [allocatableText [e3|]];
  destruct (resourcesToText (Node.Capacity n)) as [capacityText [e4|]]; cbn [fst snd];
    try (exists (mkRow (next_RowID (table db "node_info"))
                   [("Hash", VText (Node.Hash n')); ("Labels", VText labelsText)]);
         rewrite Hh; repeat split; reflexivity).
  rewrite Exec_Insert by reflexivity.
  eexists. split; [|split; [|split]]; cycle 3.
  - destruct (execErr env); reflexivity.
  - reflexivity.
  - rewrite <- Hh. reflexivity.
  - reflexivity.
Qed.

(** The identifier [StoreNodeInfo] returns is 0 on every path. *)
Lemma StoreNodeInfo_rowID n env heap db : (StoreNodeInfo n env heap db).2.1 = 0.
Proof.
  destruct (StoreNodeInfo_spec n env heap db) as (row & _ & _ & _ & ->).
  repeat (match goal with |- context [match ?x with _ => _ end] => destruct x end);
    reflexivity.
Qed.

(** The row a successful [StoreNodeInfo] inserts. *)
Lemma StoreNodeInfo_inserted_row n env heap db :
  (StoreNodeInfo n env heap db).2.2 = None ->
  exists row,
    table (StoreNodeInfo n env heap db).1.2 "node_info"
      = (table db "node_info" ++ [row])%list /\
    cell row "Hash"
      = VText (if decide (Node.Hash n = "")
               then NodeInfo_GetHash n (deref heap (Node.Labels n))
               else Node.Hash n).
Proof.
  destruct (StoreNodeInfo_spec n env heap db) as (row & _ & Hh & _ & ->).
  destruct (labelsToText _).2; [discriminate|].
  destruct (taintsToText _).2; [discriminate|].
  destruct (resourcesToText (Node.Allocatable n)).2; [discriminate|].
  destruct (resourcesToText (Node.Capacity n)).2; [discriminate|].
  destruct (execErr env); [discriminate|].
  intros _. exists row. split; [apply table_insert_eq | exact Hh].
Qed.

(** C9. [StoreNodeInfo] removes the key
    [node.machine.sapcloud.io/last-applied-anno-labels-taints] from the map
    the caller's [NodeInfo] refers to, in place and on every path, leaving
    the other maps alone; the labels of the row it inserts are the encoding
    of the map without that key; the hash of that row, when [StoreNodeInfo]
    computes it, is [GetHash] on the labels as they were before the removal. *)
Theorem StoreNodeInfo_drops_label (n : NodeInfo) (env : Env)
    (heap : gmap nat (gmap string string)) (db : gmap string (list Row)) :
  let out := StoreNodeInfo n env heap db in
  let key := "node.machine.sapcloud.io/last-applied-anno-labels-taints" in
  out.1.1 = delete_key (Node.Labels n) key heap /\
  deref out.1.1 (Node.Labels n) = delete key <$> deref heap (Node.Labels n) /\
  (forall m, deref out.1.1 (Node.Labels n) = Some m -> m !! key = None) /\
  (forall l, Node.Labels n <> Some l -> out.1.1 !! l = heap !! l) /\
  (out.2.2 = None ->
   exists row,
     table out.1.2 "node_info" = (table db "node_info" ++ [row])%list /\
     cell row "Labels"
       = VText (labelsToText (delete key <$> deref heap (Node.Labels n))).1 /\
     cell row "Hash"
       = VText (if decide (Node.Hash n = "")
                then NodeInfo_GetHash n (deref heap (Node.Labels n))
                else Node.Hash n)).
Proof.
  intros out key. change key with last_applied. clear key.
  assert (Hheap : out.1.1 = delete_key (Node.Labels n) last_applied heap).
  { subst out. destruct (StoreNodeInfo_spec n env heap db) as (row & _ & _ & _ & ->).
    repeat (match goal with |- context [match ?x with _ => _ end] => destruct x end);
      reflexivity. }
  split; [exact Hheap|]. rewrite Hheap.
  split; [apply deref_delete_key|].
  split; [|split].
  - intros m. rewrite deref_delete_key.
    destruct (deref heap (Node.Labels n)) as [m0|]; [|discriminate].
    cbn. intros [= <-]. apply lookup_delete_eq.
  - intros l Hl. unfold delete_key. destruct (Node.Labels n) as [l0|]; [|reflexivity].
    apply lookup_alter_ne. congruence.
  - subst out. destruct (StoreNodeInfo_spec n env heap db) as (row & _ & Hh & Hlab & ->).
    rewrite deref_delete_key in Hlab.
    destruct (labelsToText _).2; [discriminate|].
    destruct (taintsToText _).2; [discriminate|].
    destruct (resourcesToText (Node.Allocatable n)).2; [discriminate|].
    destruct (resourcesToText (Node.Capacity n)).2; [discriminate|].
    destruct (execErr env); [discriminate|].
    intros _. exists row. split; [apply table_insert_eq|]. split; assumption.
Qed.

End NodeFacts.

Lemma StoreNodeInfo_drops_label_witness :
  let out := @StoreNodeInfo Sample.external Sample.gcr Sample.n1 ok Sample.heap1 ∅ in
  let key := "node.machine.sapcloud.io/last-applied-anno-labels-taints" in
  Sample.heap1 !! 7%nat = Some {[ "a" := "b"; key := "x" ]} /\
  out.1.1 = {[ 7%nat := {[ "a" := "b" ]} ]} /\
  (forall m, out.1.1 !! 7%nat = Some m -> m !! key = None) /\
  exists row,
    table out.1.2 "node_info" = [row] /\
    cell row "Labels" = VText (Sample.write_object (Some {[ "a" := "b" ]})) /\
    cell row "Hash"
      = VText ("node:n1" +:+ Sample.write_object (Some {[ "a" := "b"; key := "x" ]})).
Proof.
  intros out key.
  destruct (@StoreNodeInfo_drops_label Sample.external Sample.gcr Sample.n1 ok
              Sample.heap1 ∅) as (H1 & _ & H3 & _ & H5).
  split; [vm_compute; reflexivity|].
  split; [|split].
  - subst out. rewrite H1. vm_compute. reflexivity.
  - exact H3.
  - destruct (H5 eq_refl) as (row & Ht & Hl & Hh).
    exists row. split; [exact Ht|]. split.
    + rewrite Hl. vm_compute. reflexivity.
    + rewrite Hh. vm_compute. reflexivity.
Defined.

Section WriteFacts.
Context `{G : Gcr}.

(** C6 (amended). A [MachineDeploymentInfo], [WorkerPoolInfo], [PodInfo] or
    [NodeInfo] that is stored gets one new row whose hash is [GetHash] of the
    object when its [Hash] field is empty, and the field as it is otherwise;
    a [CASettingsInfo] is stored with its [Hash] field as it is. *)
Theorem Store_persists_hash (m : MachineDeploymentInfo) (w : WorkerPoolInfo)
    (p : PodInfo) (n : NodeInfo) (ca : CASettingsInfo) (env : Env)
    (heap : gmap nat (gmap string string)) (db : gmap string (list Row)) :
  ((StoreMachineDeploymentInfo m env db).2.2 = None ->
   exists row,
     table (StoreMachineDeploymentInfo m env db).1 "mcd_info"
       = (table db "mcd_info" ++ [row])%list /\
     cell row "Hash" = VText (if decide (MachineDeployment.Hash m = "")
                              then MachineDeploymentInfo_GetHash m
                              else MachineDeployment.Hash m)) /\
  ((StoreWorkerPoolInfo w env db).2.2 = None ->
   exists row,
     table (StoreWorkerPoolInfo w env db).1 "worker_pool_info"
       = (table db "worker_pool_info" ++ [row])%list /\
     cell row "Hash" = VText (if decide (WorkerPool.Hash w = "")
                              then WorkerPoolInfo_GetHash w
                              else WorkerPool.Hash w)) /\
  ((StorePodInfo p env db).2.2 = None ->
   exists row,
     table (StorePodInfo p env db).1 "pod_info" = (table db "pod_info" ++ [row])%list /\
     cell row "Hash" = VText (if decide (Pod.Hash p = "")
                              then PodInfo_GetHash p
                              else Pod.Hash p)) /\
  ((StoreNodeInfo n env heap db).2.2 = None ->
   exists row,
     table (StoreNodeInfo n env heap db).1.2 "node_info"
       = (table db "node_info" ++ [row])%list /\
     cell row "Hash" = VText (if decide (Node.Hash n = "")
                              then NodeInfo_GetHash n (deref heap (Node.Labels n))
                              else Node.Hash n)) /\
  ((StoreCADeployment ca env db).2.2 = None ->
   exists row,
     table (StoreCADeployment ca env db).1 "ca_settings_info"
       = (table db "ca_settings_info" ++ [row])%list /\
     cell row "Hash" = VText (CASettings.Hash ca)).
Proof.
  repeat split.
  - destruct (StoreMachineDeploymentInfo_spec m env db) as (row & _ & _ & Hh & ->).
    destruct (execErr env); [discriminate|]. cbn [fst snd].
    intros _. exists row. split; [apply table_insert_eq | exact Hh].
  - destruct (StoreWorkerPoolInfo_spec w env db) as (row & _ & Hh & ->).
    destruct (execErr env); [discriminate|]. cbn [fst snd].
    intros _. exists row. split; [apply table_insert_eq | exact Hh].
  - destruct (StorePodInfo_spec p env db) as (row & _ & Hh & _ & ->).
    destruct (labelsToText _).2; [discriminate|].
    destruct (resourcesToText _).2; [discriminate|].
    destruct (specToJson _).2; [discriminate|].
    destruct (execErr env); [discriminate|]. cbn [fst snd].
    intros _. exists row. split; [apply table_insert_eq | exact Hh].
  - intros Hok.
    destruct (StoreNodeInfo_inserted_row n env heap db Hok) as (row & Ht & Hh).
    exists row. split; assumption.
  - destruct (StoreCADeployment_spec ca env db) as (row & _ & Hh & ->).
    destruct (execErr env); [discriminate|]. cbn [fst snd].
    intros _. exists row. split; [apply table_insert_eq | exact Hh].
Qed.

Lemma StoreEventInfo_failure (event : EventInfo) (env : Env) (db : gmap string (list Row)) :
  (StoreEventInfo event env db).2 <> None -> (StoreEventInfo event env db).1 = db.
Proof.
  unfold StoreEventInfo, InsertEvent. rewrite Exec_Insert by reflexivity.
  destruct (execErr env); cbn [fst snd]; [reflexivity | contradiction].
Qed.

(** C8. With the driver the file imports, every write is atomic with respect
    to failures: a [Store] operation that returns an error has inserted no
    row and leaves the database as it was.  In particular a failure to encode
    the labels, the requests or the spec of a pod, or the labels, the taints,
    the allocatable or the capacity resources of a node, and a failure to
    execute the insert statement of an operation, makes the call fail with
    the database unchanged. *)
Theorem Store_failure_atomic (m : MachineDeploymentInfo) (w : WorkerPoolInfo)
    (p : PodInfo) (n : NodeInfo) (ca : CASettingsInfo) (event : EventInfo) (env : Env)
    (heap : gmap nat (gmap string string)) (db : gmap string (list Row)) :
  go_sqlite env ->
  (((StoreMachineDeploymentInfo m env db).2.2 <> None ->
    (StoreMachineDeploymentInfo m env db).1 = db) /\
   ((StoreWorkerPoolInfo w env db).2.2 <> None -> (StoreWorkerPoolInfo w env db).1 = db) /\
   ((StorePodInfo p env db).2.2 <> None -> (StorePodInfo p env db).1 = db) /\
   ((StoreNodeInfo n env heap db).2.2 <> None -> (StoreNodeInfo n env heap db).1.2 = db) /\
   ((StoreCADeployment ca env db).2.2 <> None -> (StoreCADeployment ca env db).1 = db) /\
   ((StoreEventInfo event env db).2 <> None -> (StoreEventInfo event env db).1 = db)) /\
  ((labelsToText (Pod.Labels p)).2 <> None \/ (resourcesToText (Pod.Requests p)).2 <> None \/
   (specToJson (Pod.Spec p)).2 <> None \/ execErr env <> None ->
   (StorePodInfo p env db).1 = db /\ (StorePodInfo p env db).2.2 <> None) /\
  ((labelsToText
      (deref (delete_key (Node.Labels n)
                "node.machine.sapcloud.io/last-applied-anno-labels-taints" heap)
         (Node.Labels n))).2 <> None \/
   (taintsToText (Node.Taints n)).2 <> None \/
   (resourcesToText (Node.Allocatable n)).2 <> None \/
   (resourcesToText (Node.Capacity n)).2 <> None \/ execErr env <> None ->
   (StoreNodeInfo n env heap db).1.2 = db /\ (StoreNodeInfo n env heap db).2.2 <> None) /\
  (execErr env <> None ->
   ((StoreMachineDeploymentInfo m env db).1 = db /\
    (StoreMachineDeploymentInfo m env db).2.2 <> None) /\
   ((StoreWorkerPoolInfo w env db).1 = db /\ (StoreWorkerPoolInfo w env db).2.2 <> None) /\
   ((StoreCADeployment ca env db).1 = db /\ (StoreCADeployment ca env db).2.2 <> None)).
Proof.
  unfold go_sqlite. intros Hdriver.
  change "node.machine.sapcloud.io/last-applied-anno-labels-taints" with last_applied.
  pose proof (StoreEventInfo_failure event env db) as Hevent. revert Hevent.
  generalize (StoreEventInfo event env db). intros storedEvent Hevent.
  destruct (StorePodInfo_spec p env db) as (rp & _ & _ & _ & ->).
  destruct (StoreNodeInfo_spec n env heap db) as (rn & _ & _ & _ & ->).
  destruct (StoreMachineDeploymentInfo_spec m env db) as (rm & _ & _ & _ & ->).
  destruct (StoreWorkerPoolInfo_spec w env db) as (rw & _ & _ & ->).
  destruct (StoreCADeployment_spec ca env db) as (rc & _ & _ & ->).
  rewrite !Hdriver.
  destruct (labelsToText (Pod.Labels p)).2, (resourcesToText (Pod.Requests p)).2,
    (specToJson (Pod.Spec p)).2,
    (labelsToText (deref (delete_key (Node.Labels n) last_applied heap) (Node.Labels n))).2,
    (taintsToText (Node.Taints n)).2, (resourcesToText (Node.Allocatable n)).2,
    (resourcesToText (Node.Capacity n)).2, (execErr env);
    cbn [fst snd]; repeat split; try discriminate; try reflexivity; try tauto;
    try congruence.
Qed.

End WriteFacts.

Lemma Store_persists_hash_witness :
  (exists row,
     table (@StoreMachineDeploymentInfo Sample.external Sample.gcr Sample.mcd1 ok ∅).1
       "mcd_info" = [row] /\
     cell row "Hash" = VText "mcd:mcd-a") /\
  (exists row,
     table (@StoreWorkerPoolInfo Sample.external Sample.gcr Sample.pool1 ok ∅).1
       "worker_pool_info" = [row] /\
     cell row "Hash" = VText "h-set").
Proof.
  destruct (@Store_persists_hash Sample.external Sample.gcr Sample.mcd1 Sample.pool1
              Sample.pod1 Sample.n1 Sample.ca1 ok Sample.heap1 ∅) as (H1 & H2 & _).
  split.
  - destruct (H1 eq_refl) as (row & Ht & Hh).
    exists row. split; [exact Ht | rewrite Hh; reflexivity].
  - destruct (H2 eq_refl) as (row & Ht & Hh).
    exists row. split; [exact Ht | rewrite Hh; reflexivity].
Defined.

(** C6 as stated fails for [StoreCADeployment]: a [CASettingsInfo] with an
    empty [Hash] is stored with the empty hash. *)
Lemma StoreCADeployment_keeps_empty_Hash :
  let ca := {| CASettings.Expander := "least-waste"; CASettings.MaxNodesTotal := 10;
               CASettings.Priorities := ""; CASettings.Hash := "" |} in
  (StoreCADeployment ca ok ∅).2 = (1, None) /\
  map (fun r => cell r "Hash") (table (StoreCADeployment ca ok ∅).1 "ca_settings_info")
  = [VText ""].
Proof. intros ca. split; vm_compute; reflexivity. Qed.

Lemma Store_failure_atomic_witness :
  let p := @Pod.mk Sample.external Sample.T0 Sample.T0 "p2" "default" "uid-2" "" ""
             None None "" 0 "" in
  let busy := {| execErr := Some (errors_New "database is locked"); lastInsertIdErr := None;
                 rowsAffectedErr := None; queryErr := None; closeErr := None;
                 checkNumInput := false |} in
  let db := (@StorePodInfo Sample.external Sample.gcr Sample.pod1 ok ∅).1 in
  table db "pod_info" <> [] /\
  ((@StorePodInfo Sample.external Sample.gcr p ok db).1 = db /\
   (@StorePodInfo Sample.external Sample.gcr p ok db).2.2 <> None) /\
  (@StoreMachineDeploymentInfo Sample.external Sample.gcr Sample.mcd1 busy db).1 = db.
Proof.
  intros p busy db. split; [vm_compute; discriminate|]. split.
  - apply (@Store_failure_atomic Sample.external Sample.gcr Sample.mcd1 Sample.pool1
             p Sample.n1 Sample.ca1 SampleRows.event1 ok Sample.heap1 db eq_refl).
    right; right; left. vm_compute. discriminate.
  - apply (@Store_failure_atomic Sample.external Sample.gcr Sample.mcd1 Sample.pool1
             p Sample.n1 Sample.ca1 SampleRows.event1 busy Sample.heap1 db eq_refl).
    vm_compute. discriminate.
Defined.

Section RowIDFacts.
Context `{G : Gcr}.

(** The three operations that read [LastInsertId] return, on success, the
    identifier of the row they appended, which is positive and new. *)
Lemma Store_returns_RowID m w p env db :
  (forall rowID, (StoreMachineDeploymentInfo m env db).2 = (rowID, None) ->
     0 < rowID /\ exists row, RowID row = rowID /\
       table (StoreMachineDeploymentInfo m env db).1 "mcd_info"
       = (table db "mcd_info" ++ [row])%list) /\
  (forall rowID, (StoreWorkerPoolInfo w env db).2 = (rowID, None) ->
     0 < rowID /\ exists row, RowID row = rowID /\
       table (StoreWorkerPoolInfo w env db).1 "worker_pool_info"
       = (table db "worker_pool_info" ++ [row])%list) /\
  (forall rowID, (StorePodInfo p env db).2 = (rowID, None) ->
     0 < rowID /\ exists row, RowID row = rowID /\
       table (StorePodInfo p env db).1 "pod_info" = (table db "pod_info" ++ [row])%list).
Proof.
  split; [|split]; intros rowID Hret.
  - destruct (StoreMachineDeploymentInfo_spec m env db) as (row & Hid & _ & _ & Hs).
    rewrite Hs in *.
    destruct (execErr env), (lastInsertIdErr env); cbn [fst snd] in *; try discriminate.
    inversion Hret; subst rowID. split; [rewrite Hid; apply next_RowID_pos|].
    exists row. split; [reflexivity | apply table_insert_eq].
  - destruct (StoreWorkerPoolInfo_spec w env db) as (row & Hid & _ & Hs).
    rewrite Hs in *.
    destruct (execErr env), (lastInsertIdErr env); cbn [fst snd] in *; try discriminate.
    inversion Hret; subst rowID. split; [rewrite Hid; apply next_RowID_pos|].
    exists row. split; [reflexivity | apply table_insert_eq].
  - destruct (StorePodInfo_spec p env db) as (row & Hid & _ & _ & Hs).
    rewrite Hs in *.
    destruct (labelsToText (Pod.Labels p)).2; [discriminate Hret|].
    destruct (resourcesToText (Pod.Requests p)).2; [discriminate Hret|].
    destruct (specToJson (Pod.Spec p)).2; [discriminate Hret|].
    destruct (execErr env), (lastInsertIdErr env); cbn [fst snd] in *; try discriminate.
    inversion Hret; subst rowID. split; [rewrite Hid; apply next_RowID_pos|].
    exists row. split; [reflexivity | apply table_insert_eq].
Qed.

(** [GetCADeploymentWithHash] runs the statement of [GetLatestCADeployment]
    with one argument more: with a driver that reports its placeholders the
    call is refused, otherwise the argument is ignored. *)
Lemma GetCADeploymentWithHash_is_latest Hash env db :
  GetCADeploymentWithHash Hash env db =
  if checkNumInput env
  then (None, Some (errors_New "sql: expected a different number of arguments"))
  else GetLatestCADeployment env db.
Proof.
  unfold GetCADeploymentWithHash, GetLatestCADeployment, Stmt_Query, argsErr. cbn.
  destruct (checkNumInput env); reflexivity.
Qed.

End RowIDFacts.

Section UpdateFacts.

Lemma assoc_set_assoc column v cs : assoc column (set_assoc column v cs) = v.
Proof.
  induction cs as [|[c w] cs IH]; cbn [set_assoc assoc].
  - destruct (decide (column = column)); [reflexivity | contradiction].
  - destruct (decide (c = column)) as [Heq|Hne]; cbn [assoc].
    + destruct (decide (c = column)); [reflexivity | contradiction].
    + destruct (decide (c = column)); [contradiction | exact IH].
Qed.

Lemma Exec_UpdateSet t column key v k env db :
  execErr env = None ->
  (Stmt_Exec (SQL.UpdateSet t column key) [v; k] env db).1 =
  <[t := map (fun r => if bool_decide (cell r key = k) then set_cell column v r else r)
             (table db t)]> db.
Proof.
  intros Hexec. unfold Stmt_Exec, argsErr. cbn. rewrite andb_false_r, Hexec. reflexivity.
Qed.

(** After an update that is executed, every row of the key holds the bound
    value in the updated column. *)
Lemma UpdateSet_rows t column key v k env db r :
  execErr env = None ->
  r ∈ table (Stmt_Exec (SQL.UpdateSet t column key) [v; k] env db).1 t ->
  cell r key = k -> cell r column = v.
Proof.
  intros Hexec. rewrite (Exec_UpdateSet _ _ _ _ _ _ _ Hexec), table_insert_eq.
  intros Hr Hkey. apply list_elem_of_fmap in Hr as (r0 & -> & _).
  destruct (bool_decide (cell r0 key = k)) eqn:Hhit.
  - apply assoc_set_assoc.
  - apply bool_decide_eq_false in Hhit. contradiction.
Qed.

Lemma Update_db (s : SQL.Stmt) args env db fail :
  (match Stmt_Exec s args env db with
   | (db', inr err) => (db', (fail, Some err))
   | (db', inl result) =>
       match RowsAffected result with
       | (_, Some err) => (db', (fail, Some err))
       | (updated, None) => (db', (updated, None))
       end
   end).1 = (Stmt_Exec s args env db).1.
Proof.
  destruct (Stmt_Exec s args env db) as [db' [result|err]]; [|reflexivity].
  destruct (RowsAffected result) as [updated [err|]]; reflexivity.
Qed.

(** What each deletion-timestamp update leaves in the rows of its key: the
    [time.Time] value for nodes and machine deployments, the milliseconds
    since the epoch for pods. *)
Lemma UpdateDeletionTimestamp_rows key t env db r :
  execErr env = None ->
  (r ∈ table (UpdateNodeInfoDeletionTimestamp key t env db).1 "node_info" ->
   cell r "Name" = VText key -> cell r "DeletionTimestamp" = VTime t) /\
  (r ∈ table (UpdateMCDInfoDeletionTimestamp key t env db).1 "mcd_info" ->
   cell r "Name" = VText key -> cell r "DeletionTimestamp" = VTime t) /\
  (r ∈ table (UpdatePodDeletionTimestamp key t env db).1 "pod_info" ->
   cell r "UID" = VText key ->
   cell r "DeletionTimestamp" = VInt (Time_UnixMilli (Time_UTC t))).
Proof.
  intros Hexec.
  unfold UpdateNodeInfoDeletionTimestamp, UpdateMCDInfoDeletionTimestamp,
    UpdatePodDeletionTimestamp.
  rewrite !Update_db. repeat split; apply UpdateSet_rows; assumption.
Qed.

Lemma adjustParam_Time t : adjustParam (VTime t) = VInt (Time_UnixMilli (Time_UTC t)).
Proof. reflexivity. Qed.

(** The location of a time does not change its milliseconds. *)
Lemma UnixMilli_UTC t : Time_UnixMilli (Time_UTC t) = Time_UnixMilli t.
Proof. reflexivity. Qed.

End UpdateFacts.

(** C1 (defect of the code). [StoreNodeInfo] appends a row, which the engine
    gives the identifier 1, and returns 0 with a [nil] error; on the same
    input kinds [StorePodInfo], [StoreMachineDeploymentInfo] and
    [StoreWorkerPoolInfo] return the generated identifier. *)
Theorem StoreNodeInfo_returns_zero :
  let out := @StoreNodeInfo Sample.external Sample.gcr Sample.n1 ok Sample.heap1 ∅ in
  out.2 = (0, None) /\
  map RowID (table out.1.2 "node_info") = [1] /\
  (@StorePodInfo Sample.external Sample.gcr Sample.pod1 ok ∅).2 = (1, None) /\
  (@StoreMachineDeploymentInfo Sample.external Sample.gcr Sample.mcd1 ok ∅).2 = (1, None) /\
  (@StoreWorkerPoolInfo Sample.external Sample.gcr Sample.pool1 ok ∅).2 = (1, None).
Proof. intros out. repeat split; vm_compute; reflexivity. Qed.

(** C2 (defect of the code). [UpdateNodeInfoDeletionTimestamp] and
    [UpdateMCDInfoDeletionTimestamp] bind the [time.Time] value itself, which
    is what the row then holds, where [UpdatePodDeletionTimestamp] binds the
    milliseconds since the epoch; and [queryAndMapToInfo] binds a timestamp
    as it is given, so that it finds no row where [queryAndMapToInfos], which
    converts it, finds one. *)
Theorem UpdateNodeInfoDeletionTimestamp_binds_Time :
  let node_db := (@StoreNodeInfo Sample.external Sample.gcr Sample.n1 ok Sample.heap1 ∅).1.2 in
  let mcd_db := (@StoreMachineDeploymentInfo Sample.external Sample.gcr Sample.mcd1 ok ∅).1 in
  let pod_db := (@StorePodInfo Sample.external Sample.gcr Sample.pod1 ok ∅).1 in
  let DeletionTimestamps t db := map (fun r => cell r "DeletionTimestamp") (table db t) in
  let byCreation := SQL.SelectLatestBy "mcd_info" "CreationTimestamp" in
  Time_UnixMilli (Time_UTC Sample.T0) = 1700000000123 /\
  (UpdateNodeInfoDeletionTimestamp "n1" Sample.T0 ok node_db).2 = (1, None) /\
  DeletionTimestamps "node_info" (UpdateNodeInfoDeletionTimestamp "n1" Sample.T0 ok node_db).1
  = [VTime Sample.T0] /\
  DeletionTimestamps "mcd_info" (UpdateMCDInfoDeletionTimestamp "mcd-a" Sample.T0 ok mcd_db).1
  = [VTime Sample.T0] /\
  DeletionTimestamps "pod_info" (UpdatePodDeletionTimestamp "uid-1" Sample.T0 ok pod_db).1
  = [VInt 1700000000123] /\
  (queryAndMapToInfos (I := @MachineDeploymentInfo Sample.external) (T := Row)
     (rowT := Sample.mcd_AsInfo) (scanT := fun r => inl r)
     byCreation [VTime Sample.T0] ok mcd_db).2 = None /\
  (queryAndMapToInfo (I := @MachineDeploymentInfo Sample.external) (T := Row)
     (rowT := Sample.mcd_AsInfo) (scanT := fun r => inl r)
     (zeroI := @MachineDeploymentInfo_Zero Sample.external Sample.gcr)
     byCreation [VTime Sample.T0] ok mcd_db).2
  = Some (fmt_Errorf "could not find rows for statement: %w" sql_ErrNoRows).
Proof. intros node_db mcd_db pod_db DeletionTimestamps byCreation.
  repeat split; vm_compute; reflexivity. Qed.

(** C10 (defect of the code). With one deployment of hash [h1] recorded and
    none of hash [h2], [GetCADeploymentWithHash "h2"] does not return
    [(nil, nil)]: it runs [selectLatestCADeployment], not
    [selectCADeploymentByHash], and returns the deployment of hash [h1], or
    the driver's refusal of the surplus argument.  On an empty table both
    functions return [(nil, nil)]. *)
Theorem GetCADeploymentWithHash_returns_latest :
  let db := (StoreCADeployment Sample.ca1 ok ∅).1 in
  let strict := {| execErr := None; lastInsertIdErr := None; rowsAffectedErr := None;
                   queryErr := None; closeErr := None; checkNumInput := true |} in
  Stmt_Query d.selectCADeploymentByHash [VText "h2"] ok db = inl [] /\
  GetCADeploymentWithHash "h2" ok db = (Some Sample.ca1, None) /\
  GetCADeploymentWithHash "h2" strict db
  = (None, Some (errors_New "sql: expected a different number of arguments")) /\
  GetLatestCADeployment ok db = (Some Sample.ca1, None) /\
  GetLatestCADeployment ok ∅ = (None, None) /\
  GetCADeploymentWithHash "h2" ok ∅ = (None, None).
Proof. intros db strict. repeat split; vm_compute; reflexivity. Qed.

(** * Further properties of the codec *)

Section CodecMore.
Context `{E : External}.

Lemma wraps_Errorf format cause : wraps (Some (fmt_Errorf format cause)) cause.
Proof.
  exists (fmt_Errorf format cause). split; [reflexivity|].
  intros target Ht. cbn [errors_Is].
  destruct (decide (fmt_Errorf format cause = target)); [reflexivity | exact Ht].
Qed.

(** An empty map or slice that is not [nil] does not survive the round trip:
    it is encoded as the empty string, which is decoded as [nil]. *)
Lemma empty_decodes_as_nil
    (labels : GoMap string) (resources : GoMap Quantity) (taints : GoSlice Taint)
    (tolerations : GoSlice Toleration) (tsc : GoSlice TopologySpreadConstraint) :
  len_map labels = 0%nat -> len_map resources = 0%nat -> len_slice taints = 0%nat ->
  len_slice tolerations = 0%nat -> len_slice tsc = 0%nat ->
  labelsFromText (labelsToText labels).1 = (None, None) /\
  resourcesFromText (resourcesToText resources).1 = (None, None) /\
  taintsFromText (taintsToText taints).1 = (None, None) /\
  tolerationsFromText (tolerationsToText tolerations).1 = (None, None) /\
  tscFromText (tscToText tsc).1 = (None, None).
Proof.
  intros H1 H2 H3 H4 H5.
  destruct encode_empty as (E1 & E2 & E3 & E4 & E5).
  rewrite (E1 _ H1), (E2 _ H2), (E3 _ H3), (E4 _ H4), (E5 _ H5). cbn [fst].
  apply decode_trimmed. reflexivity.
Qed.

(** When the JSON library refuses a value, the encoder returns the empty
    text and an error in which [errors.Is] still finds the library's error. *)
Lemma encoder_failure
    (labels : GoMap string) (resources : GoMap Quantity) (taints : GoSlice Taint)
    (tolerations : GoSlice Toleration) (tsc : GoSlice TopologySpreadConstraint)
    (podSpec : PodSpec) (cause : error) :
  (len_map labels <> 0%nat -> Marshal_labels labels = inr cause ->
   (labelsToText labels).1 = "" /\ wraps (labelsToText labels).2 cause) /\
  (len_map resources <> 0%nat -> Marshal_resources resources = inr cause ->
   (resourcesToText resources).1 = "" /\ wraps (resourcesToText resources).2 cause) /\
  (len_slice taints <> 0%nat -> Marshal_taints taints = inr cause ->
   (taintsToText taints).1 = "" /\ wraps (taintsToText taints).2 cause) /\
  (len_slice tolerations <> 0%nat -> Marshal_tolerations tolerations = inr cause ->
   (tolerationsToText tolerations).1 = "" /\ wraps (tolerationsToText tolerations).2 cause) /\
  (len_slice tsc <> 0%nat -> Marshal_tsc tsc = inr cause ->
   (tscToText tsc).1 = "" /\ wraps (tscToText tsc).2 cause) /\
  (Marshal_podSpec podSpec = inr cause ->
   (specToJson podSpec).1 = "" /\ wraps (specToJson podSpec).2 cause).
Proof.
  unfold labelsToText, resourcesToText, taintsToText, tolerationsToText, tscToText,
    specToJson.
  split; [|split; [|split; [|split; [|split]]]].
  - intros Hlen%len_map_nonzero Hm. rewrite Hlen, Hm. split; [reflexivity|].
    apply wraps_Errorf.
  - intros Hlen%len_map_nonzero Hm. rewrite Hlen, Hm. split; [reflexivity|].
    apply wraps_Errorf.
  - intros Hlen%len_slice_nonzero Hm. rewrite Hlen, Hm. split; [reflexivity|].
    apply wraps_Errorf.
  - intros Hlen%len_slice_nonzero Hm. rewrite Hlen, Hm. split; [reflexivity|].
    apply wraps_Errorf.
  - intros Hlen%len_slice_nonzero Hm. rewrite Hlen, Hm. split; [reflexivity|].
    apply wraps_Errorf.
  - intros Hm. rewrite Hm. split; [reflexivity|]. apply wraps_Errorf.
Qed.

(** When the JSON library rejects a text that is not blank, the decoder
    returns what the library had filled in and an error in which [errors.Is]
    still finds the library's error. *)
Lemma decoder_failure (text : string) (cause : error)
    (labels : GoMap string) (resources : GoMap Quantity) (taints : GoSlice Taint)
    (tolerations : GoSlice Toleration) (tsc : GoSlice TopologySpreadConstraint) :
  strings_TrimSpace text <> "" ->
  (Unmarshal_labels text = (labels, Some cause) ->
   (labelsFromText text).1 = labels /\ wraps (labelsFromText text).2 cause) /\
  (Unmarshal_resources text = (resources, Some cause) ->
   (resourcesFromText text).1 = resources /\ wraps (resourcesFromText text).2 cause) /\
  (Unmarshal_taints text = (taints, Some cause) ->
   (taintsFromText text).1 = taints /\ wraps (taintsFromText text).2 cause) /\
  (Unmarshal_tolerations text = (tolerations, Some cause) ->
   (tolerationsFromText text).1 = tolerations /\
   wraps (tolerationsFromText text).2 cause) /\
  (Unmarshal_tsc text = (tsc, Some cause) ->
   (tscFromText text).1 = tsc /\ wraps (tscFromText text).2 cause).
Proof.
  intros Hb.
  unfold labelsFromText, resourcesFromText, taintsFromText, tolerationsFromText,
    tscFromText.
  destruct (decide (strings_TrimSpace text = "")); [contradiction|].
  split; [|split; [|split; [|split]]]; intros Hu; rewrite Hu;
    (split; [reflexivity | apply wraps_Errorf]).
Qed.

End CodecMore.

Lemma empty_decodes_as_nil_witness :
  @labelsFromText Sample.external (@labelsToText Sample.external (Some ∅)).1 = (None, None) /\
  @taintsFromText Sample.external (@taintsToText Sample.external (Some [])).1 = (None, None).
Proof.
  pose proof (@empty_decodes_as_nil Sample.external (Some ∅) (Some ∅) (Some []) (Some [])
                (Some [])) as H.
  destruct H as (H1 & _ & H3 & _); try (vm_compute; reflexivity).
  exact (conj H1 H3).
Defined.

Lemma encoder_failure_witness :
  (@specToJson Sample.external "").1 = "" /\
  wraps (@specToJson Sample.external "").2 (errors_New "json: error calling MarshalJSON").
Proof.
  apply (@encoder_failure Sample.external None None None None None ""
           (errors_New "json: error calling MarshalJSON")).
  reflexivity.
Defined.

Lemma decoder_failure_witness :
  (@labelsFromText Sample.external "{oops").1 = None /\
  wraps (@labelsFromText Sample.external "{oops").2 (errors_New "invalid character").
Proof.
  apply (@decoder_failure Sample.external "{oops" (errors_New "invalid character")
           None None None None None).
  - vm_compute. discriminate.
  - reflexivity.
Defined.

(** * Further properties of the generic queries *)

Section QueryMore.
Context {I T : Type} {rowT : row I T} {scanT : Scan T}.

Lemma scan_Rows_ok rows rowObjs :
  scan_Rows rows = inl rowObjs -> Forall2 (fun r x => scan_struct r = inl x) rows rowObjs.
Proof.
  revert rowObjs. induction rows as [|r rows IH]; intros rowObjs; cbn [scan_Rows].
  - intros [= <-]. constructor.
  - destruct (scan_struct r) as [x|e] eqn:Hx; [|discriminate].
    destruct (scan_Rows rows) as [xs|e]; [|discriminate].
    intros [= <-]. constructor; [exact Hx | apply IH; reflexivity].
Qed.

Lemma mapToInfos_ok rowObjs acc res :
  mapToInfos rowObjs acc = (res, None) ->
  exists infos,
    Forall2 (fun x i => AsInfo x = (i, None)) rowObjs infos /\
    (rowObjs = [] -> res = acc) /\
    (rowObjs <> [] -> res = Some (default [] acc ++ infos)%list).
Proof.
  revert acc. induction rowObjs as [|x rowObjs IH]; intros acc; cbn [mapToInfos].
  - intros [= <-]. exists []. repeat split; [constructor | contradiction].
  - destruct (AsInfo x) as [i [e|]] eqn:Hx; [discriminate|].
    intros Hrest. destruct (IH _ Hrest) as (infos & HF & Hnil & Hcons).
    exists (i :: infos). split; [constructor; assumption|]. split; [discriminate|].
    intros _. destruct rowObjs as [|y rowObjs].
    + inversion HF; subst. rewrite (Hnil eq_refl). reflexivity.
    + rewrite Hcons by discriminate. unfold append. simpl.
      f_equal. rewrite <- (assoc_L (++)). reflexivity.
Qed.

Lemma mapToInfos_err rowObjs acc res e :
  mapToInfos rowObjs acc = (res, Some e) -> res = None.
Proof.
  revert acc. induction rowObjs as [|x rowObjs IH]; intros acc; cbn [mapToInfos].
  - discriminate.
  - destruct (AsInfo x) as [i [e'|]]; [now intros [= <- _] | apply IH].
Qed.

(** [queryAndMapToInfos] returns all or nothing: with an error it returns no
    object at all, whichever step failed; without one it returns exactly one
    object for each row of the answer, in the order of the rows, each the
    [AsInfo] of the scanned row, and at least one. *)
Theorem queryAndMapToInfos_all_or_nothing (stmt : SQL.Stmt) (params : list value)
    (env : Env) (db : gmap string (list Row)) :
  let out := queryAndMapToInfos (I := I) (T := T) stmt params env db in
  (out.2 <> None -> out.1 = None) /\
  (out.2 = None ->
   exists rows rowObjs infos,
     Stmt_Query stmt (map adjustParam params) env db = inl rows /\ rows <> [] /\
     Forall2 (fun r x => scan_struct r = inl x) rows rowObjs /\
     Forall2 (fun x i => AsInfo x = (i, None)) rowObjs infos /\
     out.1 = Some infos).
Proof.
  intros out. subst out. unfold queryAndMapToInfos.
  destruct (Stmt_Query stmt (map adjustParam params) env db) as [rows|e];
    [|split; [reflexivity | discriminate]].
  destruct (scan_Rows rows) as [rowObjs|e] eqn:Hscan;
    [|split; [reflexivity | discriminate]].
  destruct (length rowObjs =? 0)%nat eqn:Hlen; [split; [reflexivity | discriminate]|].
  apply Nat.eqb_neq in Hlen.
  destruct (mapToInfos rowObjs None) as [res [e|]] eqn:Hmap; cbn [fst snd].
  - split; [|discriminate]. intros _. exact (mapToInfos_err _ _ _ _ Hmap).
  - split; [contradiction|]. intros _.
    destruct (mapToInfos_ok _ _ _ Hmap) as (infos & HF & _ & Hres).
    pose proof (scan_Rows_ok _ _ Hscan) as HS.
    exists rows, rowObjs, infos. repeat split; try assumption.
    + intros ->. inversion HS; subst. contradiction.
    + apply Hres. intros ->. contradiction.
Qed.

Lemma adjustParam_idempotent p : adjustParam (adjustParam p) = adjustParam p.
Proof. destruct p; reflexivity. Qed.

(** A cut-off or other timestamp given to [queryAndMapToInfos] counts by its
    millisecond only: two times in the same millisecond, in whatever
    locations, and that number of milliseconds itself, give the same
    result. *)
Theorem queryAndMapToInfos_millisecond (stmt : SQL.Stmt) (t1 t2 : Time)
    (params : list value) (env : Env) (db : gmap string (list Row)) :
  Time_UnixMilli t1 = Time_UnixMilli t2 ->
  queryAndMapToInfos (I := I) (T := T) stmt (VTime t1 :: params) env db
  = queryAndMapToInfos (I := I) (T := T) stmt (VTime t2 :: params) env db /\
  queryAndMapToInfos (I := I) (T := T) stmt (VTime t1 :: params) env db
  = queryAndMapToInfos (I := I) (T := T) stmt (VInt (Time_UnixMilli t1) :: params) env db.
Proof.
  intros Hms. unfold queryAndMapToInfos. cbn [map adjustParam].
  unfold Time_UnixMilli, Time_UTC in *. cbn [sec nsec] in *. rewrite Hms.
  split; reflexivity.
Qed.

End QueryMore.

Lemma queryAndMapToInfos_all_or_nothing_witness :
  let db := (StoreCADeployment Sample.ca1 ok ∅).1 in
  (queryAndMapToInfos (I := CASettingsInfo) (T := CASettingsInfo)
     (rowT := fun c => (c, None)) d.selectCADeploymentByHash [VText "h1"] ok db).1
  = Some [Sample.ca1].
Proof.
  intros db.
  destruct (@queryAndMapToInfos_all_or_nothing CASettingsInfo CASettingsInfo
              (fun c => (c, None)) _ d.selectCADeploymentByHash [VText "h1"] ok db)
    as [_ Hok].
  destruct Hok as (rows & rowObjs & infos & Hq & _ & HS & HA & ->);
    [vm_compute; reflexivity|].
  vm_compute in Hq. injection Hq as <-.
  inversion HS as [|r x rs xs Hx HS']; subst. inversion HS'; subst.
  inversion HA as [|x' i xs' is' Hi HA']; subst. inversion HA'; subst.
  vm_compute in Hx. injection Hx as <-.
  injection Hi as <-. reflexivity.
Defined.

Lemma queryAndMapToInfos_millisecond_witness :
  let db := (@StoreMachineDeploymentInfo Sample.external Sample.gcr Sample.mcd1 ok ∅).1 in
  let t2 := {| sec := 1700000000; nsec := 123999999; loc := time_UTC |} in
  queryAndMapToInfos (I := @MachineDeploymentInfo Sample.external) (T := Row)
    (rowT := Sample.mcd_AsInfo) (scanT := fun r => inl r)
    (SQL.SelectLatestBy "mcd_info" "CreationTimestamp") [VTime Sample.T0] ok db
  = queryAndMapToInfos (I := @MachineDeploymentInfo Sample.external) (T := Row)
      (rowT := Sample.mcd_AsInfo) (scanT := fun r => inl r)
      (SQL.SelectLatestBy "mcd_info" "CreationTimestamp") [VTime t2] ok db.
Proof.
  intros db t2.
  apply (@queryAndMapToInfos_millisecond (@MachineDeploymentInfo Sample.external) Row
           Sample.mcd_AsInfo (fun r => inl r)
           (SQL.SelectLatestBy "mcd_info" "CreationTimestamp") Sample.T0 t2 [] ok db).
  reflexivity.
Defined.

(** * Further properties of the writes *)

Section AppendFacts.
Context `{G : Gcr}.

Lemma appends_to_refl T db : appends_to T db db.
Proof.
  intros t. exists []. rewrite app_nil_r. repeat split; [cbn; lia | constructor].
Qed.

Lemma appends_to_insert T db row :
  RowID row = next_RowID (table db T) ->
  appends_to T db (<[T := (table db T ++ [row])%list]> db).
Proof.
  intros Hid t. destruct (decide (t = T)) as [->|Hne].
  - exists [row]. rewrite table_insert_eq.
    repeat split; [cbn; lia | contradiction | repeat constructor; exact Hid].
  - exists []. rewrite table_insert_ne by congruence. rewrite app_nil_r.
    repeat split; [cbn; lia | constructor].
Qed.

Lemma Store_appends_rows (m : MachineDeploymentInfo) (w : WorkerPoolInfo) (p : PodInfo)
    (n : NodeInfo) (ca : CASettingsInfo) (env : Env)
    (heap : gmap nat (gmap string string)) (db : gmap string (list Row)) :
  appends_to "mcd_info" db (StoreMachineDeploymentInfo m env db).1 /\
  appends_to "worker_pool_info" db (StoreWorkerPoolInfo w env db).1 /\
  appends_to "pod_info" db (StorePodInfo p env db).1 /\
  appends_to "node_info" db (StoreNodeInfo n env heap db).1.2 /\
  appends_to "ca_settings_info" db (StoreCADeployment ca env db).1.
Proof.
  destruct (StoreMachineDeploymentInfo_spec m env db) as (rm & Hm & _ & _ & ->).
  destruct (StoreWorkerPoolInfo_spec w env db) as (rw & Hw & _ & ->).
  destruct (StorePodInfo_spec p env db) as (rp & Hp & _ & _ & ->).
  destruct (StoreNodeInfo_spec n env heap db) as (rn & Hn & _ & _ & ->).
  destruct (StoreCADeployment_spec ca env db) as (rc & Hc & _ & ->).
  destruct (labelsToText (Pod.Labels p)).2, (resourcesToText (Pod.Requests p)).2,
    (specToJson (Pod.Spec p)).2,
    (labelsToText (deref (delete_key (Node.Labels n) last_applied heap) (Node.Labels n))).2,
    (taintsToText (Node.Taints n)).2, (resourcesToText (Node.Allocatable n)).2,
    (resourcesToText (Node.Capacity n)).2, (execErr env); cbn [fst snd];
    repeat split; try apply appends_to_refl; apply appends_to_insert; assumption.
Qed.

(** The [Store] operations only append: whatever the environment decides,
    each leaves every row that was there as it was, in every table, and adds
    at most one row, to its own table, with the next identifier. *)
Theorem Store_appends (m : MachineDeploymentInfo) (w : WorkerPoolInfo) (p : PodInfo)
    (n : NodeInfo) (ca : CASettingsInfo) (env : Env)
    (heap : gmap nat (gmap string string)) (db : gmap string (list Row)) :
  appends_to "mcd_info" db (StoreMachineDeploymentInfo m env db).1 /\
  appends_to "worker_pool_info" db (StoreWorkerPoolInfo w env db).1 /\
  appends_to "pod_info" db (StorePodInfo p env db).1 /\
  appends_to "node_info" db (StoreNodeInfo n env heap db).1.2 /\
  appends_to "ca_settings_info" db (StoreCADeployment ca env db).1.
Proof.
  destruct (Store_appends_rows m w p n ca env heap db) as (Hm & Hw & Hp & Hn & Hc).
  split; [exact Hm|]. split; [exact Hw|]. split; [exact Hp|]. split; [exact Hn|].
  exact Hc.
Qed.

Lemma next_RowID_above l :
  Forall (fun y => y < next_RowID l) (0 :: map RowID l).
Proof.
  constructor; [apply next_RowID_pos|].
  induction l as [|r l IH]; cbn [map]; constructor.
  - apply next_RowID_fresh. left.
  - eapply Forall_impl; [exact IH|]. intros y Hy. cbn beta in Hy.
    unfold next_RowID in *. cbn [map fold_right]. lia.
Qed.

Lemma StronglySorted_snoc (l : list Z) x :
  StronglySorted Z.lt l -> Forall (fun y => y < x) l ->
  StronglySorted Z.lt (l ++ [x])%list.
Proof.
  induction 1 as [|y l Hs IH Hy]; intros Hx; cbn.
  - repeat constructor.
  - inversion Hx; subst. constructor; [apply IH; assumption|].
    apply Forall_app. split; [assumption | repeat constructor; assumption].
Qed.

Lemma appends_increasing T db db' :
  appends_to T db db' -> RowIDs_increasing db -> RowIDs_increasing db'.
Proof.
  intros Happ Hinc t. destruct (Happ t) as (new & -> & Hlen & Hother & Hid).
  destruct new as [|r [|r' new]]; [rewrite app_nil_r; apply Hinc| |cbn in Hlen; lia].
  destruct (decide (t = T)) as [->|Hne]; [|now specialize (Hother Hne)].
  inversion Hid; subst. rewrite map_app. cbn [map].
  change (0 :: map RowID (table db T) ++ [RowID r])%list
    with ((0 :: map RowID (table db T)) ++ [RowID r])%list.
  apply StronglySorted_snoc; [apply Hinc|].
  match goal with H : RowID r = _ |- _ => rewrite H end. apply next_RowID_above.
Qed.

End AppendFacts.

Section UpdateMore.

Lemma assoc_set_assoc_ne column c v cs :
  column <> c -> assoc column (set_assoc c v cs) = assoc column cs.
Proof.
  intros Hne. induction cs as [|[c' w] cs IH]; cbn [set_assoc assoc].
  - destruct (decide (c = column)); [congruence | reflexivity].
  - destruct (decide (c' = c)) as [->|Hc]; cbn [assoc].
    + destruct (decide (c = column)); [congruence | reflexivity].
    + destruct (decide (c' = column)); [reflexivity | exact IH].
Qed.

Lemma filter_hits key k (l : list Row) :
  length (filter (fun r => bool_decide (cell r key = k) = true) l)
  = length (filter (fun r => cell r key = k) l).
Proof.
  induction l as [|r l IH]; [reflexivity|].
  rewrite !filter_cons.
  destruct (decide (cell r key = k)) as [Hk|Hk].
  - rewrite decide_True by (now apply bool_decide_eq_true). cbn. now rewrite IH.
  - rewrite decide_False; [exact IH|].
    intros Hb. apply bool_decide_eq_true in Hb. contradiction.
Qed.

Lemma UpdateSet_marks T key v k env db :
  execErr env = None ->
  marks_deleted T key k v db
    (Stmt_Exec (SQL.UpdateSet T "DeletionTimestamp" key) [v; k] env db).1.
Proof.
  intros Hexec. rewrite (Exec_UpdateSet _ _ _ _ _ _ _ Hexec).
  unfold marks_deleted. rewrite table_insert_eq.
  repeat split.
  - rewrite map_map. apply map_ext. intros r. now destruct (bool_decide _).
  - intros column Hne. rewrite map_map. apply map_ext. intros r.
    destruct (bool_decide _); [|reflexivity]. now apply assoc_set_assoc_ne.
  - rewrite map_map. apply map_ext. intros r.
    destruct (bool_decide _); [apply assoc_set_assoc | reflexivity].
  - intros t Hne. apply table_insert_ne. congruence.
Qed.

Lemma UpdateSet_result T column key v k env db :
  execErr env = None -> rowsAffectedErr env = None ->
  (Stmt_Exec (SQL.UpdateSet T column key) [v; k] env db).2
  = inl (result_of env 0 (rows_of_key T key k db)).
Proof.
  intros Hexec Hrows. unfold Stmt_Exec, argsErr. cbn. rewrite andb_false_r, Hexec.
  cbn [snd]. unfold rows_of_key. now rewrite filter_hits.
Qed.

Lemma Update_result (s : SQL.Stmt) args env db :
  (match Stmt_Exec s args env db with
   | (db', inr err) => (db', (-1, Some err))
   | (db', inl result) =>
       match RowsAffected result with
       | (_, Some err) => (db', (-1, Some err))
       | (updated, None) => (db', (updated, None))
       end
   end).2 =
  match (Stmt_Exec s args env db).2 with
  | inr err => (-1, Some err)
  | inl result =>
      match RowsAffected result with
      | (_, Some err) => (-1, Some err)
      | (updated, None) => (updated, None)
      end
  end.
Proof.
  destruct (Stmt_Exec s args env db) as [db' [result|err]]; cbn [snd]; [|reflexivity].
  destruct (RowsAffected result) as [updated [err|]]; reflexivity.
Qed.

Lemma UpdateDeletionTimestamp_count key t env db :
  execErr env = None -> rowsAffectedErr env = None ->
  (UpdateNodeInfoDeletionTimestamp key t env db).2
  = (rows_of_key "node_info" "Name" (VText key) db, None) /\
  (UpdateMCDInfoDeletionTimestamp key t env db).2
  = (rows_of_key "mcd_info" "Name" (VText key) db, None) /\
  (UpdatePodDeletionTimestamp key t env db).2
  = (rows_of_key "pod_info" "UID" (VText key) db, None).
Proof.
  intros Hexec Hrows.
  unfold UpdateNodeInfoDeletionTimestamp, UpdateMCDInfoDeletionTimestamp,
    UpdatePodDeletionTimestamp.
  rewrite !Update_result.
  unfold d.updateNodeInfoDeletionTimeStamp, d.updateMCDInfoDeletionTimeStamp,
    d.updatePodDeletionTimeStamp, SQL.UpdateNodeInfoDeletionTimestamp,
    SQL.UpdateMCDInfoDeletionTimestamp, SQL.UpdatePodDeletionTimestamp.
  rewrite !UpdateSet_result by assumption.
  cbn [result_of RowsAffected]. rewrite Hrows. repeat split.
Qed.

(** A deletion-timestamp update that is executed is a soft delete of every
    row of the key, one or many: those rows get the bound value in
    DeletionTimestamp, no row is added or removed, and no other cell and no
    other table changes; the number returned is the number of rows of the
    key. *)
Theorem UpdateDeletionTimestamp_marks (key : string) (t : Time) (env : Env)
    (db : gmap string (list Row)) :
  execErr env = None ->
  marks_deleted "node_info" "Name" (VText key) (VTime t) db
    (UpdateNodeInfoDeletionTimestamp key t env db).1 /\
  marks_deleted "mcd_info" "Name" (VText key) (VTime t) db
    (UpdateMCDInfoDeletionTimestamp key t env db).1 /\
  marks_deleted "pod_info" "UID" (VText key) (VInt (Time_UnixMilli (Time_UTC t))) db
    (UpdatePodDeletionTimestamp key t env db).1 /\
  (rowsAffectedErr env = None ->
   (UpdateNodeInfoDeletionTimestamp key t env db).2
   = (rows_of_key "node_info" "Name" (VText key) db, None) /\
   (UpdateMCDInfoDeletionTimestamp key t env db).2
   = (rows_of_key "mcd_info" "Name" (VText key) db, None) /\
   (UpdatePodDeletionTimestamp key t env db).2
   = (rows_of_key "pod_info" "UID" (VText key) db, None)).
Proof.
  intros Hexec.
  unfold UpdateNodeInfoDeletionTimestamp, UpdateMCDInfoDeletionTimestamp,
    UpdatePodDeletionTimestamp.
  rewrite !Update_db, !Update_result.
  split; [|split; [|split]]; try (apply UpdateSet_marks; assumption).
  intros Hrows. rewrite <- !Update_result.
  exact (UpdateDeletionTimestamp_count key t env db Hexec Hrows).
Qed.

Lemma map_no_hit (f g : Row -> Row) key k (l : list Row) :
  (forall r, r ∈ l -> cell r key <> k) ->
  map (fun r => if bool_decide (cell r key = k) then f r else r) l = l.
Proof.
  intros Hno. induction l as [|r l IH]; [reflexivity|]. cbn [map].
  rewrite bool_decide_eq_false_2 by (apply Hno; left).
  f_equal. apply IH. intros r' Hr'. apply Hno. now right.
Qed.

(** Soft-deleting a key that no row carries is not an error: the update
    returns 0 rows affected with a [nil] error and every table is as it
    was. *)
Theorem UpdateDeletionTimestamp_unknown_key (key : string) (t : Time) (env : Env)
    (db : gmap string (list Row)) :
  execErr env = None -> rowsAffectedErr env = None ->
  ((forall r, r ∈ table db "node_info" -> cell r "Name" <> VText key) ->
   (UpdateNodeInfoDeletionTimestamp key t env db).2 = (0, None) /\
   forall T, table (UpdateNodeInfoDeletionTimestamp key t env db).1 T = table db T) /\
  ((forall r, r ∈ table db "mcd_info" -> cell r "Name" <> VText key) ->
   (UpdateMCDInfoDeletionTimestamp key t env db).2 = (0, None) /\
   forall T, table (UpdateMCDInfoDeletionTimestamp key t env db).1 T = table db T) /\
  ((forall r, r ∈ table db "pod_info" -> cell r "UID" <> VText key) ->
   (UpdatePodDeletionTimestamp key t env db).2 = (0, None) /\
   forall T, table (UpdatePodDeletionTimestamp key t env db).1 T = table db T).
Proof.
  intros Hexec Hrows.
  destruct (UpdateDeletionTimestamp_count key t env db Hexec Hrows)
    as (Hn & Hm & Hp).
  unfold UpdateNodeInfoDeletionTimestamp, UpdateMCDInfoDeletionTimestamp,
    UpdatePodDeletionTimestamp in *.
  rewrite !Update_db in *.
  unfold d.updateNodeInfoDeletionTimeStamp, d.updateMCDInfoDeletionTimeStamp,
    d.updatePodDeletionTimeStamp, SQL.UpdateNodeInfoDeletionTimestamp,
    SQL.UpdateMCDInfoDeletionTimestamp, SQL.UpdatePodDeletionTimestamp in *.
  rewrite !(Exec_UpdateSet _ _ _ _ _ _ _ Hexec).
  split; [|split]; intros Hno.
  - rewrite Hn. unfold rows_of_key. rewrite (filter_none _ _ Hno).
    split; [reflexivity|]. intros T. destruct (decide (T = "node_info")) as [->|Hne].
    + rewrite table_insert_eq. now apply (map_no_hit _ (fun r => r)).
    + apply table_insert_ne. congruence.
  - rewrite Hm. unfold rows_of_key. rewrite (filter_none _ _ Hno).
    split; [reflexivity|]. intros T. destruct (decide (T = "mcd_info")) as [->|Hne].
    + rewrite table_insert_eq. now apply (map_no_hit _ (fun r => r)).
    + apply table_insert_ne. congruence.
  - rewrite Hp. unfold rows_of_key. rewrite (filter_none _ _ Hno).
    split; [reflexivity|]. intros T. destruct (decide (T = "pod_info")) as [->|Hne].
    + rewrite table_insert_eq. now apply (map_no_hit _ (fun r => r)).
    + apply table_insert_ne. congruence.
Qed.

(** A deletion-timestamp update whose statement fails changes nothing and
    returns [-1] with the driver's error; whenever an update returns an
    error, the number it returns is [-1]. *)
Theorem UpdateDeletionTimestamp_failure (key : string) (t : Time) (env : Env)
    (db : gmap string (list Row)) :
  (forall e, execErr env = Some e ->
     UpdateNodeInfoDeletionTimestamp key t env db = (db, (-1, Some e)) /\
     UpdateMCDInfoDeletionTimestamp key t env db = (db, (-1, Some e)) /\
     UpdatePodDeletionTimestamp key t env db = (db, (-1, Some e))) /\
  ((UpdateNodeInfoDeletionTimestamp key t env db).2.2 <> None ->
   (UpdateNodeInfoDeletionTimestamp key t env db).2.1 = -1) /\
  ((UpdateMCDInfoDeletionTimestamp key t env db).2.2 <> None ->
   (UpdateMCDInfoDeletionTimestamp key t env db).2.1 = -1) /\
  ((UpdatePodDeletionTimestamp key t env db).2.2 <> None ->
   (UpdatePodDeletionTimestamp key t env db).2.1 = -1).
Proof.
  unfold UpdateNodeInfoDeletionTimestamp, UpdateMCDInfoDeletionTimestamp,
    UpdatePodDeletionTimestamp.
  split; [|split; [|split]].
  - intros e Hexec. unfold Stmt_Exec, argsErr. cbn. rewrite andb_false_r, Hexec.
    repeat split.
  - destruct (Stmt_Exec _ _ env db) as [db' [result|err]]; [|reflexivity].
    destruct (RowsAffected result) as [updated [err|]]; [reflexivity | contradiction].
  - destruct (Stmt_Exec _ _ env db) as [db' [result|err]]; [|reflexivity].
    destruct (RowsAffected result) as [updated [err|]]; [reflexivity | contradiction].
  - destruct (Stmt_Exec _ _ env db) as [db' [result|err]]; [|reflexivity].
    destruct (RowsAffected result) as [updated [err|]]; [reflexivity | contradiction].
Qed.

End UpdateMore.

Section RowIDInvariant.
Context `{G : Gcr}.

Lemma UpdateSet_RowIDs T column key v k env db t :
  map RowID (table (Stmt_Exec (SQL.UpdateSet T column key) [v; k] env db).1 t)
  = map RowID (table db t).
Proof.
  destruct (execErr env) as [e|] eqn:Hexec.
  - unfold Stmt_Exec, argsErr. cbn. now rewrite andb_false_r, Hexec.
  - rewrite (Exec_UpdateSet _ _ _ _ _ _ _ Hexec).
    destruct (decide (t = T)) as [->|Hne].
    + rewrite table_insert_eq, map_map. apply map_ext. intros r.
      now destruct (bool_decide _).
    + rewrite table_insert_ne by congruence. reflexivity.
Qed.

Lemma same_RowIDs_increasing db db' :
  (forall t, map RowID (table db' t) = map RowID (table db t)) ->
  RowIDs_increasing db -> RowIDs_increasing db'.
Proof. intros Hsame Hinc t. rewrite Hsame. apply Hinc. Qed.

(** The identifiers of every table are positive and increase in the order
    of insertion in the empty database, and every write of the facade keeps
    it so, whatever the environment decides: a later row has a larger
    identifier, and no identifier is used twice. *)
Theorem RowIDs_stay_increasing (m : MachineDeploymentInfo) (w : WorkerPoolInfo)
    (p : PodInfo) (n : NodeInfo) (ca : CASettingsInfo) (key : string) (t : Time)
    (env : Env) (heap : gmap nat (gmap string string)) (db : gmap string (list Row)) :
  RowIDs_increasing db ->
  RowIDs_increasing ∅ /\
  RowIDs_increasing (StoreMachineDeploymentInfo m env db).1 /\
  RowIDs_increasing (StoreWorkerPoolInfo w env db).1 /\
  RowIDs_increasing (StorePodInfo p env db).1 /\
  RowIDs_increasing (StoreNodeInfo n env heap db).1.2 /\
  RowIDs_increasing (StoreCADeployment ca env db).1 /\
  RowIDs_increasing (UpdateNodeInfoDeletionTimestamp key t env db).1 /\
  RowIDs_increasing (UpdateMCDInfoDeletionTimestamp key t env db).1 /\
  RowIDs_increasing (UpdatePodDeletionTimestamp key t env db).1.
Proof.
  intros Hinc.
  destruct (Store_appends_rows m w p n ca env heap db) as (Hm & Hw & Hp & Hn & Hc).
  split; [intros T; repeat constructor|].
  split; [exact (appends_increasing _ _ _ Hm Hinc)|].
  split; [exact (appends_increasing _ _ _ Hw Hinc)|].
  split; [exact (appends_increasing _ _ _ Hp Hinc)|].
  split; [exact (appends_increasing _ _ _ Hn Hinc)|].
  split; [exact (appends_increasing _ _ _ Hc Hinc)|].
  unfold UpdateNodeInfoDeletionTimestamp, UpdateMCDInfoDeletionTimestamp,
    UpdatePodDeletionTimestamp.
  rewrite !Update_db.
  repeat split; (apply (same_RowIDs_increasing db); [|exact Hinc]);
    intros T; apply UpdateSet_RowIDs.
Qed.

End RowIDInvariant.

Lemma UpdateDeletionTimestamp_marks_witness :
  let db0 := (@StoreNodeInfo Sample.external Sample.gcr Sample.n1 ok Sample.heap1 ∅).1.2 in
  let db := (@StoreNodeInfo Sample.external Sample.gcr Sample.n1 ok Sample.heap1 db0).1.2 in
  (UpdateNodeInfoDeletionTimestamp "n1" Sample.T0 ok db).2 = (2, None) /\
  map RowID (table (UpdateNodeInfoDeletionTimestamp "n1" Sample.T0 ok db).1 "node_info")
  = [1; 2].
Proof.
  intros db0 db.
  destruct (UpdateDeletionTimestamp_marks "n1" Sample.T0 ok db eq_refl)
    as ((Hids & _) & _ & _ & Hcount).
  destruct (Hcount eq_refl) as (Hn & _).
  split; [rewrite Hn | rewrite Hids]; vm_compute; reflexivity.
Defined.

Lemma UpdateDeletionTimestamp_unknown_key_witness :
  let db := (@StoreNodeInfo Sample.external Sample.gcr Sample.n1 ok Sample.heap1 ∅).1.2 in
  (UpdateNodeInfoDeletionTimestamp "n2" Sample.T0 ok db).2 = (0, None) /\
  table (UpdateNodeInfoDeletionTimestamp "n2" Sample.T0 ok db).1 "node_info"
  = table db "node_info".
Proof.
  intros db.
  destruct (UpdateDeletionTimestamp_unknown_key "n2" Sample.T0 ok db eq_refl eq_refl)
    as (Hn & _).
  destruct Hn as (Hres & Htab).
  - intros r Hr. vm_compute in Hr. apply list_elem_of_singleton in Hr. subst r.
    vm_compute. discriminate.
  - split; [exact Hres | apply Htab].
Defined.

Lemma UpdateDeletionTimestamp_failure_witness :
  let env := {| execErr := Some (errors_New "database is locked"); lastInsertIdErr := None;
                rowsAffectedErr := None; queryErr := None; closeErr := None;
                checkNumInput := false |} in
  UpdatePodDeletionTimestamp "uid-1" Sample.T0 env ∅
  = (∅, (-1, Some (errors_New "database is locked"))).
Proof.
  intros env.
  exact (proj2 (proj2 (proj1 (UpdateDeletionTimestamp_failure "uid-1" Sample.T0 env ∅)
                         (errors_New "database is locked") eq_refl))).
Defined.

Lemma RowIDs_stay_increasing_witness :
  RowIDs_increasing
    (@StorePodInfo Sample.external Sample.gcr Sample.pod1 ok
       (@StorePodInfo Sample.external Sample.gcr Sample.pod1 ok ∅).1).1.
Proof.
  assert (H0 : RowIDs_increasing ∅) by (intros T; repeat constructor).
  pose proof (@RowIDs_stay_increasing Sample.external Sample.gcr Sample.mcd1 Sample.pool1
                Sample.pod1 Sample.n1 Sample.ca1 "k" Sample.T0 ok Sample.heap1 ∅ H0)
    as (_ & _ & _ & H1 & _).
  exact (proj1 (proj2 (proj2 (proj2
           (@RowIDs_stay_increasing Sample.external Sample.gcr Sample.mcd1 Sample.pool1
              Sample.pod1 Sample.n1 Sample.ca1 "k" Sample.T0 ok Sample.heap1 _ H1))))).
Defined.

(** * Writes followed by reads *)

Section WriteThenRead.
Context `{G : Gcr}.

Lemma StorePodInfo_row p env db :
  exists row,
    cell row "UID" = VText (Pod.UID p) /\
    cell row "Hash" = VText (if decide (Pod.Hash p = "") then PodInfo_GetHash p
                             else Pod.Hash p) /\
    ((StorePodInfo p env db).2.2 = None ->
     (StorePodInfo p env db).1 = <["pod_info" := (table db "pod_info" ++ [row])%list]> db).
Proof.
  unfold StorePodInfo, d.insertPodInfo, SQL.InsertPodInfo.
  set (p' := if decide (Pod.Hash p = "") then _ else p).
  assert (Hu : Pod.UID p' = Pod.UID p) by (subst p'; now destruct (decide _)).
  assert (Hh : Pod.Hash p' = if decide (Pod.Hash p = "") then PodInfo_GetHash p
                             else Pod.Hash p) by (subst p'; now destruct (decide _)).
  destruct (labelsToText (Pod.Labels p')) as [labels [e1|]];
  destruct (resourcesToText (Pod.Requests p')) as [requests [e2|]];
  destruct (specToJson (Pod.Spec p')) as [podSpec [e3|]]; cbn [fst snd];
    try (exists (mkRow 0 [("UID", VText (Pod.UID p')); ("Hash", VText (Pod.Hash p'))]);
         rewrite Hu, Hh; repeat split; discriminate).
  rewrite Exec_Insert by reflexivity.
  eexists. split; [|split]; cycle 2.
  - destruct (execErr env); [discriminate|]. intros _. reflexivity.
  - rewrite <- Hu. reflexivity.
  - rewrite <- Hh. reflexivity.
Qed.

Lemma StoreNodeInfo_row n env heap db :
  exists row,
    cell row "Name" = VText (Node.Name n) /\
    cell row "Hash" = VText (if decide (Node.Hash n = "")
                             then NodeInfo_GetHash n (deref heap (Node.Labels n))
                             else Node.Hash n) /\
    ((StoreNodeInfo n env heap db).2.2 = None ->
     (StoreNodeInfo n env heap db).1.2
     = <["node_info" := (table db "node_info" ++ [row])%list]> db).
Proof.
  unfold StoreNodeInfo, d.insertNodeInfo, SQL.InsertNodeInfo.
  set (n' := if decide (Node.Hash n = "") then _ else n).
  assert (Hu : Node.Name n' = Node.Name n) by (subst n'; now destruct (decide _)).
  assert (Hh : Node.Hash n' = if decide (Node.Hash n = "")
                              then NodeInfo_GetHash n (deref heap (Node.Labels n))
                              else Node.Hash n) by (subst n'; now destruct (decide _)).
  destruct (labelsToText _) as [labelsText [e1|]];
  destruct (taintsToText (Node.Taints n')) as [taintsText [e2|]];
  destruct (resourcesToText (Node.Allocatable n')) as [allocatableText [e3|]];
  destruct (resourcesToText (Node.Capacity n')) as [capacityText [e4|]]; cbn [fst snd];
    try (exists (mkRow 0 [("Name", VText (Node.Name n')); ("Hash", VText (Node.Hash n'))]);
         rewrite Hu, Hh; repeat split; discriminate).
  rewrite Exec_Insert by reflexivity.
  eexists. split; [|split]; cycle 2.
  - destruct (execErr env); [discriminate|]. intros _. reflexivity.
  - rewrite <- Hu. reflexivity.
  - rewrite <- Hh. reflexivity.
Qed.

Lemma Count_engine T key1 key2 a b env db :
  queryErr env = None ->
  QueryRow_Scan (SQL.SelectCount T key1 key2) env db [a; b]
  = ({| Int32 := Z.of_nat (length (filter (fun r => cell r key1 = a /\ cell r key2 = b)
                                          (table db T)));
        Valid := true |}, None).
Proof.
  intros Hq. unfold QueryRow_Scan, Stmt_Query, argsErr. cbn.
  rewrite andb_false_r, Hq. reflexivity.
Qed.

Lemma count_after_append T key1 key2 (a b : value) db row :
  let P := fun r => cell r key1 = a /\ cell r key2 = b in
  length (filter P (table (<[T := (table db T ++ [row])%list]> db) T))
  = (length (filter P (table db T)) + (if decide (P row) then 1 else 0))%nat.
Proof.
  intros P. rewrite table_insert_eq, filter_app, length_app. f_equal.
  rewrite filter_cons, filter_nil. destruct (decide (P row)); reflexivity.
Qed.

(** The count of a key and hash after a store: a pod (a node) that is stored
    raises the count of its UID (name) and persisted hash by exactly one,
    also when rows of that key and hash were there already, and changes no
    other count; a count read this way is never the sentinel [-1]. *)
Theorem Store_then_Count (p : PodInfo) (n : NodeInfo) (env env' : Env)
    (heap : gmap nat (gmap string string)) (db : gmap string (list Row))
    (key hash : string) :
  let countPod db := CountPodInfoWithSpecHash
                       (QueryRow_Scan d.selectPodCountWithUIDAndHash env' db) in
  let countNode db := CountNodeInfoWithHash
                        (QueryRow_Scan d.selectNodeCountWithNameAndHash env' db) in
  let hp := if decide (Pod.Hash p = "") then PodInfo_GetHash p else Pod.Hash p in
  let hn := if decide (Node.Hash n = "")
            then NodeInfo_GetHash n (deref heap (Node.Labels n)) else Node.Hash n in
  queryErr env' = None ->
  ((StorePodInfo p env db).2.2 = None ->
   (exists c, 0 <= c /\ countPod db (Pod.UID p) hp = (c, None) /\
              countPod (StorePodInfo p env db).1 (Pod.UID p) hp = (c + 1, None)) /\
   ((key, hash) <> (Pod.UID p, hp) ->
    countPod (StorePodInfo p env db).1 key hash = countPod db key hash)) /\
  ((StoreNodeInfo n env heap db).2.2 = None ->
   (exists c, 0 <= c /\ countNode db (Node.Name n) hn = (c, None) /\
              countNode (StoreNodeInfo n env heap db).1.2 (Node.Name n) hn
              = (c + 1, None)) /\
   ((key, hash) <> (Node.Name n, hn) ->
    countNode (StoreNodeInfo n env heap db).1.2 key hash = countNode db key hash)).
Proof.
  intros countPod countNode hp hn Hq.
  subst countPod countNode.
  unfold CountPodInfoWithSpecHash, CountNodeInfoWithHash,
    d.selectPodCountWithUIDAndHash, d.selectNodeCountWithNameAndHash,
    SQL.SelectPodCountWithUIDAndHash, SQL.SelectNodeCountWithNameAndHash.
  split.
  - intros Hok. destruct (StorePodInfo_row p env db) as (row & Hu & Hh & Hdb).
    rewrite (Hdb Hok). rewrite !(Count_engine _ _ _ _ _ _ _ Hq). cbn [Valid Int32].
    rewrite !count_after_append. split.
    + eexists. split; [apply Nat2Z.is_nonneg|]. split; [reflexivity|].
      rewrite decide_True by (split; assumption).
      rewrite Nat2Z.inj_add. reflexivity.
    + intros Hne. rewrite decide_False; [now rewrite Nat.add_0_r|].
      intros [H1 H2]. rewrite Hu in H1. rewrite Hh in H2.
      injection H1 as H1. injection H2 as H2. apply Hne. subst hp. congruence.
  - intros Hok. destruct (StoreNodeInfo_row n env heap db) as (row & Hu & Hh & Hdb).
    rewrite (Hdb Hok). rewrite !(Count_engine _ _ _ _ _ _ _ Hq). cbn [Valid Int32].
    rewrite !count_after_append. split.
    + eexists. split; [apply Nat2Z.is_nonneg|]. split; [reflexivity|].
      rewrite decide_True by (split; assumption).
      rewrite Nat2Z.inj_add. reflexivity.
    + intros Hne. rewrite decide_False; [now rewrite Nat.add_0_r|].
      intros [H1 H2]. rewrite Hu in H1. rewrite Hh in H2.
      injection H1 as H1. injection H2 as H2. apply Hne. subst hn. congruence.
Qed.

End WriteThenRead.

Section LatestAfterStore.
Context `{G : Gcr}.

Lemma latest_after_append (P : Row -> Prop) `{!forall r, Decision (P r)} l row :
  P row -> take 1 (rev (filter P (l ++ [row])%list)) = [row].
Proof.
  intros HP. rewrite filter_app, filter_cons, filter_nil, decide_True by exact HP.
  rewrite rev_app_distr. reflexivity.
Qed.

(** A machine deployment that is stored is what [LoadLatestMachineDeploymentInfo]
    then reads for its name, however many older rows carry that name: the
    result is the [AsInfo] of the scanned new row, and a failure is only a
    failure of scanning or converting that row. *)
Theorem Store_then_LoadLatest (m : MachineDeploymentInfo) (env env' : Env)
    (db : gmap string (list Row)) :
  (StoreMachineDeploymentInfo m env db).2.2 = None -> queryErr env' = None ->
  exists row,
    table (StoreMachineDeploymentInfo m env db).1 "mcd_info"
    = (table db "mcd_info" ++ [row])%list /\
    cell row "Name" = VText (MachineDeployment.Name m) /\
    LoadLatestMachineDeploymentInfo (MachineDeployment.Name m) env'
      (StoreMachineDeploymentInfo m env db).1
    = match scan_struct row with
      | inr err => (zero, Some (fmt_Errorf "could not find rows for statement: %w" err))
      | inl rowObj => AsInfo rowObj
      end.
Proof.
  destruct (StoreMachineDeploymentInfo_spec m env db) as (row & _ & Hname & _ & ->).
  destruct (execErr env); [discriminate|]. cbn [fst snd]. intros _ Hq.
  exists row. rewrite table_insert_eq. split; [reflexivity|]. split; [exact Hname|].
  unfold LoadLatestMachineDeploymentInfo, queryAndMapToInfo, d.selectLatestMCDInfo,
    SQL.SelectLatestMCDInfo, Stmt_Query, argsErr.
  cbn [SQL.NumInput length Nat.ltb Nat.leb Nat.eqb negb]. rewrite andb_false_r, Hq.
  rewrite table_insert_eq. cbn [arg nth].
  rewrite (latest_after_append _ _ _ Hname).
  unfold scan_Row. cbn [scan_Rows].
  destruct (scan_struct row) as [rowObj|err]; [|reflexivity].
  destruct (AsInfo rowObj) as [infoObj [err|]]; reflexivity.
Qed.

(** Autoscaler settings that are stored are what [GetLatestCADeployment]
    then returns, field by field, whatever was stored before. *)
Theorem StoreCADeployment_then_GetLatest (ca : CASettingsInfo) (env env' : Env)
    (db : gmap string (list Row)) :
  (StoreCADeployment ca env db).2.2 = None -> queryErr env' = None ->
  GetLatestCADeployment env' (StoreCADeployment ca env db).1 = (Some ca, None).
Proof.
  unfold StoreCADeployment, d.insertCADeployment, SQL.InsertCADeployment.
  rewrite Exec_Insert by reflexivity.
  destruct (execErr env); [discriminate|]. cbn [fst snd]. intros _ Hq.
  unfold GetLatestCADeployment, d.selectLatestCADeployment, SQL.SelectLatestCADeployment,
    Stmt_Query, argsErr.
  cbn [SQL.NumInput length Nat.ltb Nat.leb Nat.eqb negb]. rewrite andb_false_r, Hq.
  rewrite table_insert_eq, rev_app_distr. cbn [rev app take].
  destruct ca as [expander maxNodes priorities hash]. reflexivity.
Qed.

End LatestAfterStore.

Lemma Store_then_Count_witness :
  let db1 := (@StorePodInfo Sample.external Sample.gcr Sample.pod1 ok ∅).1 in
  let db2 := (@StorePodInfo Sample.external Sample.gcr Sample.pod1 ok db1).1 in
  CountPodInfoWithSpecHash (QueryRow_Scan d.selectPodCountWithUIDAndHash ok db2)
    "uid-1" "pod:p1" = (2, None).
Proof.
  intros db1 db2.
  destruct (@Store_then_Count Sample.external Sample.gcr Sample.pod1 Sample.n1 ok ok
              Sample.heap1 db1 "uid-1" "pod:p1" eq_refl) as [Hp _].
  destruct Hp as ((c & _ & Hc & Hc') & _); [vm_compute; reflexivity|].
  change (CountPodInfoWithSpecHash (QueryRow_Scan d.selectPodCountWithUIDAndHash ok db2)
            "uid-1" "pod:p1" = (2, None)).
  assert (Hc1 : c = 1).
  { vm_compute in Hc. injection Hc as <-. reflexivity. }
  subst c. exact Hc'.
Defined.

Lemma Store_then_LoadLatest_witness :
  let db1 := (@StoreMachineDeploymentInfo Sample.external Sample.gcr Sample.mcd1 ok ∅).1 in
  let m2 := @MachineDeployment.mk Sample.external Sample.T0 Sample.T0 "mcd-a" "shoot" 5
              "pool-a" "eu-1a" "1" "0" "class-a" "" in
  @MachineDeployment.Replicas Sample.external
    (@LoadLatestMachineDeploymentInfo Sample.external Sample.gcr "mcd-a" ok
       (@StoreMachineDeploymentInfo Sample.external Sample.gcr m2 ok db1).1).1 = 5.
Proof.
  intros db1 m2.
  destruct (@Store_then_LoadLatest Sample.external Sample.gcr m2 ok ok db1)
    as (row & Ht & _ & Hload); [vm_compute; reflexivity | reflexivity |].
  change (@MachineDeployment.Name Sample.external m2) with "mcd-a" in Hload.
  rewrite Hload.
  vm_compute in Ht. injection Ht as <-. vm_compute. reflexivity.
Defined.

Lemma StoreCADeployment_then_GetLatest_witness :
  GetLatestCADeployment ok
    (StoreCADeployment Sample.ca1 ok
       (StoreCADeployment {| CASettings.Expander := "random"; CASettings.MaxNodesTotal := 3;
                             CASettings.Priorities := ""; CASettings.Hash := "h0" |}
          ok ∅).1).1
  = (Some Sample.ca1, None).
Proof.
  apply StoreCADeployment_then_GetLatest; reflexivity.
Defined.

(** * The hash of the latest machine deployment *)

(** [GetMachineDeploymentInfoHash] does not treat an unknown name as an
    error: when the scan yields no rows (or a NULL hash) the result is the
    empty hash with a [nil] error.  An error is returned only with the empty
    hash, and is then the error of the scan itself, unwrapped; a hash that is
    not empty comes only from a valid scan and with a [nil] error. *)
Theorem GetMachineDeploymentInfoHash_outcomes
    (scan : list value -> NullString.t * option error) (name : string) :
  let hash := (scan [VText name]).1 in
  let err := (scan [VText name]).2 in
  let out := GetMachineDeploymentInfoHash scan name in
  (NullString.Valid hash = false -> no_rows err = true \/ err = None ->
   out = ("", None)) /\
  (out.2 <> None ->
   out.1 = "" /\ out.2 = err /\ NullString.Valid hash = false /\ no_rows err = false) /\
  (out.1 <> "" ->
   out.2 = None /\ NullString.Valid hash = true /\ out.1 = NullString.String hash).
Proof.
  unfold GetMachineDeploymentInfoHash, getHash.
  destruct (scan [VText name]) as [[h valid] err]. cbn [fst snd NullString.Valid
    NullString.String].
  destruct valid; cbn [fst snd].
  - split; [discriminate|]. split; [contradiction|]. intros _. repeat split.
  - destruct err as [e|]; cbn [no_rows]; [destruct (errors_Is e sql_ErrNoRows) eqn:Hno|];
      cbn [fst snd].
    + split; [reflexivity|]. split; contradiction.
    + split; [intros _ [[=]|[=]]|]. split; [|contradiction]. intros _. repeat split.
    + split; [reflexivity|]. split; contradiction.
Qed.

Lemma GetMachineDeploymentInfoHash_outcomes_witness :
  GetMachineDeploymentInfoHash
    (fun _ => ({| NullString.String := ""; NullString.Valid := false |}, Some sql_ErrNoRows))
    "mcd-z" = ("", None).
Proof.
  apply (proj1 (GetMachineDeploymentInfoHash_outcomes
                  (fun _ => ({| NullString.String := ""; NullString.Valid := false |},
                             Some sql_ErrNoRows)) "mcd-z")).
  - reflexivity.
  - left. reflexivity.
Defined.

(** * Preparing the statements, creating the schema, [Init] *)

Section PrepareFacts.
Variable env : InitEnv.

(** The steps of [prepareStatements], one lemma for each kind of step and
    each property; [L] is the list of the checked fields of the steps that
    follow. *)
Lemma prepare_nil f wrap k (L : list string) :
  (forall fields, (k fields).2 = None <-> forall g, g ∈ L -> prepareErr env g = None) ->
  forall fields, (prepare env f wrap k fields).2 = None <->
                 forall g, g ∈ f :: L -> prepareErr env g = None.
Proof.
  intros Hk fields. unfold prepare. destruct (prepareErr env f) as [err|] eqn:Hf.
  - split; [discriminate|]. intros Hall. rewrite Hall in Hf by left. discriminate.
  - rewrite Hk. split.
    + intros Hall g [->|Hg]%elem_of_cons; auto.
    + intros Hall g Hg. apply Hall. now right.
Qed.

Lemma prepare_local_nil f wrap k (L : list string) :
  (forall fields, (k fields).2 = None <-> forall g, g ∈ L -> prepareErr env g = None) ->
  forall fields, (prepare_local env f wrap k fields).2 = None <->
                 forall g, g ∈ f :: L -> prepareErr env g = None.
Proof.
  intros Hk fields. unfold prepare_local. destruct (prepareErr env f) as [err|] eqn:Hf.
  - split; [discriminate|]. intros Hall. rewrite Hall in Hf by left. discriminate.
  - rewrite Hk. split.
    + intros Hall g [->|Hg]%elem_of_cons; auto.
    + intros Hall g Hg. apply Hall. now right.
Qed.

Lemma prepare_unchecked_nil f k (L : list string) :
  (forall fields, (k fields).2 = None <-> forall g, g ∈ L -> prepareErr env g = None) ->
  forall fields, (prepare_unchecked env f k fields).2 = None <->
                 forall g, g ∈ L -> prepareErr env g = None.
Proof.
  intros Hk fields. unfold prepare_unchecked. destruct (prepareErr env f); apply Hk.
Qed.

Lemma prepareStatements_nil fields :
  (prepareStatements env fields).2 = None <->
  forall f, f ∈ checked_fields -> prepareErr env f = None.
Proof.
  revert fields. unfold prepareStatements, checked_fields.
  repeat first [ apply prepare_nil | apply prepare_local_nil | apply prepare_unchecked_nil ].
  intros fields. split; [intros _ g Hg; inversion Hg | reflexivity].
Qed.

(** On success a step adds its field; a step that follows does not take it
    away again.  [A] is the list of the fields the steps that follow leave
    with a statement, [R] of those they leave without one. *)
Lemma prepare_fields f wrap k (A R : list string) :
  f ∉ R ->
  (forall fields, (k fields).2 = None ->
     forall g, g ∈ (k fields).1 <-> g ∈ A \/ (g ∈ fields /\ g ∉ R)) ->
  forall fields, (prepare env f wrap k fields).2 = None ->
    forall g, g ∈ (prepare env f wrap k fields).1 <-> g ∈ f :: A \/ (g ∈ fields /\ g ∉ R).
Proof.
  intros HfR Hk fields. unfold prepare. destruct (prepareErr env f); [discriminate|].
  intros Hok g. rewrite (Hk _ Hok), elem_of_union, elem_of_singleton, elem_of_cons.
  split; [intros [?|[[->|?] ?]]; auto | intros [[->|?]|[? ?]]; auto].
Qed.

Lemma prepare_local_fields f wrap k (A R : list string) :
  f ∉ R ->
  (forall fields, (k fields).2 = None ->
     forall g, g ∈ (k fields).1 <-> g ∈ A \/ (g ∈ fields /\ g ∉ R)) ->
  forall fields, (prepare_local env f wrap k fields).2 = None ->
    forall g, g ∈ (prepare_local env f wrap k fields).1 <->
              g ∈ f :: A \/ (g ∈ fields /\ g ∉ R).
Proof.
  intros HfR Hk fields. unfold prepare_local. destruct (prepareErr env f); [discriminate|].
  intros Hok g. rewrite (Hk _ Hok), elem_of_union, elem_of_singleton, elem_of_cons.
  split; [intros [?|[[->|?] ?]]; auto | intros [[->|?]|[? ?]]; auto].
Qed.

Lemma prepare_unchecked_fields_failed f k (A : list string) cause :
  prepareErr env f = Some cause ->
  (forall fields, (k fields).2 = None ->
     forall g, g ∈ (k fields).1 <-> g ∈ A \/ (g ∈ fields /\ g ∉ @nil string)) ->
  forall fields, (prepare_unchecked env f k fields).2 = None ->
    forall g, g ∈ (prepare_unchecked env f k fields).1 <->
              g ∈ A \/ (g ∈ fields /\ g ∉ [f]).
Proof.
  intros Hf Hk fields. unfold prepare_unchecked. rewrite Hf.
  intros Hok g. rewrite (Hk _ Hok), elem_of_difference, elem_of_singleton.
  rewrite list_elem_of_singleton. pose proof (not_elem_of_nil g). tauto.
Qed.

Lemma prepare_unchecked_fields_ok f k (A : list string) :
  prepareErr env f = None ->
  (forall fields, (k fields).2 = None ->
     forall g, g ∈ (k fields).1 <-> g ∈ A \/ (g ∈ fields /\ g ∉ @nil string)) ->
  forall fields, (prepare_unchecked env f k fields).2 = None ->
    forall g, g ∈ (prepare_unchecked env f k fields).1 <->
              g ∈ f :: A \/ (g ∈ fields /\ g ∉ @nil string).
Proof.
  intros Hf Hk fields. unfold prepare_unchecked. rewrite Hf.
  intros Hok g. rewrite (Hk _ Hok), elem_of_union, elem_of_singleton, elem_of_cons.
  pose proof (not_elem_of_nil g). tauto.
Qed.

(** A step that fails ends the call with the error the step builds: the
    first field of [L] whose [Prepare] fails is the one reported. *)
Lemma prepare_error f format k (L : list string) :
  f ∉ unwrapped_fields ->
  (forall fields e, (k fields).2 = Some e ->
     first_failure (prepareErr env) unwrapped_fields L e) ->
  forall fields e, (prepare env f (fmt_Errorf format) k fields).2 = Some e ->
    first_failure (prepareErr env) unwrapped_fields (f :: L) e.
Proof.
  intros Hf Hk fields e. unfold prepare. destruct (prepareErr env f) as [c|] eqn:Hc.
  - intros [= <-]. exists [], f, L, c. repeat split; [intros g Hg; inversion Hg | exact Hc|].
    left. split; [exact Hf | apply wraps_Errorf].
  - intros He. destruct (Hk _ _ He) as (before & field & after & cause & -> & Hb & Hcause & Hw).
    exists (f :: before), field, after, cause. repeat split; try assumption.
    intros g [->|Hg]%elem_of_cons; auto.
Qed.

Lemma prepare_local_error f format k (L : list string) :
  f ∉ unwrapped_fields ->
  (forall fields e, (k fields).2 = Some e ->
     first_failure (prepareErr env) unwrapped_fields L e) ->
  forall fields e, (prepare_local env f (fmt_Errorf format) k fields).2 = Some e ->
    first_failure (prepareErr env) unwrapped_fields (f :: L) e.
Proof.
  intros Hf Hk fields e. unfold prepare_local.
  destruct (prepareErr env f) as [c|] eqn:Hc.
  - intros [= <-]. exists [], f, L, c. repeat split; [intros g Hg; inversion Hg | exact Hc|].
    left. split; [exact Hf | apply wraps_Errorf].
  - intros He. destruct (Hk _ _ He) as (before & field & after & cause & -> & Hb & Hcause & Hw).
    exists (f :: before), field, after, cause. repeat split; try assumption.
    intros g [->|Hg]%elem_of_cons; auto.
Qed.

Lemma prepare_error_unwrapped f msg k (L : list string) :
  f ∈ unwrapped_fields ->
  (forall fields e, (k fields).2 = Some e ->
     first_failure (prepareErr env) unwrapped_fields L e) ->
  forall fields e, (prepare env f (fun _ => errors_New msg) k fields).2 = Some e ->
    first_failure (prepareErr env) unwrapped_fields (f :: L) e.
Proof.
  intros Hf Hk fields e. unfold prepare. destruct (prepareErr env f) as [c|] eqn:Hc.
  - intros [= <-]. exists [], f, L, c. repeat split; [intros g Hg; inversion Hg | exact Hc|].
    right. split; [exact Hf | now exists msg].
  - intros He. destruct (Hk _ _ He) as (before & field & after & cause & -> & Hb & Hcause & Hw).
    exists (f :: before), field, after, cause. repeat split; try assumption.
    intros g [->|Hg]%elem_of_cons; auto.
Qed.

Lemma prepare_unchecked_error f k (L : list string) :
  (forall fields e, (k fields).2 = Some e ->
     first_failure (prepareErr env) unwrapped_fields L e) ->
  forall fields e, (prepare_unchecked env f k fields).2 = Some e ->
    first_failure (prepareErr env) unwrapped_fields L e.
Proof.
  intros Hk fields e. unfold prepare_unchecked. destruct (prepareErr env f); apply Hk.
Qed.

Ltac not_member :=
  let Hin := fresh "Hin" in
  intros Hin;
  repeat (apply elem_of_cons in Hin as [Hin|Hin]; [discriminate Hin|]);
  inversion Hin.

Ltac member :=
  repeat first [ apply list_elem_of_here | apply list_elem_of_further ].

Lemma prepareStatements_first_failure fields e :
  (prepareStatements env fields).2 = Some e ->
  first_failure (prepareErr env) unwrapped_fields checked_fields e.
Proof.
  revert fields e. unfold prepareStatements, checked_fields.
  repeat first
    [ apply prepare_error; [unfold unwrapped_fields; not_member|]
    | apply prepare_local_error; [unfold unwrapped_fields; not_member|]
    | apply prepare_error_unwrapped; [unfold unwrapped_fields; member|]
    | apply prepare_unchecked_error ].
  intros fields e [=].
Qed.

Lemma prepareStatements_fields fields :
  (prepareStatements env fields).2 = None ->
  forall g, g ∈ (prepareStatements env fields).1 <->
    match prepareErr env "selectEventWithUID" with
    | Some _ => g ∈ checked_fields \/ (g ∈ fields /\ g <> "selectEventWithUID")
    | None => g ∈ statement_fields \/ g ∈ fields
    end.
Proof.
  destruct (prepareErr env "selectEventWithUID") as [cause|] eqn:Hsel.
  - intros Hok g. rewrite <- list_elem_of_singleton. revert fields Hok g.
    unfold prepareStatements, checked_fields.
    repeat first
      [ apply prepare_fields; [not_member|]
      | apply prepare_local_fields; [not_member|]
      | apply (prepare_unchecked_fields_failed _ _ _ cause Hsel) ].
    repeat first
      [ apply prepare_fields; [apply not_elem_of_nil|]
      | apply prepare_local_fields; [apply not_elem_of_nil|] ].
    intros fields _ g. cbn [fst]. pose proof (not_elem_of_nil g).
    pose proof (not_elem_of_nil (A := string) g). tauto.
  - intros Hok g.
    transitivity (g ∈ statement_fields \/ (g ∈ fields /\ g ∉ @nil string));
      [|pose proof (not_elem_of_nil g); tauto].
    revert fields Hok g.
    unfold prepareStatements, statement_fields.
    repeat first
      [ apply prepare_fields; [apply not_elem_of_nil|]
      | apply prepare_local_fields; [apply not_elem_of_nil|]
      | apply (prepare_unchecked_fields_ok _ _ _ Hsel) ].
    intros fields _ g. cbn [fst]. pose proof (not_elem_of_nil g). tauto.
Qed.

(** [prepareStatements] reports the failure of every [Prepare] but one: it
    returns [nil] exactly when the 27 prepares whose error it checks succeed.
    A failure to prepare [selectEventWithUID] is not reported: the call then
    still returns [nil], with a statement in every checked field and none in
    that one. *)
Theorem prepareStatements_unreported (fields : gset string) :
  ((prepareStatements env fields).2 = None <->
   forall f, f ∈ checked_fields -> prepareErr env f = None) /\
  ((forall f, f ∈ checked_fields -> prepareErr env f = None) ->
   (forall f, f ∈ checked_fields -> f ∈ (prepareStatements env fields).1) /\
   (prepareErr env "selectEventWithUID" <> None ->
    "selectEventWithUID" ∉ (prepareStatements env fields).1)).
Proof.
  split; [apply prepareStatements_nil|].
  intros Hall. pose proof (proj2 (prepareStatements_nil fields) Hall) as Hok.
  pose proof (prepareStatements_fields fields Hok) as Hfields.
  destruct (prepareErr env "selectEventWithUID") as [cause|] eqn:Hsel.
  - split.
    + intros f Hf. apply Hfields. now left.
    + intros _ Hin. apply Hfields in Hin as [Hin|[_ Hne]]; [|now apply Hne].
      revert Hin. unfold checked_fields. not_member.
  - split; [|intros Hne; now contradiction Hne].
    intros f Hf. apply Hfields. left. revert Hf. unfold checked_fields, statement_fields.
    intros Hin. repeat (apply elem_of_cons in Hin as [->|Hin]; [member|]). inversion Hin.
Qed.

(** When [prepareStatements] fails, the error is built for the first checked
    field, in the order of the source, whose [Prepare] fails.  For 24 of the
    fields [errors.Is] finds the driver's error in it; for
    [selectLatestCADeployment], [insertCADeployment] and
    [selectLatestNodesBeforeAndNotDeleted] the error is a bare message and
    the driver's error is lost. *)
Theorem prepareStatements_error (fields : gset string) (e : error) :
  (prepareStatements env fields).2 = Some e ->
  first_failure (prepareErr env) unwrapped_fields checked_fields e.
Proof.
  intros He.
  destruct (prepareStatements_first_failure fields e He)
    as (before & field & after & cause & Hsplit & Hbefore & Hcause & Hwrap).
  exists before, field, after, cause. repeat split; assumption.
Qed.

End PrepareFacts.

Section SchemaFacts.
Variable env : InitEnv.

Lemma table_create_table t db t' : table (create_table t db) t' = table db t'.
Proof.
  unfold create_table. destruct (db !! t) eqn:Ht; [reflexivity|].
  destruct (decide (t = t')) as [<-|Hne].
  - rewrite table_insert_eq. unfold table. now rewrite Ht.
  - now apply table_insert_ne.
Qed.

Lemma create_table_exists t db g :
  g = t \/ is_Some (db !! g) -> is_Some (create_table t db !! g).
Proof.
  unfold create_table. intros [->|Hg].
  - destruct (db !! t) eqn:Ht; [rewrite Ht; eauto|]. rewrite lookup_insert_eq. eauto.
  - destruct (db !! t) eqn:Ht; [exact Hg|].
    destruct (decide (t = g)) as [<-|Hne]; [rewrite lookup_insert_eq; eauto|].
    now rewrite lookup_insert_ne.
Qed.

Lemma create_table_there t (db : gmap string (list Row)) :
  is_Some (db !! t) -> create_table t db = db.
Proof. unfold create_table. now intros [rows ->]. Qed.

(** The steps of [createSchema], one lemma for each property; [L] is the
    list of the tables of the steps that follow. *)
Lemma create_nil t wrap k (L : list string) :
  (forall db, (k db).2 = None <-> forall g, g ∈ L -> schemaErr env g = None) ->
  forall db, (create env t wrap k db).2 = None <->
             forall g, g ∈ t :: L -> schemaErr env g = None.
Proof.
  intros Hk db. unfold create. destruct (schemaErr env t) as [err|] eqn:Ht.
  - split; [discriminate|]. intros Hall. rewrite Hall in Ht by left. discriminate.
  - rewrite Hk. split.
    + intros Hall g [->|Hg]%elem_of_cons; auto.
    + intros Hall g Hg. apply Hall. now right.
Qed.

Lemma create_error t format k (L : list string) :
  (forall db e, (k db).2 = Some e -> first_failure (schemaErr env) [] L e) ->
  forall db e, (create env t (fmt_Errorf format) k db).2 = Some e ->
    first_failure (schemaErr env) [] (t :: L) e.
Proof.
  intros Hk db e. unfold create. destruct (schemaErr env t) as [c|] eqn:Hc.
  - intros [= <-]. exists [], t, L, c. repeat split; [intros g Hg; inversion Hg | exact Hc|].
    left. split; [apply not_elem_of_nil | apply wraps_Errorf].
  - intros He.
    destruct (Hk _ _ He) as (before & field & after & cause & -> & Hb & Hcause & Hw).
    exists (t :: before), field, after, cause. repeat split; try assumption.
    intros g [->|Hg]%elem_of_cons; auto.
Qed.

Lemma create_rows t wrap k :
  (forall db t', table (k db).1 t' = table db t') ->
  forall db t', table (create env t wrap k db).1 t' = table db t'.
Proof.
  intros Hk db t'. unfold create. destruct (schemaErr env t); [reflexivity|].
  rewrite Hk. apply table_create_table.
Qed.

Lemma create_exists t wrap k (L : list string) :
  (forall db, (forall g, is_Some (db !! g) -> is_Some ((k db).1 !! g)) /\
              ((k db).2 = None -> forall g, g ∈ L -> is_Some ((k db).1 !! g))) ->
  forall db,
    (forall g, is_Some (db !! g) -> is_Some ((create env t wrap k db).1 !! g)) /\
    ((create env t wrap k db).2 = None ->
     forall g, g ∈ t :: L -> is_Some ((create env t wrap k db).1 !! g)).
Proof.
  intros Hk db. unfold create. destruct (schemaErr env t); [split; [auto | discriminate]|].
  destruct (Hk (create_table t db)) as [Hmono Hall]. split.
  - intros g Hg. apply Hmono, create_table_exists. now right.
  - intros Hok g [->|Hg]%elem_of_cons; [|now apply Hall].
    apply Hmono, create_table_exists. now left.
Qed.

Lemma create_again t wrap k (L : list string) :
  (forall db, (forall g, g ∈ L -> is_Some (db !! g)) ->
              (forall g, g ∈ L -> schemaErr env g = None) -> k db = (db, None)) ->
  forall db, (forall g, g ∈ t :: L -> is_Some (db !! g)) ->
             (forall g, g ∈ t :: L -> schemaErr env g = None) ->
             create env t wrap k db = (db, None).
Proof.
  intros Hk db Hthere Hok. unfold create. rewrite Hok by left.
  rewrite create_table_there by (apply Hthere; left).
  apply Hk; intros g Hg; [apply Hthere | apply Hok]; now right.
Qed.

Lemma create_mono t wrap k :
  (forall db g, is_Some (db !! g) -> is_Some ((k db).1 !! g)) ->
  forall db g, is_Some (db !! g) -> is_Some ((create env t wrap k db).1 !! g).
Proof.
  intros Hk db g Hg. unfold create. destruct (schemaErr env t); [exact Hg|].
  apply Hk, create_table_exists. now right.
Qed.

(** The tables created before the failing step stay. *)
Lemma create_partial t wrap k (L : list string) :
  (forall db, (forall g, is_Some (db !! g) -> is_Some ((k db).1 !! g))) ->
  (forall db, (k db).2 <> None ->
     exists before field after, L = (before ++ (field :: after))%list /\
       schemaErr env field <> None /\
       forall g, g ∈ before -> is_Some ((k db).1 !! g)) ->
  forall db, (create env t wrap k db).2 <> None ->
    exists before field after, t :: L = (before ++ (field :: after))%list /\
      schemaErr env field <> None /\
      forall g, g ∈ before -> is_Some ((create env t wrap k db).1 !! g).
Proof.
  intros Hmono Hk db. unfold create. destruct (schemaErr env t) as [c|] eqn:Hc.
  - intros _. exists [], t, L. repeat split; [congruence | intros g Hg; inversion Hg].
  - intros He. destruct (Hk _ He) as (before & field & after & -> & Hf & Hb).
    exists (t :: before), field, after. repeat split; [assumption|].
    intros g [->|Hg]%elem_of_cons; [|now apply Hb].
    apply Hmono, create_table_exists. now left.
Qed.

Lemma createSchema_nil db :
  (createSchema env db).2 = None <-> forall t, t ∈ schema_tables -> schemaErr env t = None.
Proof.
  revert db. unfold createSchema, schema_tables. repeat apply create_nil.
  intros db. split; [intros _ g Hg; inversion Hg | reflexivity].
Qed.

Lemma createSchema_rows db t : table (createSchema env db).1 t = table db t.
Proof.
  revert db t. unfold createSchema. repeat apply create_rows. reflexivity.
Qed.

Lemma createSchema_exists db :
  (forall g, is_Some (db !! g) -> is_Some ((createSchema env db).1 !! g)) /\
  ((createSchema env db).2 = None ->
   forall g, g ∈ schema_tables -> is_Some ((createSchema env db).1 !! g)).
Proof.
  revert db. unfold createSchema, schema_tables. repeat apply create_exists.
  intros db. split; [auto|]. intros _ g Hg. inversion Hg.
Qed.

(** [createSchema] is safe on every start: whatever the outcome, it leaves
    the rows of every table as they are; it succeeds exactly when each of
    its seven statements does, every table of the schema then exists, and
    running it again changes nothing. *)
Theorem createSchema_safe (db : gmap string (list Row)) :
  (forall t, table (createSchema env db).1 t = table db t) /\
  ((createSchema env db).2 = None <->
   forall t, t ∈ schema_tables -> schemaErr env t = None) /\
  ((createSchema env db).2 = None ->
   (forall t, t ∈ schema_tables -> is_Some ((createSchema env db).1 !! t)) /\
   createSchema env (createSchema env db).1 = ((createSchema env db).1, None)).
Proof.
  split; [apply createSchema_rows|]. split; [apply createSchema_nil|].
  intros Hok. pose proof (proj2 (createSchema_exists db) Hok) as Hthere.
  split; [exact Hthere|].
  pose proof (proj1 (createSchema_nil db) Hok) as Hall.
  revert Hthere Hall. generalize (createSchema env db).1.
  unfold createSchema, schema_tables. repeat apply create_again. reflexivity.
Qed.

(** When [createSchema] fails, [errors.Is] finds in its error the driver's
    error for the first table, in the order of the source, whose statement
    failed; the tables before that one have been created and stay: the
    schema is not created atomically. *)
Theorem createSchema_error (db : gmap string (list Row)) (e : error) :
  (createSchema env db).2 = Some e ->
  first_failure (schemaErr env) [] schema_tables e /\
  exists before field after,
    schema_tables = (before ++ (field :: after))%list /\
    schemaErr env field <> None /\
    forall t, t ∈ before -> is_Some ((createSchema env db).1 !! t).
Proof.
  intros He. split.
  - revert db e He. unfold createSchema, schema_tables. repeat apply create_error.
    intros db e [=].
  - assert (Hne : (createSchema env db).2 <> None) by (rewrite He; discriminate).
    clear He. revert db Hne. unfold createSchema, schema_tables.
    repeat (apply create_partial; [repeat apply create_mono; auto|]).
    intros db Hne. now contradiction Hne.
Qed.

End SchemaFacts.

Section InitFacts.

Lemma sql_Open_new (open : gset nat) : sql_Open open ∉ open.
Proof. apply is_fresh. Qed.

(** [Init] returns [nil] exactly when opening, each of the seven statements
    of the schema and each of the 27 checked prepares succeed.  When opening
    fails nothing changes.  When opening succeeds the facade holds a new
    handle, which is held open, whatever fails afterwards, and no row of the
    database changes. *)
Theorem Init_outcome (da : DataAccess) (env : InitEnv) (w : World) :
  ((Init da env w).2 = None <->
   openErr env = None /\
   (forall t, t ∈ schema_tables -> schemaErr env t = None) /\
   (forall f, f ∈ checked_fields -> prepareErr env f = None)) /\
  (forall cause, openErr env = Some cause ->
     (Init da env w).1 = (da, w) /\ wraps (Init da env w).2 cause) /\
  (openErr env = None ->
   dataDB (Init da env w).1.1 = Some (sql_Open (handles w)) /\
   (sql_Open (handles w) ∉ handles w) /\
   handles (Init da env w).1.2 = {[sql_Open (handles w)]} ∪ handles w /\
   forall t, table (tables (Init da env w).1.2) t = table (tables w) t).
Proof.
  unfold Init. destruct (openErr env) as [c|] eqn:Hopen.
  - split; [split; [discriminate | intros [[=] _]]|].
    split; [|discriminate]. intros cause [= <-]. split; [reflexivity | apply wraps_Errorf].
  - pose proof (createSchema_nil env (tables w)) as Hschema.
    pose proof (createSchema_rows env (tables w)) as Hrows.
    pose proof (prepareStatements_nil env (statements w)) as Hprep.
    destruct (createSchema env (tables w)) as [tables' [e1|]]; cbn [fst snd] in *.
    + split; [split; [discriminate|]|].
      * intros (_ & Hs & _). apply Hschema in Hs. discriminate.
      * split; [discriminate|]. intros _. repeat split; [apply sql_Open_new | exact Hrows].
    + destruct (prepareStatements env (statements w)) as [statements' [e2|]];
        cbn [fst snd] in *.
      * split; [split; [discriminate|]|].
        -- intros (_ & _ & Hp). apply Hprep in Hp. discriminate.
        -- split; [discriminate|]. intros _.
           repeat split; [apply sql_Open_new | exact Hrows].
      * split; [split; [|reflexivity]|].
        -- intros _. split; [reflexivity|]. split; [now apply Hschema | now apply Hprep].
        -- split; [discriminate|]. intros _.
           repeat split; [apply sql_Open_new | exact Hrows].
Qed.

Lemma Init_handle da env w :
  openErr env = None ->
  dataDB (Init da env w).1.1 = Some (sql_Open (handles w)) /\
  dataDBPath (Init da env w).1.1 = dataDBPath da /\
  handles (Init da env w).1.2 = {[sql_Open (handles w)]} ∪ handles w.
Proof.
  intros Hopen. unfold Init. rewrite Hopen.
  destruct (createSchema env (tables w)) as [tables' [e1|]]; [repeat split|].
  destruct (prepareStatements env (statements w)) as [statements' [e2|]]; repeat split.
Qed.

Lemma Close_after_Init (da : DataAccess) (env : InitEnv) (w : World) (cenv : Env) :
  openErr env = None -> closeErr cenv = None ->
  Close (Init da env w).1.1 cenv (handles (Init da env w).1.2)
  = ({| dataDBPath := dataDBPath da; dataDB := None |}, handles w, None).
Proof.
  intros Hopen Hclose.
  destruct (Init_handle da env w Hopen) as (Hdb & Hpath & Hhandles).
  unfold Close, sql_DB_Close. rewrite Hdb, Hhandles, Hpath, Hclose.
  pose proof (sql_Open_new (handles w)) as Hnew.
  rewrite decide_True by (apply elem_of_union_l, elem_of_singleton; reflexivity).
  repeat f_equal. apply set_eq. intros h.
  rewrite elem_of_difference, elem_of_union, elem_of_singleton.
  split; [tauto|]. intros Hh. split; [now right|]. intros ->. contradiction.
Qed.

(** A facade whose [Init] got as far as opening the database can be closed,
    whether [Init] then succeeded or failed in the schema or in a prepare:
    [Close] releases the handle [Init] opened, and the handles held are
    those held before [Init]. *)
Theorem Init_then_Close (da : DataAccess) (env : InitEnv) (w : World) (cenv : Env) :
  openErr env = None -> closeErr cenv = None ->
  Close (Init da env w).1.1 cenv (handles (Init da env w).1.2)
  = ({| dataDBPath := dataDBPath da; dataDB := None |}, handles w, None).
Proof.
  intros Hopen Hclose. rewrite (Close_after_Init da env w cenv Hopen Hclose).
  reflexivity.
Qed.

(** [Init] called a second time opens a second handle and puts it over the
    first in the facade: the first is never closed.  After [Close] the
    facade holds no handle, and the one the first [Init] opened is still
    held open, however often [Close] is called. *)
Theorem Init_twice_leaks (da : DataAccess) (env1 env2 : InitEnv) (w : World)
    (cenv : Env) (cenvs : list Env) :
  openErr env1 = None -> openErr env2 = None -> closeErr cenv = None ->
  let first := Init da env1 w in
  let second := Init first.1.1 env2 first.1.2 in
  let closed := Close second.1.1 cenv (handles second.1.2) in
  exists h1,
    dataDB first.1.1 = Some h1 /\ (h1 ∉ handles w) /\
    closed.2 = None /\ dataDB closed.1.1 = None /\
    h1 ∈ closed.1.2 /\
    h1 ∈ (Close_all cenvs closed.1.1 closed.1.2).1.2.
Proof.
  intros Hopen1 Hopen2 Hclose first second closed.
  destruct (Init_handle da env1 w Hopen1) as (Hdb1 & Hpath1 & Hhandles1).
  fold first in Hdb1, Hpath1, Hhandles1.
  exists (sql_Open (handles w)). split; [exact Hdb1|].
  split; [apply sql_Open_new|].
  assert (Hclosed : closed = ({| dataDBPath := dataDBPath first.1.1; dataDB := None |},
                              handles first.1.2, None))
    by (subst closed second; now apply Close_after_Init).
  rewrite Hclosed. cbn [fst snd dataDB].
  split; [reflexivity|]. split; [reflexivity|].
  rewrite Close_all_closed by reflexivity. cbn [fst snd].
  rewrite Hhandles1. split; apply elem_of_union_l, elem_of_singleton; reflexivity.
Qed.

End InitFacts.

Lemma prepareStatements_unreported_witness :
  let env := {| openErr := None; schemaErr := fun _ => None;
                prepareErr := fun f => if decide (f = "selectEventWithUID")
                                       then Some (errors_New "no such table: event_info")
                                       else None |} in
  (prepareStatements env ∅).2 = None /\
  ("selectEventWithUID" ∉ (prepareStatements env ∅).1) /\
  "selectAllEvents" ∈ (prepareStatements env ∅).1.
Proof.
  intros env.
  assert (Hall : forall f, f ∈ checked_fields -> prepareErr env f = None).
  { intros f Hin. unfold checked_fields in Hin.
    repeat (apply elem_of_cons in Hin as [->|Hin]; [reflexivity|]). inversion Hin. }
  destruct (prepareStatements_unreported env ∅) as [Hnil Hfields].
  destruct (Hfields Hall) as [Hin Hout].
  split; [now apply Hnil|]. split.
  - apply Hout. discriminate.
  - apply Hin. unfold checked_fields.
    repeat first [ apply list_elem_of_here | apply list_elem_of_further ].
Defined.

Lemma prepareStatements_error_witness :
  let env := {| openErr := None; schemaErr := fun _ => None;
                prepareErr := fun f => if decide (f = "insertCADeployment")
                                       then Some (errors_New "no such table") else None |} in
  first_failure (prepareErr env) unwrapped_fields checked_fields
    (errors_New "cannot prepare insertCADeployment statement").
Proof.
  intros env. apply (prepareStatements_error env ∅). vm_compute. reflexivity.
Defined.

Lemma createSchema_safe_witness :
  let env := {| openErr := None; schemaErr := fun _ => None; prepareErr := fun _ => None |} in
  let db := (StoreCADeployment Sample.ca1 ok ∅).1 in
  table (createSchema env db).1 "ca_settings_info" = table db "ca_settings_info" /\
  is_Some ((createSchema env db).1 !! "pdb_info") /\
  createSchema env (createSchema env db).1 = ((createSchema env db).1, None).
Proof.
  intros env db.
  destruct (createSchema_safe env db) as (Hrows & _ & Hok).
  destruct Hok as [Hthere Hagain]; [vm_compute; reflexivity|].
  split; [apply Hrows|]. split; [|exact Hagain].
  apply Hthere. unfold schema_tables.
  repeat first [ apply list_elem_of_here | apply list_elem_of_further ].
Defined.

Lemma createSchema_error_witness :
  let env := {| openErr := None;
                schemaErr := fun t => if decide (t = "node_info")
                                      then Some (errors_New "disk I/O error") else None;
                prepareErr := fun _ => None |} in
  first_failure (schemaErr env) [] schema_tables
    (fmt_Errorf "cannot create node_info table : %w" (errors_New "disk I/O error")).
Proof.
  intros env. apply (createSchema_error env ∅). vm_compute. reflexivity.
Defined.

Lemma Init_outcome_witness :
  let env := {| openErr := None; schemaErr := fun _ => None; prepareErr := fun _ => None |} in
  let w := {| handles := ∅; tables := ∅; statements := ∅ |} in
  (Init (NewDataAccess "data.db") env w).2 = None /\
  dataDB (Init (NewDataAccess "data.db") env w).1.1 = Some (sql_Open ∅).
Proof.
  intros env w.
  destruct (Init_outcome (NewDataAccess "data.db") env w) as (Hnil & _ & Hopen).
  split.
  - apply Hnil. repeat split.
  - apply Hopen. reflexivity.
Defined.

Lemma Init_then_Close_witness :
  let env := {| openErr := None;
                schemaErr := fun t => if decide (t = "node_info")
                                      then Some (errors_New "disk I/O error") else None;
                prepareErr := fun _ => None |} in
  let w := {| handles := ∅; tables := ∅; statements := ∅ |} in
  (Init (NewDataAccess "data.db") env w).2 <> None /\
  Close (Init (NewDataAccess "data.db") env w).1.1 ok
    (handles (Init (NewDataAccess "data.db") env w).1.2)
  = (NewDataAccess "data.db", ∅, None).
Proof.
  intros env w. split.
  - vm_compute. discriminate.
  - apply (Init_then_Close (NewDataAccess "data.db") env w ok); reflexivity.
Defined.

Lemma Init_twice_leaks_witness :
  let env := {| openErr := None; schemaErr := fun _ => None; prepareErr := fun _ => None |} in
  let w := {| handles := ∅; tables := ∅; statements := ∅ |} in
  let first := Init (NewDataAccess "data.db") env w in
  let second := Init first.1.1 env first.1.2 in
  exists h1, dataDB first.1.1 = Some h1 /\
    h1 ∈ (Close second.1.1 ok (handles second.1.2)).1.2.
Proof.
  intros env w first second.
  destruct (Init_twice_leaks (NewDataAccess "data.db") env env w ok []
              eq_refl eq_refl eq_refl) as (h1 & Hdb & _ & _ & _ & Hin & _).
  exists h1. split; [exact Hdb | exact Hin].
Defined.

(** ** The list readers *)

Section ReaderFacts.
Context `{G : Gcr} `{R : !GcrRows}.

Lemma NotFound_wrapped (format : string) :
  NotFound (Some (fmt_Errorf format sql_ErrNoRows)).
Proof. eexists. split; reflexivity. Qed.

Lemma NotFound_ErrNoRows : NotFound (Some sql_ErrNoRows).
Proof. eexists. split; reflexivity. Qed.

Lemma queryAndMapToInfos_error_nil {I T} {rowT : row I T} {scanT : Scan T}
    (stmt : SQL.Stmt) (params : list value) (env : Env) (db : gmap string (list Row))
    (e : error) :
  (queryAndMapToInfos (I := I) (T := T) stmt params env db).2 = Some e ->
  (queryAndMapToInfos (I := I) (T := T) stmt params env db).1 = None.
Proof.
  unfold queryAndMapToInfos.
  destruct (Stmt_Query stmt (map adjustParam params) env db) as [rows|e0]; [|reflexivity].
  destruct (scan_Rows rows) as [rowObjs|e0]; [|reflexivity].
  destruct (length rowObjs =? 0)%nat; [reflexivity|].
  destruct (mapToInfos rowObjs None) as [res [e0|]] eqn:Hmap; cbn [fst snd];
    [|discriminate].
  intros _. exact (mapToInfos_err _ _ _ _ Hmap).
Qed.

(** X22. The seven readers of a list built on [queryAndMapToInfos] report an
    answer of zero rows as NotFound and return no list, never an empty list
    without an error: the four readers of the rows before a time,
    [GetLatestNodesBeforeAndNotDeleted] among them, and the three readers of
    pods.  [LoadLatestPodInfoWithName] reports NotFound for a name the
    statement finds no row for.  [LoadAllEvents], which scans the rows
    itself, is the one reader of a list that does not: on an answer of zero
    rows it returns the [nil] list and no error. *)
Theorem readers_report_no_row {scanE : Scan EventInfo} (stmt : SQL.Stmt) (t : Time)
    (podName : string) (env : Env) (db : gmap string (list Row)) :
  (Stmt_Query stmt [VInt (Time_UnixMilli (Time_UTC t))] env db = inl [] ->
     nothing_found (LoadWorkerPoolInfosBefore stmt t env db) /\
     nothing_found (LoadMachineDeploymentInfosBefore stmt t env db) /\
     nothing_found (LoadNodeInfosBefore stmt t env db) /\
     nothing_found (GetLatestNodesBeforeAndNotDeleted stmt t env db) /\
     nothing_found (GetLatestUnscheduledPodsBeforeTimestamp stmt t env db) /\
     nothing_found (GetLatestPodInfosBeforeSnapshotTime stmt t env db)) /\
  (Stmt_Query stmt [VInt (Time_UnixMilli (Time_UTC t)); VInt (Time_UnixMilli (Time_UTC t))]
     env db = inl [] ->
     nothing_found (GetLatestScheduledPodsBeforeTimestamp stmt t env db)) /\
  (Stmt_Query stmt [VText podName] env db = inl [] ->
     NotFound (LoadLatestPodInfoWithName stmt podName env db).2) /\
  (Stmt_Query stmt [] env db = inl [] -> LoadAllEvents stmt env db = (None, None)).
Proof.
  split; [|split; [|split]]; [| | |intros Hz; unfold LoadAllEvents; now rewrite Hz].
  - intros Hz.
    unfold LoadWorkerPoolInfosBefore, LoadMachineDeploymentInfosBefore, LoadNodeInfosBefore,
      GetLatestNodesBeforeAndNotDeleted, GetLatestUnscheduledPodsBeforeTimestamp,
      GetLatestPodInfosBeforeSnapshotTime.
    rewrite !(queryAndMapToInfos_zero_rows stmt [VTime t] env db Hz).
    repeat apply conj; try reflexivity;
      first [apply NotFound_wrapped | apply NotFound_ErrNoRows].
  - intros Hz. unfold GetLatestScheduledPodsBeforeTimestamp.
    rewrite (queryAndMapToInfos_zero_rows stmt [VTime t; VTime t] env db Hz).
    split; [reflexivity | apply NotFound_ErrNoRows].
  - intros Hz. unfold LoadLatestPodInfoWithName.
    rewrite (queryAndMapToInfo_zero_rows _ _ _ _ Hz). apply NotFound_wrapped.
Qed.

Lemma passes_on_wrapper {A} (prim : GoSlice A * option error) (format : string) :
  (forall e, prim.2 = Some e -> prim.1 = None) ->
  passes_on (match prim with
             | (_, Some err) => (None, Some (fmt_Errorf format err))
             | (infos, None) => (infos, None)
             end) prim.
Proof.
  destruct prim as [infos [e|]]; cbn [fst snd]; intros Hnil.
  - split; [symmetry; exact (Hnil e eq_refl)|]. split; [discriminate|].
    intros cause [= <-]. apply wraps_Errorf.
  - split; [reflexivity|]. split; [reflexivity | discriminate].
Qed.

(** X23. The four readers of the rows before a time pass on what
    [queryAndMapToInfos] gives for the statement and the time: the same
    objects, [nil] with an error; no error where it reports none; and where
    it reports one, an error that [errors.Is] still matches with the cause,
    whichever step failed. *)
Theorem Load_before_passes_on (stmt : SQL.Stmt) (t : Time) (env : Env)
    (db : gmap string (list Row)) :
  passes_on (LoadWorkerPoolInfosBefore stmt t env db)
    (queryAndMapToInfos (I := WorkerPoolInfo) (T := workerPoolRow) stmt [VTime t] env db) /\
  passes_on (LoadMachineDeploymentInfosBefore stmt t env db)
    (queryAndMapToInfos (I := MachineDeploymentInfo) (T := mcdRow) stmt [VTime t] env db) /\
  passes_on (LoadNodeInfosBefore stmt t env db)
    (queryAndMapToInfos (I := NodeInfo) (T := nodeRow) stmt [VTime t] env db) /\
  passes_on (GetLatestNodesBeforeAndNotDeleted stmt t env db)
    (queryAndMapToInfos (I := NodeInfo) (T := nodeRow) stmt [VTime t] env db).
Proof.
  repeat apply conj;
    (apply passes_on_wrapper; intros e; apply queryAndMapToInfos_error_nil).
Qed.

(** ** The pod spec *)

(** X24. [speccFromJson] after [specToJson]: a pod spec that the JSON
    library writes as a text that is not blank and reads back is returned;
    white space is decoded as the zero pod spec with no error, and so is the
    text [specToJson] returns for a pod spec that cannot be written; a text
    that cannot be read gives an error that wraps the cause. *)
Theorem spec_round_trip (podSpec : PodSpec) (text jsonVal : string) (cause : error) :
  (Marshal_podSpec podSpec = inl text -> strings_TrimSpace text <> "" ->
   Unmarshal_podSpec text = (podSpec, None) ->
     speccFromJson (specToJson podSpec).1 = (podSpec, None)) /\
  (blank jsonVal = true -> speccFromJson jsonVal = (zero, None)) /\
  (Marshal_podSpec podSpec = inr cause ->
     speccFromJson (specToJson podSpec).1 = (zero, None)) /\
  (strings_TrimSpace jsonVal <> "" -> (Unmarshal_podSpec jsonVal).2 = Some cause ->
     wraps (speccFromJson jsonVal).2 cause).
Proof.
  repeat apply conj.
  - intros Hm Hne Hu. unfold specToJson, speccFromJson. rewrite Hm. cbn [fst].
    destruct (decide (strings_TrimSpace text = "")); [contradiction|].
    rewrite Hu. reflexivity.
  - intros Hb. unfold speccFromJson.
    rewrite (TrimSpace_blank _ Hb).
    destruct (decide ("" = "")); [reflexivity | contradiction].
  - intros Hm. unfold specToJson, speccFromJson. rewrite Hm. cbn [fst].
    rewrite (TrimSpace_blank "" eq_refl).
    destruct (decide ("" = "")); [reflexivity | contradiction].
  - intros Hne Hu. unfold speccFromJson.
    destruct (decide (strings_TrimSpace jsonVal = "")); [contradiction|].
    destruct (Unmarshal_podSpec jsonVal) as [p [e|]]; cbn [snd] in Hu |- *;
      [|discriminate].
    injection Hu as ->. apply wraps_Errorf.
Qed.

End ReaderFacts.

(** ** Events *)

Section EventFacts.
Context {scanT : Scan EventInfo}.

Lemma StoreEventInfo_spec (event : EventInfo) (env : Env) (db : gmap string (list Row)) :
  StoreEventInfo event env db =
  match execErr env with
  | Some e => (db, Some e)
  | None =>
      (<["event_info" :=
           (table db "event_info" ++
            [event_row (next_RowID (table db "event_info")) event])%list]> db, None)
  end.
Proof.
  unfold StoreEventInfo, InsertEvent. rewrite Exec_Insert by reflexivity.
  destruct (execErr env); reflexivity.
Qed.

Lemma selectEventWithUID_rows (uid : string) (env : Env) (db : gmap string (list Row)) :
  queryErr env = None ->
  Stmt_Query selectEventWithUID [VText uid] env db =
  inl (filter (fun r => cell r "UID" = VText uid) (table db "event_info")).
Proof.
  intros Hq. unfold Stmt_Query, argsErr, selectEventWithUID. cbn.
  rewrite andb_false_r, Hq. reflexivity.
Qed.

(** X25. [StoreEventInfo] then [LoadEventInfoWithUID]: an event whose UID no
    row of [event_info] carries is appended as one row of its nine fields,
    and loading its UID gives what [scan.Row] makes of that row.  Loading a
    UID that no row carries gives the zero event and [sql.ErrNoRows] itself,
    not wrapped; a store that fails leaves the database as it was and
    returns the driver's error. *)
Theorem StoreEventInfo_then_Load (event : EventInfo) (uid : string) (env : Env)
    (db : gmap string (list Row)) :
  queryErr env = None ->
  (execErr env = None ->
   (forall r, r ∈ table db "event_info" -> cell r "UID" <> VText (Event.UID event)) ->
     let stored := event_row (next_RowID (table db "event_info")) event in
     let db' := (StoreEventInfo event env db).1 in
     (StoreEventInfo event env db).2 = None /\
     table db' "event_info" = (table db "event_info" ++ [stored])%list /\
     (forall t, t <> "event_info" -> table db' t = table db t) /\
     LoadEventInfoWithUID (Event.UID event) env db' =
       match scan_struct stored with
       | inl eventInfo => (eventInfo, None)
       | inr err => (zero, Some err)
       end) /\
  ((forall r, r ∈ table db "event_info" -> cell r "UID" <> VText uid) ->
     LoadEventInfoWithUID uid env db = (zero, Some sql_ErrNoRows)) /\
  (forall e, execErr env = Some e -> StoreEventInfo event env db = (db, Some e)).
Proof.
  intros Hq. repeat apply conj.
  - intros He Hfresh stored db'. subst db'. rewrite StoreEventInfo_spec, He. cbn [fst snd].
    split; [reflexivity|]. split; [apply table_insert_eq|].
    split; [intros t Ht; apply table_insert_ne; congruence|].
    unfold LoadEventInfoWithUID. rewrite (selectEventWithUID_rows _ _ _ Hq).
    rewrite table_insert_eq, filter_app, (filter_none _ _ Hfresh).
    cbn [app]. rewrite filter_cons_True by reflexivity. rewrite filter_nil.
    unfold scan_Row. cbn [scan_Rows]. fold stored.
    destruct (scan_struct stored); reflexivity.
  - intros Hnone. unfold LoadEventInfoWithUID.
    rewrite (selectEventWithUID_rows _ _ _ Hq), (filter_none _ _ Hnone). reflexivity.
  - intros e He. rewrite StoreEventInfo_spec, He. reflexivity.
Qed.

End EventFacts.

Lemma readers_report_no_row_witness :
  nothing_found (GetLatestNodesBeforeAndNotDeleted (R := SampleRows.rows)
             (SQL.SelectLatest "node_info") Sample.T0 ok ∅) /\
  nothing_found (GetLatestScheduledPodsBeforeTimestamp (R := SampleRows.rows)
             (SQL.SelectLatest "pod_info") Sample.T0 ok ∅) /\
  NotFound (LoadLatestPodInfoWithName (R := SampleRows.rows)
              (SQL.SelectLatestBy "pod_info" "Name") "p1" ok ∅).2 /\
  LoadAllEvents (scanT := SampleRows.event_Scan) (SQL.SelectLatest "event_info") ok ∅
    = (None, None).
Proof.
  split; [|split; [|split]].
  - apply (readers_report_no_row (G := Sample.gcr) (R := SampleRows.rows)
             (scanE := SampleRows.event_Scan)
             (SQL.SelectLatest "node_info") Sample.T0 "p1" ok ∅).
    vm_compute. reflexivity.
  - apply (readers_report_no_row (G := Sample.gcr) (R := SampleRows.rows)
             (scanE := SampleRows.event_Scan)
             (SQL.SelectLatest "pod_info") Sample.T0 "p1" ok ∅).
    vm_compute. reflexivity.
  - apply (readers_report_no_row (G := Sample.gcr) (R := SampleRows.rows)
             (scanE := SampleRows.event_Scan)
             (SQL.SelectLatestBy "pod_info" "Name") Sample.T0 "p1" ok ∅).
    vm_compute. reflexivity.
  - apply (readers_report_no_row (G := Sample.gcr) (R := SampleRows.rows)
             (scanE := SampleRows.event_Scan)
             (SQL.SelectLatest "event_info") Sample.T0 "p1" ok ∅).
    vm_compute. reflexivity.
Defined.

Lemma Load_before_passes_on_witness :
  let locked := errors_New "database is locked" in
  let env := {| execErr := None; lastInsertIdErr := None; rowsAffectedErr := None;
                queryErr := Some locked; closeErr := None; checkNumInput := false |} in
  wraps (LoadNodeInfosBefore (R := SampleRows.rows)
           (SQL.SelectLatest "node_info") Sample.T0 env ∅).2 locked /\
  (LoadMachineDeploymentInfosBefore (G := Sample.gcr) (SQL.SelectLatest "mcd_info") Sample.T0 ok
     (StoreMachineDeploymentInfo (G := Sample.gcr) Sample.mcd1 ok ∅).1).2 = None.
Proof.
  intros locked env. split.
  - apply (Load_before_passes_on (G := Sample.gcr) (R := SampleRows.rows)
             (SQL.SelectLatest "node_info") Sample.T0 env ∅).
    reflexivity.
  - apply (Load_before_passes_on (G := Sample.gcr) (R := SampleRows.rows)
             (SQL.SelectLatest "mcd_info") Sample.T0 ok
             (StoreMachineDeploymentInfo (G := Sample.gcr) Sample.mcd1 ok ∅).1).
    vm_compute. reflexivity.
Defined.

Lemma spec_round_trip_witness :
  speccFromJson (R := SampleRows.rows) (specToJson (E := Sample.external) "spec-1").1
    = ("spec-1", None) /\
  speccFromJson (R := SampleRows.rows) "  " = ("", None) /\
  speccFromJson (R := SampleRows.rows) (specToJson (E := Sample.external) "").1
    = ("", None) /\
  wraps (speccFromJson (R := SampleRows.rows) "spec-1").2 (errors_New "invalid character").
Proof.
  split; [|split; [|split]].
  - apply (spec_round_trip (R := SampleRows.rows) "spec-1" (Sample.quote "spec-1") "  "
             (errors_New "invalid character")).
    + reflexivity.
    + vm_compute. discriminate.
    + reflexivity.
  - apply (spec_round_trip (R := SampleRows.rows) "spec-1" (Sample.quote "spec-1") "  "
             (errors_New "invalid character")).
    reflexivity.
  - apply (spec_round_trip (R := SampleRows.rows) "" "" "  "
             (errors_New "json: error calling MarshalJSON")).
    reflexivity.
  - apply (spec_round_trip (R := SampleRows.rows) "" "" "spec-1"
             (errors_New "invalid character")).
    + vm_compute. discriminate.
    + reflexivity.
Defined.

Lemma StoreEventInfo_then_Load_witness :
  LoadEventInfoWithUID (scanT := SampleRows.event_Scan) "ev-1" ok
    (StoreEventInfo SampleRows.event1 ok ∅).1 = (SampleRows.event1, None) /\
  LoadEventInfoWithUID (scanT := SampleRows.event_Scan) "ev-2" ok
    (StoreEventInfo SampleRows.event1 ok ∅).1 = (zero, Some sql_ErrNoRows).
Proof.
  split.
  - apply (StoreEventInfo_then_Load (scanT := SampleRows.event_Scan)
             SampleRows.event1 "ev-2" ok ∅ eq_refl); [reflexivity|].
    intros r Hr. vm_compute in Hr. inversion Hr.
  - apply (StoreEventInfo_then_Load (scanT := SampleRows.event_Scan)
             SampleRows.event1 "ev-2" ok (StoreEventInfo SampleRows.event1 ok ∅).1 eq_refl).
    intros r Hr. vm_compute in Hr. inversion Hr as [|? ? ? Hn]; subst; [|inversion Hn].
    vm_compute. discriminate.
Defined.
